(** * Stroke extraction from glyph outlines ([getchar.py])

    A shallow embedding of [getchar.py]: its geometric core, that is the
    path decomposer ([break_path]), the cusp detector and merger
    ([get_cusps], [Cusp.merge]) and the connector ([Cusp.connect], the edge
    loop of [augment_glyph]); and the text functions that feed it, that is
    [get_svg_path_data] and the glyph lookup of the main block
    ([find_glyph]), over Python's [str] methods.  The properties of that code
    follow.

    Python's [float] and [complex] and the [math] functions the script calls
    are an interface ([PyNum]); the functions of the script are written once,
    over that interface.  Two implementations of the interface are given: IEEE
    binary64 numbers, on which the functions run, and the real numbers, on
    which the laws of exact arithmetic hold.

    The properties come in this order: the decomposer, the detector, the
    connector, the merger, a whole glyph; then what [get_cusps] and
    [augment_glyph] return, the rule of [merge], and what a second run of the
    merger does to the outcome of a first ([Stability]); then the text
    functions, where the cusps of a glyph come from, the elements added to a
    glyph, and the changes of an outline that the analysis does not see.
    Properties of the
    control flow hold over any [PyNum]; those that compare distances assume
    the laws of an order ([DistanceLaws], proved of both implementations);
    those that read the sign of an angle assume [AngleLaws], proved of the
    real numbers; [Stability] is about the real numbers, where the chord of
    an arc is no longer than the arc.

    A call returns a value or raises ([res]).  What the script prints on the
    way ([print] in [_try_connect] and [augment_glyph]), the markup it
    formats, the files it reads and writes and the path parser of [svg.path]
    are left out. *)

From Stdlib Require Import Ascii String.
From Stdlib Require Import List Arith Bool Lia ZArith.
From Stdlib Require Import Floats.
From Stdlib Require Import Reals Lra.
Import ListNotations.

(** ** Python's numbers *)

(** The operations of [float], [complex] and [math] that the script uses.
    [cdiv z w] is only called on a [w] whose truth value is [true]
    ([_get_angle] returns before dividing otherwise), so the
    [ZeroDivisionError] of Python's [/] has no counterpart here. *)
Class PyNum : Type := {
  pyfloat : Type;
  pycomplex : Type;
  (* complex *)
  creal : pycomplex -> pyfloat;              (* z.real *)
  cimag : pycomplex -> pyfloat;              (* z.imag *)
  csub : pycomplex -> pycomplex -> pycomplex; (* z - w *)
  cdiv : pycomplex -> pycomplex -> pycomplex; (* z / w *)
  cabs : pycomplex -> pyfloat;               (* abs(z) *)
  ceqb : pycomplex -> pycomplex -> bool;     (* z == w *)
  cbool : pycomplex -> bool;                 (* bool(z): z is not zero *)
  (* float *)
  of_int : Z -> pyfloat;                     (* an int where a float is used *)
  fadd : pyfloat -> pyfloat -> pyfloat;      (* x + y *)
  fmul : pyfloat -> pyfloat -> pyfloat;      (* x * y *)
  fabs : pyfloat -> pyfloat;                 (* abs(x) *)
  fltb : pyfloat -> pyfloat -> bool;         (* x < y *)
  fleb : pyfloat -> pyfloat -> bool;         (* x <= y *)
  (* literals and math *)
  lit_0_1 : pyfloat;                         (* 0.1 *)
  lit_0_3 : pyfloat;                         (* 0.3 *)
  math_pi : pyfloat;                         (* math.pi *)
  math_atan2 : pyfloat -> pyfloat -> pyfloat (* math.atan2(y, x) *)
}.

(** [x > y] is [y < x]. *)
Definition fgtb {N : PyNum} (x y : pyfloat) : bool := fltb y x.

(** [z != w] *)
Definition cneb {N : PyNum} (z w : pycomplex) : bool := negb (ceqb z w).

(** ** Exceptions and loops *)

Inductive exn : Type := IndexError | AssertionError | ZeroDivisionError.

(** The outcome of a call: a value, an exception, or [OutOfFuel] when a
    [while] loop is cut after the number of iterations it was given. *)
Inductive res (A : Type) : Type :=
| Ret (a : A)
| Raise (e : exn)
| OutOfFuel.

Arguments Ret {A} a.
Arguments Raise {A} e.
Arguments OutOfFuel {A}.

Definition bind {A B : Type} (m : res A) (k : A -> res B) : res B :=
  match m with
  | Ret a => k a
  | Raise e => Raise e
  | OutOfFuel => OutOfFuel
  end.

Notation "x <- m ;; k" := (bind m (fun x => k))
  (at level 61, m at next level, right associativity).
Notation "' pat <- m ;; k" := (bind m (fun x => match x with pat => k end))
  (at level 61, pat pattern, m at next level, right associativity).

(** [l[i]] for [i >= 0]. *)
Definition getitem {A : Type} (l : list A) (i : nat) : res A :=
  match nth_error l i with
  | Some a => Ret a
  | None => Raise IndexError
  end.

(** [l[-1]] *)
Definition getlast {A : Type} (l : list A) : res A :=
  match rev l with
  | a :: _ => Ret a
  | [] => Raise IndexError
  end.

(** [a % b] on ints that are not negative. *)
Definition pymod (a b : nat) : res nat :=
  match b with
  | 0 => Raise ZeroDivisionError
  | _ => Ret (a mod b)
  end.

(** [l.pop(i)], the list that is left. *)
Definition pop {A : Type} (i : nat) (l : list A) : res (list A) :=
  if i <? length l then Ret (firstn i l ++ skipn (S i) l) else Raise IndexError.

(** The list [l] after the object at position [i] was mutated into [a]. *)
Fixpoint setitem {A : Type} (i : nat) (a : A) (l : list A) : list A :=
  match l, i with
  | [], _ => []
  | _ :: l', 0 => a :: l'
  | x :: l', S i' => x :: setitem i' a l'
  end.

(** [enumerate(l)] *)
Definition enumerate {A : Type} (l : list A) : list (nat * A) :=
  combine (seq 0 (length l)) l.

(** ** Python's strings *)

(** A [str] is a list of characters.  The methods are those the script
    calls, on offsets that are not negative. *)
Definition pystr : Type := list ascii.

Definition str (s : string) : pystr := list_ascii_of_string s.

Definition quote : ascii := "034"%char.
Definition newline : ascii := "010"%char.
Definition space : ascii := " "%char.

(** [s.startswith(sub)] *)
Fixpoint startswith (s sub : pystr) {struct sub} : bool :=
  match sub, s with
  | [], _ => true
  | c :: sub', d :: s' => Ascii.eqb c d && startswith s' sub'
  | _ :: _, [] => false
  end.

(** The lowest offset at which [sub] occurs in [s], counted from [pos], or
    [-1]. *)
Fixpoint find_from (s sub : pystr) (pos : nat) : Z :=
  if startswith s sub then Z.of_nat pos
  else
    match s with
    | [] => (-1)%Z
    | _ :: s' => find_from s' sub (S pos)
    end.

(** [s.find(sub, start)] *)
Definition find (s sub : pystr) (start : nat) : Z :=
  if length s <? start then (-1)%Z else find_from (skipn start s) sub start.

(** The highest offset at which [sub] occurs in [s], counted from [pos], or
    [best]. *)
Fixpoint rfind_from (s sub : pystr) (pos : nat) (best : Z) : Z :=
  let best := if startswith s sub then Z.of_nat pos else best in
  match s with
  | [] => best
  | _ :: s' => rfind_from s' sub (S pos) best
  end.

(** [s.rfind(sub, 0, stop)]: the occurrence lies within [s[0:stop]]. *)
Definition rfind (s sub : pystr) (stop : nat) : Z :=
  rfind_from (firstn stop s) sub 0 (-1)%Z.

(** [s[a:b]] *)
Definition slice (s : pystr) (a b : nat) : pystr := firstn (b - a) (skipn a s).

(** [s.replace(old, new)]: the occurrences of [old] are replaced from left
    to right, the scan resuming after each one ([skip] characters of the
    occurrence are still to be passed). *)
Fixpoint replace_from (skip : nat) (s old new : pystr) : pystr :=
  match s with
  | [] => []
  | c :: s' =>
      match skip with
      | S skip' => replace_from skip' s' old new
      | 0 =>
          if startswith s old
          then new ++ replace_from (length old - 1) s' old new
          else c :: replace_from 0 s' old new
      end
  end.

Definition replace (s old new : pystr) : pystr :=
  match old with
  | [] => new ++ flat_map (fun c => c :: new) s
  | _ :: _ => replace_from 0 s old new
  end.

Section Analysis.

Context {N : PyNum}.

(** ** Segments and paths ([svg.path]) *)

Inductive Segment : Type :=
| Line (start end_ : pycomplex)
| CubicBezier (start control1 control2 end_ : pycomplex)
| QuadraticBezier (start control end_ : pycomplex)
| Arc (start radius : pycomplex) (rotation : pyfloat) (arc sweep : bool)
      (end_ : pycomplex).

Definition seg_start (s : Segment) : pycomplex :=
  match s with
  | Line a _ | CubicBezier a _ _ _ | QuadraticBezier a _ _
  | Arc a _ _ _ _ _ => a
  end.

Definition seg_end (s : Segment) : pycomplex :=
  match s with
  | Line _ b | CubicBezier _ _ _ b | QuadraticBezier _ _ b
  | Arc _ _ _ _ _ b => b
  end.

Definition Path : Type := list Segment.

(** ** Constants controlling the stroke extraction *)

Definition MAX_CROSSING_DISTANCE : pyfloat := of_int 64.
Definition MAX_CUSP_MERGE_DISTANCE : pyfloat := of_int 15.
Definition MIN_CUSP_ANGLE : pyfloat := fmul lit_0_1 math_pi.

(** ** class Cusp *)

Record Cusp : Type := {
  paths : list Path;
  index : nat * nat;
  point : pycomplex;
  tangent1 : pycomplex;
  tangent2 : pycomplex;
  angle : pyfloat
}.

Definition index_eqb (a b : nat * nat) : bool :=
  (fst a =? fst b) && (snd a =? snd b).

Definition _get_angle (vector1 vector2 : pycomplex) : pyfloat :=
  if negb (cbool vector1) || negb (cbool vector2) then of_int 0
  else
    let ratio := cdiv vector1 vector2 in
    math_atan2 (cimag ratio) (creal ratio).

Definition _get_tangents (path : Path) (index : nat)
  : res (pycomplex * pycomplex) :=
  segment1 <- getitem path index ;;
  let tangent1 :=
    match segment1 with
    | QuadraticBezier _ control e =>
        if cneb e control then csub e control
        else csub (seg_end segment1) (seg_start segment1)
    | _ => csub (seg_end segment1) (seg_start segment1)
    end in
  next <- pymod (index + 1) (length path) ;;
  segment2 <- getitem path next ;;
  let tangent2 :=
    match segment2 with
    | QuadraticBezier s control e =>
        if cneb control e then csub control s
        else csub (seg_end segment2) (seg_start segment2)
    | _ => csub (seg_end segment2) (seg_start segment2)
    end in
  Ret (tangent1, tangent2).

(** [Cusp(paths, index)] *)
Definition new_Cusp (paths : list Path) (index : nat * nat) : res Cusp :=
  let (i, j) := index in
  path <- getitem paths i ;;
  segment <- getitem path j ;;
  '(t1, t2) <- _get_tangents path j ;;
  Ret {| paths := paths; index := index; point := seg_end segment;
         tangent1 := t1; tangent2 := t2; angle := _get_angle t1 t2 |}.

(** The [while j != other.index[1]] loop of [merge]: from segment [j], the
    chord lengths of the segments walked until [target] is reached. *)
Fixpoint walk (fuel : nat) (path : Path) (target j : nat) (distance : pyfloat)
  : res pyfloat :=
  if j =? target then Ret distance
  else
    match fuel with
    | 0 => OutOfFuel
    | S fuel' =>
        j' <- pymod (j + 1) (length path) ;;
        segment <- getitem path j' ;;
        walk fuel' path target j'
          (fadd distance (cabs (csub (seg_end segment) (seg_start segment))))
    end.

(** [self.merge(other)]: the returned boolean and [other] as the call leaves
    it.  The loop steps onto the path and goes round it at most once before
    it meets a valid [other.index[1]], so [S (length path)] iterations are
    all it can use. *)
Definition merge (self other : Cusp) : res (bool * Cusp) :=
  if negb (fst (index other) =? fst (index self)) then Raise AssertionError
  else if fgtb (cabs (csub (point other) (point self))) MAX_CUSP_MERGE_DISTANCE
  then Ret (false, other)
  else
    path <- getitem (paths self) (fst (index self)) ;;
    distance <- walk (S (length path)) path (snd (index other)) (snd (index self))
                  (of_int 0) ;;
    if fgtb distance MAX_CUSP_MERGE_DISTANCE then Ret (false, other)
    else
      let other1 :=
        if fgtb (fabs (angle self)) (fabs (angle other))
        then {| paths := paths other; index := index self;
                point := point self; tangent1 := tangent1 other;
                tangent2 := tangent2 other; angle := angle other |}
        else other in
      Ret (true,
           {| paths := paths other1; index := index other1;
              point := point other1; tangent1 := tangent1 self;
              tangent2 := tangent2 other1;
              angle := _get_angle (tangent1 self) (tangent2 other1) |}).

Definition threshold_0_3_pi : pyfloat := fmul lit_0_3 math_pi.

(** The five features of [_try_connect], in the order of the tuple. *)
Definition features (self other : Cusp) (reverse : bool)
  : pyfloat * pyfloat * pyfloat * pyfloat * pyfloat :=
  let diff := csub (point other) (point self) in
  let length := cabs diff in
  let (other1, other2) :=
    if reverse then (tangent2 other, tangent1 other)
    else (tangent1 other, tangent2 other) in
  (_get_angle (tangent1 self) diff,
   _get_angle diff other2,
   _get_angle diff (tangent2 self),
   _get_angle other1 diff,
   length).

Definition _try_connect (self other : Cusp) (reverse : bool) : bool :=
  if ceqb (point other) (point self) then true
  else
    let diff := csub (point other) (point self) in
    let length := cabs diff in
    if fgtb length MAX_CROSSING_DISTANCE then false
    else
      let '(f0, f1, f2, f3, _) := features self other reverse in
      fgtb (fmul f2 f3) (of_int 0)
      && fltb (fabs f0) threshold_0_3_pi
      && fltb (fabs f1) threshold_0_3_pi
      && fgtb (fabs f2) threshold_0_3_pi
      && fgtb (fabs f3) threshold_0_3_pi.

Definition connect (self other : Cusp) : bool :=
  if index_eqb (index other) (index self) then false
  else if fst (index other) =? fst (index self)
  then _try_connect self other false
  else _try_connect self other false || _try_connect self other true.

(** ** break_path *)

(** The [for element in path[1:]] loop. *)
Fixpoint break_loop (rest : list Segment) (subpaths : list Path)
  : res (list Path) :=
  match rest with
  | [] => Ret subpaths
  | element :: rest' =>
      current <- getlast subpaths ;;
      previous <- getlast current ;;
      let subpaths :=
        if cneb (seg_start element) (seg_end previous)
        then subpaths ++ [[]] else subpaths in
      current <- getlast subpaths ;;
      break_loop rest' (removelast subpaths ++ [current ++ [element]])
  end.

Definition break_path (path : Path) : res (list Path) :=
  match path with
  | [] => Raise IndexError
  | first :: rest => break_loop rest [[first]]
  end.

(** ** get_cusps *)

(** The detector: the [for j, element in enumerate(path)] loop. *)
Fixpoint detect_loop (paths : list Path) (i : nat) (js : list nat)
  (cusps : list Cusp) : res (list Cusp) :=
  match js with
  | [] => Ret cusps
  | j :: js' =>
      cusp <- new_Cusp paths (i, j) ;;
      detect_loop paths i js'
        (if fgtb (fabs (angle cusp)) MIN_CUSP_ANGLE then cusps ++ [cusp]
         else cusps)
  end.

Definition detect (paths : list Path) (i : nat) (path : Path)
  : res (list Cusp) :=
  detect_loop paths i (seq 0 (length path)) [].

(** The body of the merger's [while] loop at index [j]: the cusp list and the
    index it leaves.  [merge] mutates the cusp at position
    [(j + 1) % len(cusps)] in place; [setitem] records it. *)
Definition merger_step (cusps : list Cusp) (j : nat)
  : res (list Cusp * nat) :=
  self <- getitem cusps j ;;
  k <- pymod (j + 1) (length cusps) ;;
  other <- getitem cusps k ;;
  '(merged, other') <- merge self other ;;
  let cusps := setitem k other' cusps in
  if merged : bool then
    cusps <- pop j cusps ;;
    Ret (cusps, j)
  else Ret (cusps, j + 1).

(** The merger: the [while j < len(cusps)] loop. *)
Fixpoint merger_loop (fuel : nat) (cusps : list Cusp) (j : nat)
  : res (list Cusp) :=
  if j <? length cusps then
    match fuel with
    | 0 => OutOfFuel
    | S fuel' =>
        '(cusps', j') <- merger_step cusps j ;;
        merger_loop fuel' cusps' j'
    end
  else Ret cusps.

(** The merger on one per-sub-path cusp list.  Every iteration either pops a
    cusp or advances [j], so [length cusps] iterations are all the loop can
    use. *)
Definition merger (cusps : list Cusp) : res (list Cusp) :=
  merger_loop (length cusps) cusps 0.

Fixpoint get_cusps_loop (paths : list Path) (todo : list (nat * Path))
  (result : list Cusp) : res (list Cusp) :=
  match todo with
  | [] => Ret result
  | (i, path) :: todo' =>
      cusps <- detect paths i path ;;
      cusps <- merger cusps ;;
      get_cusps_loop paths todo' (result ++ cusps)
  end.

Definition get_cusps (paths : list Path) : res (list Cusp) :=
  get_cusps_loop paths (enumerate paths) [].

(** ** augment_glyph *)

(** The elements [augment_glyph] adds to a glyph: a circle per cusp and a
    line per connection.  (The script prints their coordinates into markup;
    the markup is left out.) *)
Inductive Extra : Type :=
| Circle (c : pycomplex) (data_angle : pyfloat)
| Stroke (p q : pycomplex).

(** The connector: the two nested [for] loops over [cusps]. *)
Definition connector (cusps : list Cusp) : list (Cusp * Cusp) :=
  fold_left
    (fun result cusp =>
       fold_left
         (fun result other =>
            if connect cusp other then result ++ [(cusp, other)] else result)
         cusps result)
    cusps [].

(** [augment_glyph] from the parsed path on. *)
Definition augment_glyph (parsed : Path) : res (list Extra) :=
  let path := filter (fun element => cneb (seg_start element) (seg_end element))
                parsed in
  match path with
  | [] => Raise AssertionError
  | _ =>
      paths <- break_path path ;;
      cusps <- get_cusps paths ;;
      Ret (map (fun cusp => Circle (point cusp) (angle cusp)) cusps
           ++ map (fun e => Stroke (point (fst e)) (point (snd e)))
                (connector cusps))
  end.

End Analysis.

(** ** get_svg_path_data *)

Definition get_svg_path_data (glyph : pystr) : res pystr :=
  let left := str " d=" ++ [quote] in
  let start :=
    Z.max (find glyph left 0) (find glyph (replace left [space] [newline]) 0) in
  if (start <? 0)%Z then Raise AssertionError
  else
    let end_ := find glyph [quote] (Z.to_nat start + length left) in
    if (end_ <? 0)%Z then Raise AssertionError
    else
      Ret (replace (slice glyph (Z.to_nat start + length left) (Z.to_nat end_))
             [newline] [space]).

(** ** The glyph lookup of the main block *)

(** What the loop over the code points does with one of them: it keeps a
    glyph, or reports the code point as missing or the file as malformed. *)
Inductive lookup : Type :=
| Found (glyph : pystr)
| Missing
| Malformed.

(** The attribute searched for: its name, and between double quotes
    [&#x], the code point and [;]. *)
Definition unicode_attribute (codepoint : pystr) : pystr :=
  str "unicode=" ++ [quote] ++ str "&#x" ++ codepoint ++ str ";" ++ [quote].

Definition find_glyph (data codepoint : pystr) : lookup :=
  let index := find data (unicode_attribute codepoint) 0 in
  if (index <? 0)%Z then Missing
  else
    let left := str "<glyph" in
    let right := str "/>" in
    let start := rfind data left (Z.to_nat index) in
    let end_ := find data right (Z.to_nat index) in
    if (start <? 0)%Z || (end_ <? 0)%Z then Malformed
    else Found (slice data (Z.to_nat start) (Z.to_nat end_ + length right)).

(** ** Binary64 numbers

    Python's [float] is an IEEE binary64 number and [complex] a pair of them.
    [+ - * /], the comparisons and [sqrt] are the kernel's.  [abs] of a
    complex and [math.atan2] come from the platform's C library ([hypot],
    [atan2]), which fixes them up to the last digits only; here they are
    computed in binary64 arithmetic, exactly on the axes and to within a few
    units in the last place elsewhere. *)
Module Binary64.

Local Open Scope float_scope.

Definition pi : float := 0x1.921fb54442d18p+1.

Definition copysign (r y : float) : float :=
  if PrimFloat.get_sign y then - r else r.

(** [t - t^3/3 + t^5/5 - ... - t^23/23] *)
Definition atan_series (t : float) : float :=
  let s := t * t in
  t * (1 - s * (1/3 - s * (1/5 - s * (1/7 - s * (1/9 - s * (1/11 - s * (1/13
       - s * (1/15 - s * (1/17 - s * (1/19 - s * (1/21 - s * (1/23)))))))))))).

(** [tan (a/2)] from [tan a] *)
Definition halve (t : float) : float := t / (1 + PrimFloat.sqrt (1 + t * t)).

(** [atan t] for [0 <= t <= 1] *)
Definition atan_unit (t : float) : float := 4 * atan_series (halve (halve t)).

(** [atan t] for [0 <= t] *)
Definition atan_pos (t : float) : float :=
  if 1 <? t then pi / 2 - atan_unit (1 / t) else atan_unit t.

Definition atan2 (y x : float) : float :=
  if PrimFloat.is_nan x || PrimFloat.is_nan y then nan
  else if y =? 0 then (if PrimFloat.get_sign x then copysign pi y else y)
  else if x =? 0 then copysign (pi / 2) y
  else if PrimFloat.is_infinity x && PrimFloat.is_infinity y
  then copysign (if PrimFloat.get_sign x then 3 * (pi / 4) else pi / 4) y
  else
    let a := atan_pos (PrimFloat.abs y / PrimFloat.abs x) in
    copysign (if PrimFloat.get_sign x then pi - a else a) y.

Definition complex : Type := float * float.

Definition hypot (z : complex) : float :=
  let x := PrimFloat.abs (fst z) in
  let y := PrimFloat.abs (snd z) in
  if PrimFloat.is_infinity x || PrimFloat.is_infinity y then infinity
  else
    let (a, b) := if x <? y then (y, x) else (x, y) in
    if a =? 0 then a + b else a * PrimFloat.sqrt (1 + (b / a) * (b / a)).

(** CPython's complex division ([c_quot], Smith's algorithm). *)
Definition c_quot (a b : complex) : complex :=
  let abs_breal := PrimFloat.abs (fst b) in
  let abs_bimag := PrimFloat.abs (snd b) in
  if abs_bimag <=? abs_breal then
    if abs_breal =? 0 then (0, 0)
    else
      let ratio := snd b / fst b in
      let denom := fst b + snd b * ratio in
      ((fst a + snd a * ratio) / denom, (snd a - fst a * ratio) / denom)
  else if abs_breal <=? abs_bimag then
    let ratio := fst b / snd b in
    let denom := fst b * ratio + snd b in
    ((fst a * ratio + snd a) / denom, (snd a * ratio - fst a) / denom)
  else (nan, nan).

Definition of_Z (z : Z) : float :=
  match z with
  | Z0 => 0
  | Zpos _ => PrimFloat.of_uint63 (Uint63.of_Z z)
  | Zneg p => - PrimFloat.of_uint63 (Uint63.of_Z (Zpos p))
  end.

#[export] Instance num : PyNum := {|
  pyfloat := float;
  pycomplex := complex;
  creal := fst;
  cimag := snd;
  csub := fun z w => (fst z - fst w, snd z - snd w);
  cdiv := c_quot;
  cabs := hypot;
  ceqb := fun z w => (fst z =? fst w) && (snd z =? snd w);
  cbool := fun z => negb (fst z =? 0) || negb (snd z =? 0);
  of_int := of_Z;
  fadd := PrimFloat.add;
  fmul := PrimFloat.mul;
  fabs := PrimFloat.abs;
  fltb := PrimFloat.ltb;
  fleb := PrimFloat.leb;
  lit_0_1 := 0x1.999999999999ap-4;
  lit_0_3 := 0x1.3333333333333p-2;
  math_pi := pi;
  math_atan2 := atan2
|}.

End Binary64.

(** *** The order of binary64 numbers, spelled out

    [PrimFloat.ltb] is specified by [SpecFloat.SFltb], a comparison of
    signs, exponents and mantissas; [sf_lt] is that order as a
    proposition. *)
Module Binary64Order.

Import SpecFloat.

Local Open Scope Z_scope.

(** Mantissas compared after exponents. *)
Definition lexlt (e1 : Z) (m1 : positive) (e2 : Z) (m2 : positive) : Prop :=
  e1 < e2 \/ (e1 = e2 /\ Zpos m1 < Zpos m2).

(** [a < b] on specified floats, spelled out. *)
Definition sf_lt (a b : spec_float) : Prop :=
  match a, b with
  | S754_nan, _ | _, S754_nan => False
  | S754_infinity s1, S754_infinity s2 => s1 = true /\ s2 = false
  | S754_infinity s, _ => s = true
  | _, S754_infinity s => s = false
  | S754_finite s _ _, S754_zero _ => s = true
  | S754_zero _, S754_finite s _ _ => s = false
  | S754_zero _, S754_zero _ => False
  | S754_finite s1 m1 e1, S754_finite s2 m2 e2 =>
      (s1 = true /\ s2 = false)
      \/ (s1 = false /\ s2 = false /\ lexlt e1 m1 e2 m2)
      \/ (s1 = true /\ s2 = true /\ lexlt e2 m2 e1 m1)
  end.

(** A float that is a zero or not a number. *)
Definition null (d : float) : Prop := d = 0%float \/ d = (-0)%float \/ d = nan.

End Binary64Order.


(** ** Real numbers

    The same interface over the real numbers: exact arithmetic, with the
    textbook modulus, quotient and two-argument arctangent. *)
Module Exact.

Local Open Scope R_scope.

Definition ltb (x y : R) : bool := if Rlt_dec x y then true else false.
Definition leb (x y : R) : bool := if Rle_dec x y then true else false.
Definition eqb (x y : R) : bool := if Req_dec_T x y then true else false.

Definition complex : Type := R * R.

Definition modulus (z : complex) : R := sqrt (fst z * fst z + snd z * snd z).

Definition quot (a b : complex) : complex :=
  let d := fst b * fst b + snd b * snd b in
  ((fst a * fst b + snd a * snd b) / d, (snd a * fst b - fst a * snd b) / d).

Definition atan2 (y x : R) : R :=
  if Rlt_dec 0 x then atan (y / x)
  else if Rlt_dec x 0 then
    if Rle_dec 0 y then atan (y / x) + PI else atan (y / x) - PI
  else if Rlt_dec 0 y then PI / 2
  else if Rlt_dec y 0 then - (PI / 2)
  else 0.

#[export] Instance num : PyNum := {|
  pyfloat := R;
  pycomplex := complex;
  creal := fst;
  cimag := snd;
  csub := fun z w => (fst z - fst w, snd z - snd w);
  cdiv := quot;
  cabs := modulus;
  ceqb := fun z w => eqb (fst z) (fst w) && eqb (snd z) (snd w);
  cbool := fun z => negb (eqb (fst z) 0) || negb (eqb (snd z) 0);
  of_int := IZR;
  fadd := Rplus;
  fmul := Rmult;
  fabs := Rabs;
  fltb := ltb;
  fleb := leb;
  lit_0_1 := 1 / 10;
  lit_0_3 := 3 / 10;
  math_pi := PI;
  math_atan2 := atan2
|}.

End Exact.

(** ** The vocabulary of the properties *)

Section Vocabulary.

Context {N : PyNum}.

(** *** Path decomposition *)

(** The sub-paths still to come when [cur] is the sub-path being filled,
    [prev] its last segment and [rest] the segments not yet scanned. *)
Fixpoint runs (cur : Path) (prev : Segment) (rest : list Segment)
  : list Path :=
  match rest with
  | [] => [cur]
  | element :: rest' =>
      if cneb (seg_start element) (seg_end prev)
      then cur :: runs [element] element rest'
      else runs (cur ++ [element]) element rest'
  end.

(** Every segment of [s] starts where the segment before it ([prev] for the
    first) ends. *)
Fixpoint chained (prev : Segment) (s : list Segment) : bool :=
  match s with
  | [] => true
  | element :: s' =>
      negb (cneb (seg_start element) (seg_end prev)) && chained element s'
  end.

(** A sub-path without a break: not empty, and chained from its first
    segment on. *)
Definition unbroken (s : Path) : bool :=
  match s with
  | [] => false
  | first :: s' => chained first s'
  end.

(** Each sub-path after the first starts at a break: its first segment does
    not start where the last segment of the sub-path before it ends. *)
Fixpoint separated (subpaths : list Path) : bool :=
  match subpaths with
  | s1 :: (s2 :: _) as rest =>
      match rev s1, s2 with
      | prev :: _, element :: _ => cneb (seg_start element) (seg_end prev)
      | _, _ => false
      end && separated rest
  | _ => true
  end.

(** *** Cusp detection *)

Definition zero_length (v : pycomplex) : bool := fleb (cabs v) (of_int 0).

(** The turning angle as the specification words it. *)
Definition turning_angle (tangent_in tangent_out : pycomplex) : pyfloat :=
  if zero_length tangent_in || zero_length tangent_out then of_int 0
  else
    let r := cdiv tangent_in tangent_out in
    math_atan2 (cimag r) (creal r).

(** The vertices of sub-path [i], each as a cusp candidate. *)
Definition vertices (paths : list Path) (i : nat) (path : Path)
  (cusps : list Cusp) : Prop :=
  Forall2 (fun j cusp => new_Cusp paths (i, j) = Ret cusp)
    (seq 0 (length path)) cusps.

Definition is_cusp (c : Cusp) : bool := fgtb (fabs (angle c)) MIN_CUSP_ANGLE.

(** A cusp of sub-path [i] of [paths]. *)
Definition cusp_of (paths0 : list Path) (i : nat) (path : Path) (c : Cusp)
  : Prop :=
  paths c = paths0 /\ fst (index c) = i /\ snd (index c) < length path.

(** *** Merging *)

Definition chord (s : Segment) : pyfloat :=
  cabs (csub (seg_end s) (seg_start s)).

(** The segments walked from vertex [j] forward to vertex [target] on a
    cyclic path of [n] segments: [j + 1], ..., [target]. *)
Definition between (n j target : nat) : list nat :=
  map (fun s => (j + s) mod n) (seq 1 ((target + n - j) mod n)).

(** The forward arc length from vertex [j] to vertex [target]: the sum of
    the chord lengths of the segments between them, added in path order
    onto [d]. *)
Definition arc_from (d : pyfloat) (path : Path) (j target : nat) : pyfloat :=
  fold_left (fun d k => fadd d (nth k (map chord path) (of_int 0)))
    (between (length path) j target) d.

Definition arc_length (path : Path) (j target : nat) : pyfloat :=
  arc_from (of_int 0) path j target.

(** [merger_run cusps j n out]: from index [j] on the list [cusps], the
    merger's loop makes [n] iterations and leaves [out]. *)
Inductive merger_run : list Cusp -> nat -> nat -> list Cusp -> Prop :=
| run_done cusps j :
    length cusps <= j -> merger_run cusps j 0 cusps
| run_step cusps j cusps' j' n out :
    j < length cusps ->
    merger_step cusps j = Ret (cusps', j') ->
    merger_run cusps' j' n out ->
    merger_run cusps j (S n) out.

(** *** Connecting *)

Definition fsign (x : pyfloat) : Z :=
  if fltb (of_int 0) x then 1%Z
  else if fltb x (of_int 0) then (-1)%Z
  else 0%Z.

(** The directional test as the specification words it, [tangent1] being the
    incoming tangent and [tangent2] the outgoing one. *)
Definition directional_test (a b : Cusp) (swapped : bool) : bool :=
  let diff := csub (point b) (point a) in
  let f0 := _get_angle (tangent1 a) diff in
  let f1 := _get_angle diff (if swapped then tangent1 b else tangent2 b) in
  let f2 := _get_angle diff (tangent2 a) in
  let f3 := _get_angle (if swapped then tangent2 b else tangent1 b) diff in
  (fsign f2 =? fsign f3)%Z
  && fltb (fabs f0) threshold_0_3_pi
  && fltb (fabs f1) threshold_0_3_pi
  && fgtb (fabs f2) threshold_0_3_pi
  && fgtb (fabs f3) threshold_0_3_pi.

(** The cusp [b] with its two tangents exchanged. *)
Definition swap_tangents (b : Cusp) : Cusp :=
  {| paths := paths b; index := index b; point := point b;
     tangent1 := tangent2 b; tangent2 := tangent1 b; angle := angle b |}.

(** The edges as pairs of vertex indices. *)
Definition edge_indices (e : Cusp * Cusp) : (nat * nat) * (nat * nat) :=
  (index (fst e), index (snd e)).

End Vocabulary.

(** *** Laws of the numbers

    What the properties below use of the arithmetic, in two groups.  The
    laws hold of the real numbers ([ExactLaws]), and those of the first
    group of the binary64 numbers as well ([Binary64Laws]).  They are kept
    to what IEEE arithmetic has: [cabs_sub_diag], for one, says that
    [abs (z - z)] is not positive, not that it is zero, since [z - z] is NaN
    for an infinite [z]. *)

(** Order and distances. *)
Class DistanceLaws (N : PyNum) : Prop := {
  fltb_trans : forall x y z : pyfloat,
    fltb x y = true -> fltb y z = true -> fltb x z = true;
  fltb_asym : forall x y : pyfloat, fltb x y = true -> fltb y x = false;
  fleb_not_gt : forall x y : pyfloat, fleb x y = true -> fltb y x = false;
  (* the two maxima are positive *)
  merge_distance_pos : fltb (of_int 0) (of_int 15) = true;
  crossing_distance_pos : fltb (of_int 0) (of_int 64) = true;
  (* equal points are at no positive distance *)
  ceqb_cabs : forall z w : pycomplex,
    ceqb z w = true -> fltb (of_int 0) (cabs (csub z w)) = false;
  cabs_sub_diag : forall z : pycomplex,
    fltb (of_int 0) (cabs (csub z z)) = false
}.

(** Zero vectors and signs of angles. *)
Class AngleLaws (N : PyNum) : Prop := {
  (* a complex number is false exactly when its modulus is (at most) zero *)
  cbool_cabs : forall z : pycomplex,
    cbool z = negb (fleb (cabs z) (of_int 0));
  (* two numbers beyond 0.3*pi in magnitude have a positive product exactly
     when they have the same sign *)
  fmul_sign : forall x y : pyfloat,
    fltb (fmul lit_0_3 math_pi) (fabs x) = true ->
    fltb (fmul lit_0_3 math_pi) (fabs y) = true ->
    fltb (of_int 0) (fmul x y) = (fsign x =? fsign y)%Z
}.

(** *** Closed paths, over the real numbers *)

(** The number of segments walked from vertex [j] forward to vertex [t] on a
    cyclic path of [n] segments. *)
Definition steps (n j t : nat) : nat := (t + n - j) mod n.

(** Indices in increasing order. *)
Fixpoint increasing (l : list nat) : Prop :=
  match l with
  | [] => True
  | x :: l' => Forall (lt x) l' /\ increasing l'
  end.

Module Closed.

Import Exact.

Local Open Scope R_scope.

(** The end and the start of segment [k]. *)
Definition vertex (path : @Path num) (k : nat) : complex :=
  match nth_error path k with
  | Some s => seg_end s
  | None => (0, 0)
  end.

Definition origin (path : @Path num) (k : nat) : complex :=
  match nth_error path k with
  | Some s => seg_start s
  | None => (0, 0)
  end.

(** Every segment starts where the segment before it ends, the first one
    where the last one ends. *)
Definition closed (path : @Path num) : Prop :=
  forall k, (k < length path)%nat ->
            origin path ((k + 1) mod length path) = vertex path k.

Definition real_arc (path : @Path num) (j t : nat) : R :=
  arc_length (N := num) path j t.

Definition idx (c : @Cusp num) : nat := snd (index c).

(** A cusp of sub-path [i] whose point is the vertex its index names. *)
Definition located (paths0 : list (@Path num)) (i : nat) (path : @Path num)
  (c : @Cusp num) : Prop :=
  cusp_of paths0 i path c /\ point c = vertex path (idx c).

(** The arc from [a] forward to [b] is too long for a merge. *)
Definition far (path : @Path num) (a b : @Cusp num) : Prop :=
  @MAX_CUSP_MERGE_DISTANCE num < real_arc path (idx a) (idx b).

(** Each cusp of the list is far from the next one. *)
Fixpoint linked (path : @Path num) (l : list (@Cusp num)) : Prop :=
  match l with
  | a :: (b :: _) as l' => far path a b /\ linked path l'
  | _ => True
  end.

(** ... and the last one from the first. *)
Definition cyclic_far (path : @Path num) (l : list (@Cusp num)) : Prop :=
  match l with
  | [] => False
  | first :: _ => linked path l /\ far path (last l first) first
  end.

(** The state of a scan at index [j]: located cusps in path order, each of
    the first [j] far from the next. *)
Definition scanning (paths0 : list (@Path num)) (i : nat)
  (path : @Path num) (l : list (@Cusp num)) (j : nat) : Prop :=
  Forall (located paths0 i path) l
  /\ increasing (map idx l)
  /\ linked path (firstn (S j) l).

(** What a scan leaves: located cusps, each far from the next one round the
    path, unless at most one cusp is left. *)
Definition scanned (paths0 : list (@Path num)) (i : nat)
  (path : @Path num) (out : list (@Cusp num)) : Prop :=
  Forall (located paths0 i path) out
  /\ (cyclic_far path out \/ (length out <= 1)%nat).

End Closed.

(** *** Counting edges *)

Section Counting.

Context {N : PyNum}.

(** The lines of [extras] drawn between the points [p] and [q], in either
    direction. *)
Definition strokes_between (p q : pycomplex) (extras : list Extra) : nat :=
  length
    (filter
       (fun e =>
          match e with
          | Stroke x y => (ceqb x p && ceqb y q) || (ceqb x q && ceqb y p)
          | Circle _ _ => false
          end)
       extras).

End Counting.

(** *** What the cusps of a glyph are made of *)

Section Provenance.

Context {N : PyNum}.

(** A cusp of sub-path [i]: it sits on the end point of the segment its
    index names, and its angle is the one between its two tangents. *)
Definition cusp_at (paths0 : list Path) (i : nat) (path : Path) (c : Cusp)
  : Prop :=
  paths c = paths0
  /\ fst (index c) = i
  /\ (exists segment, nth_error path (snd (index c)) = Some segment
                      /\ point c = seg_end segment)
  /\ angle c = _get_angle (tangent1 c) (tangent2 c).

(** A cusp put together from cusps of [l]: the vertex of one, the incoming
    tangent of one and the outgoing tangent of one. *)
Definition assembled (l : list Cusp) (c : Cusp) : Prop :=
  exists a b d,
    In a l /\ In b l /\ In d l
    /\ index c = index a /\ point c = point a
    /\ tangent1 c = tangent1 b
    /\ tangent2 c = tangent2 d.

Definition is_circle (e : Extra) : bool :=
  match e with Circle _ _ => true | Stroke _ _ => false end.

End Provenance.

(** *** Outlines seen through a change of segments *)

Section Moving.

Context {N : PyNum}.

(** The tangent with which a segment arrives at its end, and the one with
    which it leaves its start, as [_get_tangents] computes them. *)
Definition tangent_in (s : Segment) : pycomplex :=
  match s with
  | QuadraticBezier _ control e =>
      if cneb e control then csub e control
      else csub (seg_end s) (seg_start s)
  | _ => csub (seg_end s) (seg_start s)
  end.

Definition tangent_out (s : Segment) : pycomplex :=
  match s with
  | QuadraticBezier start control e =>
      if cneb control e then csub control start
      else csub (seg_end s) (seg_start s)
  | _ => csub (seg_end s) (seg_start s)
  end.

(** A segment after every point was moved by [move].  The radius of an arc
    is not a point and stays. *)
Definition move_segment (move : pycomplex -> pycomplex) (s : Segment)
  : Segment :=
  match s with
  | Line a b => Line (move a) (move b)
  | CubicBezier a c1 c2 b =>
      CubicBezier (move a) (move c1) (move c2) (move b)
  | QuadraticBezier a c b => QuadraticBezier (move a) (move c) (move b)
  | Arc a r rotation arc sweep b => Arc (move a) r rotation arc sweep (move b)
  end.

Definition move_extra (move : pycomplex -> pycomplex) (e : Extra) : Extra :=
  match e with
  | Circle c a => Circle (move c) a
  | Stroke p q => Stroke (move p) (move q)
  end.

(** A cubic curve or an arc replaced by the line between its end points. *)
Definition chord_of (s : Segment) : Segment :=
  match s with
  | CubicBezier a _ _ b => Line a b
  | Arc a _ _ _ _ b => Line a b
  | _ => s
  end.

(** A path with its segments changed by [change], and a cusp of an outline
    so changed, its point moved by [move]. *)
Definition change_path (change : Segment -> Segment) (path : Path) : Path :=
  map change path.

Definition change_cusp (change : Segment -> Segment)
  (move : pycomplex -> pycomplex) (c : Cusp) : Cusp :=
  {| paths := map (change_path change) (paths c); index := index c;
     point := move (point c); tangent1 := tangent1 c;
     tangent2 := tangent2 c; angle := angle c |}.

End Moving.

(** The outcome of a call with its value, if it has one, seen through
    [f]. *)
Definition res_map {A B : Type} (f : A -> B) (m : res A) : res B :=
  match m with
  | Ret a => Ret (f a)
  | Raise e => Raise e
  | OutOfFuel => OutOfFuel
  end.

(** *** Occurrences in a string *)

(** [sub] occurs in [s] at offset [k]. *)
Definition occurs_at (sub s : pystr) (k : nat) : Prop :=
  exists pre post, s = pre ++ sub ++ post /\ length pre = k.

Definition absent (sub s : pystr) : Prop := forall k, ~ occurs_at sub s k.

(** The first occurrence of [sub] in [s] is at offset [k]. *)
Definition first_at (sub s : pystr) (k : nat) : Prop :=
  occurs_at sub s k /\ forall k', k' < k -> ~ occurs_at sub s k'.

(** [c], then [d=] and a double quote. *)
Definition marker (c : ascii) : pystr := c :: str "d=" ++ [quote].

(** Newlines turned into spaces. *)
Definition unfold_lines (s : pystr) : pystr :=
  map (fun c => if Ascii.eqb c newline then space else c) s.

(** ** Example outlines *)

Module Examples.

Local Definition line := @Line Binary64.num.
Local Definition quadratic := @QuadraticBezier Binary64.num.

(** Two spikes facing each other, their tips 20 units apart:
    [M -50 -10 L 0 0 L -50 10 Z M 70 10 L 20 0 L 70 -10 Z]. *)
Definition facing_spikes : @Path Binary64.num :=
  [ line (-50, -10) (0, 0); line (0, 0) (-50, 10);
    line (-50, 10) (-50, -10);
    line (70, 10) (20, 0); line (20, 0) (70, -10);
    line (70, -10) (70, 10) ]%float.

(** A closed contour with two corners 10 units apart, joined by a line one
    way round and by two smoothly joined curves the other way round:
    [M 10 0 L 0 0 Q 0 20 5 20 Q 10 20 10 0]. *)
Definition pinched_loop : @Path Binary64.num :=
  [ line (10, 0) (0, 0);
    quadratic (0, 0) (0, 20) (5, 20);
    quadratic (5, 20) (10, 20) (10, 0) ]%float.

(** A square of side 100: [M 0 0 L 100 0 L 100 100 L 0 100 Z]. *)
Definition square : @Path Binary64.num :=
  [ line (0, 0) (100, 0); line (100, 0) (100, 100);
    line (100, 100) (0, 100); line (0, 100) (0, 0) ]%float.

Definition spike_paths : list (@Path Binary64.num) :=
  Eval vm_compute in
    match break_path facing_spikes with Ret ps => ps | _ => [] end.

Definition spike_cusps : list (@Cusp Binary64.num) :=
  Eval vm_compute in
    match get_cusps spike_paths with Ret cs => cs | _ => [] end.

(** The tips of the two spikes of [facing_spikes] as cusps, 20 units apart,
    and the corner at [(70, 10)], more than 70 units from the first tip. *)
Definition tip_a : @Cusp Binary64.num :=
  Eval vm_compute in
    @Build_Cusp Binary64.num spike_paths (0, 0)
      (0, 0)%float (50, 10)%float (-50, 10)%float
      (_get_angle (N := Binary64.num) (50, 10)%float (-50, 10)%float).

Definition tip_b : @Cusp Binary64.num :=
  Eval vm_compute in
    @Build_Cusp Binary64.num spike_paths (1, 0)
      (20, 0)%float (-50, -10)%float (50, -10)%float
      (_get_angle (N := Binary64.num) (-50, -10)%float (50, -10)%float).

Definition tip_far : @Cusp Binary64.num :=
  Eval vm_compute in
    @Build_Cusp Binary64.num spike_paths (1, 2)
      (70, 10)%float (0, 20)%float (-50, -10)%float
      (_get_angle (N := Binary64.num) (0, 20)%float (-50, -10)%float).

(** A single curve with a right-angle turn between its end and its start,
    [M 0 0 Q 0 1 1 1], and its vertex as a cusp. *)
Definition bend : @Path Binary64.num :=
  [ quadratic (0, 0) (0, 1) (1, 1) ]%float.

Definition bend_cusp : @Cusp Binary64.num :=
  @Build_Cusp Binary64.num [bend] (0, 0)
    (1, 1)%float (1, 0)%float (0, 1)%float (- (Binary64.pi / 2))%float.

(** The two corners of [pinched_loop] as cusps: the one at [(0, 0)], the end
    of segment 0, and the one at [(10, 0)], the end of segment 2.  Both turn
    by a right angle. *)
Definition pinched_a : @Cusp Binary64.num :=
  @Build_Cusp Binary64.num [pinched_loop] (0, 0)
    (0, 0)%float (-10, 0)%float (0, 20)%float (Binary64.pi / 2)%float.

Definition pinched_b : @Cusp Binary64.num :=
  @Build_Cusp Binary64.num [pinched_loop] (0, 2)
    (10, 0)%float (0, -20)%float (-10, 0)%float (Binary64.pi / 2)%float.

Definition pinched_cusps : list (@Cusp Binary64.num) :=
  [pinched_a; pinched_b].

(** Over the real numbers: a single curve that closes on itself with a
    right-angle corner, [M 0 0 Q 0 1 1 1], and cusps of two such curves. *)
Definition corner : @Path Exact.num :=
  [ @QuadraticBezier Exact.num (0, 0)%R (0, 1)%R (1, 1)%R ].

Definition cusp_a : @Cusp Exact.num :=
  @Build_Cusp Exact.num [corner; corner] (0, 0) (0, 0)%R (1, 0)%R (0, 1)%R
    (PI / 2)%R.

Definition cusp_b : @Cusp Exact.num :=
  @Build_Cusp Exact.num [corner; corner] (1, 0) (1, 0)%R (0, 1)%R (1, 0)%R
    (PI / 2)%R.

(** A square of side 100 over the real numbers. *)
Definition real_square : @Path Exact.num :=
  [ @Line Exact.num (0, 0)%R (100, 0)%R;
    @Line Exact.num (100, 0)%R (100, 100)%R;
    @Line Exact.num (100, 100)%R (0, 100)%R;
    @Line Exact.num (0, 100)%R (0, 0)%R ].

(** What the merger leaves of the two cusps of [pinched_loop]. *)
Definition pinched_merged : list (@Cusp Binary64.num) :=
  Eval vm_compute in
    match merger pinched_cusps with Ret out => out | _ => [] end.

(** The four corners of [square] as cusps. *)
Definition square_cusps : list (@Cusp Binary64.num) :=
  Eval vm_compute in
    match detect [square] 0 square with Ret cs => cs | _ => [] end.

(** The elements added to [facing_spikes]. *)
Definition spike_extras : list (@Extra Binary64.num) :=
  Eval vm_compute in
    match augment_glyph facing_spikes with Ret es => es | _ => [] end.

(** Two spikes whose tips touch at the origin:
    [M -50 -10 L 0 0 L -50 10 Z M 50 10 L 0 0 L 50 -10 Z]; their cusps, and
    of these the two tips. *)
Definition touching_spikes : list (@Path Binary64.num) :=
  [ [ line (-50, -10) (0, 0); line (0, 0) (-50, 10);
      line (-50, 10) (-50, -10) ];
    [ line (50, 10) (0, 0); line (0, 0) (50, -10);
      line (50, -10) (50, 10) ] ]%float.

Definition touching_cusps : list (@Cusp Binary64.num) :=
  Eval vm_compute in
    match get_cusps touching_spikes with Ret cs => cs | _ => [] end.

Definition touching_a : @Cusp Binary64.num :=
  Eval vm_compute in
    @Build_Cusp Binary64.num touching_spikes (0, 0)
      (0, 0)%float (50, 10)%float (-50, 10)%float
      (_get_angle (N := Binary64.num) (50, 10)%float (-50, 10)%float).

Definition touching_b : @Cusp Binary64.num :=
  Eval vm_compute in
    @Build_Cusp Binary64.num touching_spikes (1, 0)
      (0, 0)%float (-50, -10)%float (50, -10)%float
      (_get_angle (N := Binary64.num) (-50, -10)%float (50, -10)%float).

(** A triangle one side of which is drawn as a quadratic curve with its
    control point on its start point:
    [M 0 0 L 100 0 Q 100 0 100 100 L 0 0]; and its cusps. *)
Definition hooked : @Path Binary64.num :=
  [ line (0, 0) (100, 0); quadratic (100, 0) (100, 0) (100, 100);
    line (100, 100) (0, 0) ]%float.

Definition hooked_cusps : list (@Cusp Binary64.num) :=
  Eval vm_compute in
    match get_cusps [hooked] with Ret cs => cs | _ => [] end.

(** The contour of [pinched_loop] drawn from another vertex on,
    [M 0 0 Q 0 20 5 20 Q 10 20 10 0 L 0 0]: its two corners, the ends of
    segments 1 and 2, are now next to each other in path order. *)
Definition teardrop : @Path Binary64.num :=
  [ quadratic (0, 0) (0, 20) (5, 20);
    quadratic (5, 20) (10, 20) (10, 0);
    line (10, 0) (0, 0) ]%float.

Definition teardrop_a : @Cusp Binary64.num :=
  Eval vm_compute in
    @Build_Cusp Binary64.num [teardrop] (0, 1)
      (10, 0)%float (0, -20)%float (-10, 0)%float
      (_get_angle (N := Binary64.num) (0, -20)%float (-10, 0)%float).

Definition teardrop_b : @Cusp Binary64.num :=
  Eval vm_compute in
    @Build_Cusp Binary64.num [teardrop] (0, 2)
      (0, 0)%float (-10, 0)%float (0, 20)%float
      (_get_angle (N := Binary64.num) (-10, 0)%float (0, 20)%float).

(** What merging [teardrop_a] into [teardrop_b] leaves. *)
Definition teardrop_merged : @Cusp Binary64.num :=
  Eval vm_compute in
    match merge teardrop_a teardrop_b with
    | Ret (_, c) => c
    | _ => teardrop_b
    end.

(** Over the real numbers: every point moved by [(3, 4)]. *)
Definition shifted (z : Exact.complex) : Exact.complex :=
  (fst z + 3, snd z + 4)%R.

(** A glyph with two [d=] attributes, the first after a space, the second
    after a newline and with a newline in its text. *)
Definition glyph_head : pystr :=
  str "<glyph d=" ++ quote :: str "M 0 0" ++ [quote].

Definition glyph_body : pystr := str "M 1 1" ++ newline :: str "L 2 2".

Definition glyph_text : pystr :=
  glyph_head ++ marker newline ++ glyph_body ++ quote :: str "/>".

(** A font file with two glyphs. *)
Definition first_glyph : pystr :=
  str "<glyph unicode=" ++ quote :: str "&#x41;" ++ quote
  :: str " d=" ++ quote :: str "M 0 0" ++ quote :: str "/>".

Definition second_glyph : pystr :=
  str "<glyph unicode=" ++ quote :: str "&#x4e00;" ++ quote
  :: str " d=" ++ quote :: str "M 1 1" ++ quote :: str "/>".

Definition font_file : pystr :=
  str "<font>" ++ first_glyph ++ second_glyph ++ str "</font>".

End Examples.

(** * Properties *)

(** ** Outcomes and lists *)

Section Basics.

Context {A : Type}.

Lemma getlast_snoc (l : list A) (a : A) : getlast (l ++ [a]) = Ret a.
Proof. unfold getlast. now rewrite rev_unit. Qed.


Lemma getitem_lt (l : list A) (i : nat) :
  i < length l -> exists a, getitem l i = Ret a /\ nth_error l i = Some a.
Proof.
  intros H. apply nth_error_Some in H. unfold getitem.
  destruct (nth_error l i) as [a|]; [now exists a | congruence].
Qed.

Lemma setitem_length (i : nat) (a : A) (l : list A) :
  length (setitem i a l) = length l.
Proof.
  revert i. induction l as [|x l IH]; intros [|i]; simpl; auto.
Qed.

Lemma setitem_same (i : nat) (a : A) (l : list A) :
  nth_error l i = Some a -> setitem i a l = l.
Proof.
  revert i. induction l as [|x l IH]; intros [|i]; simpl; intros H;
    try discriminate; try reflexivity.
  - now inversion H.
  - now rewrite IH.
Qed.

End Basics.

(** ** The path decomposer *)

Section Decomposer.

Context {N : PyNum}.

Lemma break_loop_runs (rest : list Segment) :
  forall (done : list Path) (cur : Path) (prev : Segment),
    break_loop rest (done ++ [cur ++ [prev]])
    = Ret (done ++ runs (cur ++ [prev]) prev rest).
Proof.
  induction rest as [|element rest IH]; intros done cur prev; simpl.
  - reflexivity.
  - rewrite getlast_snoc; simpl. rewrite getlast_snoc; simpl.
    destruct (cneb (seg_start element) (seg_end prev)).
    + rewrite getlast_snoc; simpl. rewrite removelast_last.
      etransitivity; [apply (IH (done ++ [cur ++ [prev]]) [] element)|].
      simpl. now rewrite <- app_assoc.
    + rewrite getlast_snoc; simpl. rewrite removelast_last.
      apply (IH done (cur ++ [prev]) element).
Qed.

Lemma runs_concat (rest : list Segment) :
  forall (cur : Path) (prev : Segment),
    concat (runs cur prev rest) = cur ++ rest.
Proof.
  induction rest as [|element rest IH]; intros cur prev; simpl.
  - reflexivity.
  - destruct (cneb (seg_start element) (seg_end prev)); simpl.
    + now rewrite IH.
    + rewrite IH. now rewrite <- app_assoc.
Qed.

Lemma runs_head (rest : list Segment) :
  forall (cur : Path) (prev : Segment),
    exists more others, runs cur prev rest = (cur ++ more) :: others.
Proof.
  induction rest as [|element rest IH]; intros cur prev; simpl.
  - exists [], []. now rewrite app_nil_r.
  - destruct (cneb (seg_start element) (seg_end prev)).
    + exists [], (runs [element] element rest). now rewrite app_nil_r.
    + destruct (IH (cur ++ [element]) element) as (more & others & E).
      exists (element :: more), others. rewrite E. now rewrite <- app_assoc.
Qed.

Lemma chained_snoc (element prev : Segment) (pre : list Segment) :
  forall first,
    chained first (pre ++ [prev]) = true ->
    cneb (seg_start element) (seg_end prev) = false ->
    chained first ((pre ++ [prev]) ++ [element]) = true.
Proof.
  induction pre as [|x pre IH]; intros first H E; simpl in *.
  - rewrite E. simpl. now rewrite andb_true_r in H |- *.
  - apply andb_true_iff in H as [H1 H2]. rewrite H1. simpl. now apply IH.
Qed.

Lemma unbroken_snoc (element prev : Segment) (pre : list Segment) :
  unbroken (pre ++ [prev]) = true ->
  cneb (seg_start element) (seg_end prev) = false ->
  unbroken ((pre ++ [prev]) ++ [element]) = true.
Proof.
  destruct pre as [|first pre]; simpl; intros H E.
  - now rewrite E.
  - now apply chained_snoc.
Qed.

Lemma runs_unbroken (rest : list Segment) :
  forall (pre : list Segment) (prev : Segment),
    unbroken (pre ++ [prev]) = true ->
    forallb unbroken (runs (pre ++ [prev]) prev rest) = true.
Proof.
  induction rest as [|element rest IH]; intros pre prev H; simpl.
  - now rewrite H.
  - destruct (cneb (seg_start element) (seg_end prev)) eqn:E; simpl.
    + rewrite H. simpl. now apply (IH [] element).
    + apply (IH (pre ++ [prev]) element). now apply unbroken_snoc.
Qed.

Lemma runs_separated (rest : list Segment) :
  forall (pre : list Segment) (prev : Segment),
    separated (runs (pre ++ [prev]) prev rest) = true.
Proof.
  induction rest as [|element rest IH]; intros pre prev.
  - reflexivity.
  - simpl runs. destruct (cneb (seg_start element) (seg_end prev)) eqn:E.
    + pose proof (IH [] element) as S. simpl in S.
      destruct (runs_head rest [element] element) as (more & others & R).
      rewrite R in S |- *. simpl separated. rewrite rev_unit. simpl.
      rewrite E. simpl. exact S.
    + apply (IH (pre ++ [prev]) element).
Qed.

(** C7: on a path that is not empty the decomposer returns a partition of
    it.  The sub-paths, concatenated in order, are the segments of the path;
    no sub-path is empty or has a break inside (a segment that does not start
    where the segment before it ends), and each sub-path after the first
    starts at a break: a new sub-path starts exactly at the breaks. *)
Theorem break_path_partition (first : Segment) (rest : list Segment) :
  exists subpaths : list Path,
    break_path (first :: rest) = Ret subpaths
    /\ concat subpaths = first :: rest
    /\ forallb unbroken subpaths = true
    /\ separated subpaths = true.
Proof.
  exists (runs [first] first rest). repeat split.
  - apply (break_loop_runs rest [] [] first).
  - apply runs_concat.
  - now apply (runs_unbroken rest [] first).
  - apply (runs_separated rest [] first).
Qed.

End Decomposer.

(** ** The cusp detector *)

Section Detector.

Context {N : PyNum}.

Lemma pymod_Ret (a b : nat) : 0 < b -> pymod a b = Ret (a mod b).
Proof. destruct b; [lia | reflexivity]. Qed.

Lemma get_tangents_Ret (path : Path) (j : nat) :
  j < length path -> exists t, _get_tangents path j = Ret t.
Proof.
  intros H. unfold _get_tangents.
  destruct (getitem_lt path j H) as (s1 & -> & _). simpl.
  rewrite pymod_Ret by lia. simpl.
  assert (K : (j + 1) mod length path < length path)
    by (apply Nat.mod_upper_bound; lia).
  destruct (getitem_lt path _ K) as (s2 & -> & _). simpl. eauto.
Qed.

(** Every vertex of a sub-path of [paths] makes a cusp candidate. *)
Lemma new_Cusp_Ret (paths0 : list Path) (i j : nat) (path : Path) :
  nth_error paths0 i = Some path -> j < length path ->
  exists c, new_Cusp paths0 (i, j) = Ret c
            /\ cusp_of paths0 i path c
            /\ index c = (i, j)
            /\ angle c = _get_angle (tangent1 c) (tangent2 c).
Proof.
  intros P J. unfold new_Cusp, getitem at 1. rewrite P. simpl.
  destruct (getitem_lt path j J) as (s & -> & _). simpl.
  destruct (get_tangents_Ret path j J) as ([t1 t2] & ->). simpl.
  eexists. split; [reflexivity|]. unfold cusp_of. simpl. auto.
Qed.

Lemma vertices_exist (paths0 : list Path) (i : nat) (path : Path) :
  nth_error paths0 i = Some path ->
  exists vs, vertices paths0 i path vs
             /\ Forall (cusp_of paths0 i path) vs
             /\ map (@index N) vs = map (pair i) (seq 0 (length path))
             /\ Forall (fun c => angle c = _get_angle (tangent1 c) (tangent2 c))
                  vs.
Proof.
  intros P. unfold vertices.
  assert (K : forall js, Forall (fun j => j < length path) js ->
    exists vs, Forall2 (fun j c => new_Cusp paths0 (i, j) = Ret c) js vs
               /\ Forall (cusp_of paths0 i path) vs
               /\ map (@index N) vs = map (pair i) js
               /\ Forall (fun c => angle c
                                   = _get_angle (tangent1 c) (tangent2 c)) vs).
  { induction js as [|j js IH]; intros F.
    - exists []. repeat split; constructor.
    - inversion F as [|? ? J F']; subst.
      destruct (IH F') as (vs & V & W & I & G).
      destruct (new_Cusp_Ret paths0 i j path P J) as (c & C & Wc & Ic & Gc).
      exists (c :: vs). repeat split; try (constructor; assumption).
      simpl. now rewrite Ic, I. }
  apply K. apply Forall_forall. intros j H. apply in_seq in H. lia.
Qed.

Lemma detect_loop_filter (paths0 : list Path) (i : nat) (js : list nat)
  (vs : list Cusp) :
  Forall2 (fun j c => new_Cusp paths0 (i, j) = Ret c) js vs ->
  forall acc, detect_loop paths0 i js acc = Ret (acc ++ filter is_cusp vs).
Proof.
  induction 1 as [|j c js vs C _ IH]; intros acc; cbn [detect_loop filter].
  - now rewrite app_nil_r.
  - rewrite C. cbn [bind]. rewrite IH. unfold is_cusp at 2.
    destruct (fgtb (fabs (angle c)) MIN_CUSP_ANGLE); [|reflexivity].
    now rewrite <- app_assoc.
Qed.

Lemma detect_filter (paths0 : list Path) (i : nat) (path : Path)
  (vs : list Cusp) :
  vertices paths0 i path vs -> detect paths0 i path = Ret (filter is_cusp vs).
Proof. intros V. apply (detect_loop_filter paths0 i _ vs V []). Qed.

(** The cusps the detector returns are cusps of the sub-path, at distinct
    vertices. *)
Lemma detect_cusp_of (paths0 : list Path) (i : nat) (path : Path)
  (cusps : list Cusp) :
  nth_error paths0 i = Some path ->
  detect paths0 i path = Ret cusps ->
  Forall (cusp_of paths0 i path) cusps /\ NoDup (map (@index N) cusps).
Proof.
  intros P D. destruct (vertices_exist paths0 i path P) as (vs & V & W & I & _).
  rewrite (detect_filter paths0 i path vs V) in D. inversion D; subst. split.
  - apply Forall_forall. intros c H. apply filter_In in H as [H _].
    revert c H. now apply Forall_forall.
  - assert (ND : NoDup (map (@index N) vs)).
    { rewrite I. apply NoDup_map_inv with (f := snd).
      rewrite map_map. simpl. rewrite map_id. apply seq_NoDup. }
    clear - ND. induction vs as [|c vs IH]; simpl in *; [constructor|].
    inversion ND as [|? ? X Y]; subst.
    destruct (is_cusp c); simpl; auto. constructor; auto.
    intros H. apply X. apply in_map_iff in H as (c' & E & H).
    apply filter_In in H as [H _]. apply in_map_iff. eauto.
Qed.

Lemma get_angle_turning_angle {A : AngleLaws N} (v1 v2 : pycomplex) :
  _get_angle v1 v2 = turning_angle v1 v2.
Proof.
  unfold _get_angle, turning_angle, zero_length.
  now rewrite !cbool_cabs, !negb_involutive.
Qed.


End Detector.

(** ** Exact arithmetic satisfies the laws *)

Module ExactLaws.

Import Exact.
Local Open Scope R_scope.

Lemma ltb_true (x y : R) : ltb x y = true <-> x < y.
Proof. unfold ltb. destruct (Rlt_dec x y); split; intros; try discriminate; tauto. Qed.

Lemma ltb_false (x y : R) : ltb x y = false <-> y <= x.
Proof.
  unfold ltb. destruct (Rlt_dec x y); split; intros; try discriminate;
    try reflexivity; lra.
Qed.

Lemma leb_true (x y : R) : leb x y = true <-> x <= y.
Proof. unfold leb. destruct (Rle_dec x y); split; intros; try discriminate; tauto. Qed.

Lemma leb_false (x y : R) : leb x y = false <-> y < x.
Proof.
  unfold leb. destruct (Rle_dec x y); split; intros; try discriminate;
    try reflexivity; lra.
Qed.

Lemma eqb_true (x y : R) : eqb x y = true <-> x = y.
Proof. unfold eqb. destruct (Req_dec_T x y); split; intros; try discriminate; tauto. Qed.

Lemma eqb_false (x y : R) : eqb x y = false <-> x <> y.
Proof.
  unfold eqb. destruct (Req_dec_T x y); split; intros; try discriminate;
    try reflexivity; tauto.
Qed.

Lemma modulus_zero : modulus (0, 0) = 0.
Proof.
  unfold modulus. simpl. replace (0 * 0 + 0 * 0) with 0 by ring. apply sqrt_0.
Qed.

Lemma modulus_nonneg (z : complex) : 0 <= modulus z.
Proof. apply sqrt_pos. Qed.

Lemma modulus_eq_0 (z : complex) : modulus z = 0 -> fst z = 0 /\ snd z = 0.
Proof.
  unfold modulus. intros H. apply sqrt_eq_0 in H; nra.
Qed.

Lemma modulus_sub_diag (z : complex) :
  modulus (fst z - fst z, snd z - snd z) = 0.
Proof.
  replace (fst z - fst z) with 0 by ring.
  replace (snd z - snd z) with 0 by ring. apply modulus_zero.
Qed.

Lemma PI_pos : 0 < PI.
Proof. apply PI_RGT_0. Qed.

#[export] Instance distance_laws : DistanceLaws num.
Proof.
  constructor; cbn [pyfloat pycomplex fltb fleb of_int cabs csub ceqb num].
  - intros x y z H1 H2. apply ltb_true in H1, H2. apply ltb_true. lra.
  - intros x y H. apply ltb_true in H. apply ltb_false. lra.
  - intros x y H. apply leb_true in H. apply ltb_false. lra.
  - apply ltb_true. lra.
  - apply ltb_true. lra.
  - intros z w H. apply andb_true_iff in H as [H1 H2].
    apply eqb_true in H1, H2. apply ltb_false. rewrite H1, H2.
    rewrite (modulus_sub_diag w). lra.
  - intros z. apply ltb_false. rewrite modulus_sub_diag. lra.
Qed.

#[export] Instance angle_laws : AngleLaws num.
Proof.
  constructor; cbn [pyfloat pycomplex fltb fleb of_int cabs cbool
                    fabs fmul lit_0_3 math_pi num].
  - intros [x y]. simpl. destruct (leb (modulus (x, y)) 0) eqn:E; simpl.
    + apply leb_true in E. pose proof (modulus_nonneg (x, y)) as P.
      assert (Z0 : modulus (x, y) = 0) by lra.
      apply modulus_eq_0 in Z0 as [Zx Zy]. simpl in Zx, Zy. subst.
      now rewrite (proj2 (eqb_true 0 0) eq_refl).
    + apply leb_false in E.
      destruct (eqb x 0) eqn:X, (eqb y 0) eqn:Y; simpl; try reflexivity.
      apply eqb_true in X, Y. subst. rewrite modulus_zero in E. lra.
  - intros x y Hx Hy. apply ltb_true in Hx, Hy.
    pose proof PI_pos as P. unfold fsign. cbn [fltb of_int num].
    assert (Tx : 0 < Rabs x) by nra. assert (Ty : 0 < Rabs y) by nra.
    clear Hx Hy.
    destruct (Rcase_abs x) as [X|X]; destruct (Rcase_abs y) as [Y|Y].
    + rewrite (proj2 (ltb_false 0 x)) by lra.
      rewrite (proj2 (ltb_true x 0)) by lra.
      rewrite (proj2 (ltb_false 0 y)) by lra.
      rewrite (proj2 (ltb_true y 0)) by lra.
      apply ltb_true. nra.
    + assert (0 < y) by (rewrite (Rabs_right y) in Ty; lra).
      rewrite (proj2 (ltb_false 0 x)) by lra.
      rewrite (proj2 (ltb_true x 0)) by lra.
      rewrite (proj2 (ltb_true 0 y)) by lra.
      apply ltb_false. nra.
    + assert (0 < x) by (rewrite (Rabs_right x) in Tx; lra).
      rewrite (proj2 (ltb_true 0 x)) by lra.
      rewrite (proj2 (ltb_false 0 y)) by lra.
      rewrite (proj2 (ltb_true y 0)) by lra.
      apply ltb_false. nra.
    + assert (0 < x) by (rewrite (Rabs_right x) in Tx; lra).
      assert (0 < y) by (rewrite (Rabs_right y) in Ty; lra).
      rewrite (proj2 (ltb_true 0 x)) by lra.
      rewrite (proj2 (ltb_true 0 y)) by lra.
      apply ltb_true. nra.
Qed.

End ExactLaws.

(** ** Binary64 arithmetic satisfies the laws of order and distances *)

Module Binary64Laws.

Import SpecFloat Binary64 Binary64Order.

Local Open Scope Z_scope.

Lemma lex_Lt (e1 e2 : Z) (m1 m2 : positive) :
  match e1 ?= e2 with
  | Lt => Lt
  | Gt => Gt
  | Eq => Pos.compare_cont Eq m1 m2
  end = Lt
  <-> lexlt e1 m1 e2 m2.
Proof.
  unfold lexlt. change (Pos.compare_cont Eq m1 m2) with (Pos.compare m1 m2).
  destruct (Z.compare_spec e1 e2); destruct (Pos.compare_spec m1 m2);
    split; intros K; try discriminate; try reflexivity; try lia.
Qed.

Lemma lex_Gt (e1 e2 : Z) (m1 m2 : positive) :
  match e1 ?= e2 with
  | Lt => Lt
  | Gt => Gt
  | Eq => Pos.compare_cont Eq m1 m2
  end = Gt
  <-> lexlt e2 m2 e1 m1.
Proof.
  unfold lexlt. change (Pos.compare_cont Eq m1 m2) with (Pos.compare m1 m2).
  destruct (Z.compare_spec e1 e2); destruct (Pos.compare_spec m1 m2);
    split; intros K; try discriminate; try reflexivity; try lia.
Qed.

Lemma lex_Eq (e1 e2 : Z) (m1 m2 : positive) :
  match e1 ?= e2 with
  | Lt => Lt
  | Gt => Gt
  | Eq => Pos.compare_cont Eq m1 m2
  end = Eq
  <-> e1 = e2 /\ m1 = m2.
Proof.
  change (Pos.compare_cont Eq m1 m2) with (Pos.compare m1 m2).
  destruct (Z.compare_spec e1 e2); destruct (Pos.compare_spec m1 m2);
    split; intros K; try discriminate; try reflexivity; try tauto;
    try (destruct K; subst; lia).
Qed.

Lemma lex_opp_Lt (e1 e2 : Z) (m1 m2 : positive) :
  match e1 ?= e2 with
  | Lt => Gt
  | Gt => Lt
  | Eq => CompOpp (Pos.compare_cont Eq m1 m2)
  end = Lt
  <-> lexlt e2 m2 e1 m1.
Proof.
  unfold lexlt. change (Pos.compare_cont Eq m1 m2) with (Pos.compare m1 m2).
  destruct (Z.compare_spec e1 e2); destruct (Pos.compare_spec m1 m2);
    split; simpl; intros K; try discriminate; try reflexivity; try lia.
Qed.

Lemma lex_opp_Gt (e1 e2 : Z) (m1 m2 : positive) :
  match e1 ?= e2 with
  | Lt => Gt
  | Gt => Lt
  | Eq => CompOpp (Pos.compare_cont Eq m1 m2)
  end = Gt
  <-> lexlt e1 m1 e2 m2.
Proof.
  unfold lexlt. change (Pos.compare_cont Eq m1 m2) with (Pos.compare m1 m2).
  destruct (Z.compare_spec e1 e2); destruct (Pos.compare_spec m1 m2);
    split; simpl; intros K; try discriminate; try reflexivity; try lia.
Qed.

Lemma lex_opp_Eq (e1 e2 : Z) (m1 m2 : positive) :
  match e1 ?= e2 with
  | Lt => Gt
  | Gt => Lt
  | Eq => CompOpp (Pos.compare_cont Eq m1 m2)
  end = Eq
  <-> e1 = e2 /\ m1 = m2.
Proof.
  change (Pos.compare_cont Eq m1 m2) with (Pos.compare m1 m2).
  destruct (Z.compare_spec e1 e2); destruct (Pos.compare_spec m1 m2);
    split; simpl; intros K; try discriminate; try reflexivity; try tauto;
    try (destruct K; subst; lia).
Qed.

Lemma is_Lt (c : comparison) :
  match c with Lt => true | _ => false end = true <-> c = Lt.
Proof. destruct c; split; intros K; try discriminate; reflexivity. Qed.

Lemma SFltb_lt (a b : spec_float) : SFltb a b = true <-> sf_lt a b.
Proof.
  unfold SFltb, SFcompare, sf_lt.
  destruct a as [sa|sa| |sa ma ea], b as [sb|sb| |sb mb eb];
    try destruct sa; try destruct sb; cbv beta iota;
    try rewrite is_Lt; try rewrite lex_Lt; try rewrite lex_opp_Lt;
    split; intros K; try discriminate; try reflexivity; try tauto;
    try (destruct K; discriminate);
    try (destruct K as [[K1 K2]|[(K1 & K2 & K3)|(K1 & K2 & K3)]];
         try discriminate; assumption).
Qed.

Lemma sf_lt_trans (a b c : spec_float) : sf_lt a b -> sf_lt b c -> sf_lt a c.
Proof.
  unfold sf_lt, lexlt.
  destruct a as [sa|sa| |sa ma ea], b as [sb|sb| |sb mb eb],
    c as [sc|sc| |sc mc ec]; intros H1 H2; try tauto; try congruence;
    try solve [intuition congruence];
    try solve [intuition (subst; try discriminate; lia)].
Qed.

Lemma sf_lt_asym (a b : spec_float) : sf_lt a b -> sf_lt b a -> False.
Proof.
  unfold sf_lt, lexlt.
  destruct a as [sa|sa| |sa ma ea], b as [sb|sb| |sb mb eb];
    intros H1 H2; try tauto; try congruence;
    try solve [intuition congruence];
    try solve [intuition (subst; try discriminate; lia)].
Qed.

Lemma SFleb_not_gt (a b : spec_float) : SFleb a b = true -> sf_lt b a -> False.
Proof.
  unfold SFleb, SFcompare, sf_lt.
  destruct a as [sa|sa| |sa ma ea], b as [sb|sb| |sb mb eb];
    try destruct sa; try destruct sb; cbv beta iota; intros H K;
    try discriminate; try tauto; try (destruct K; discriminate);
    destruct K as [[K1 K2]|[(K1 & K2 & K3)|(K1 & K2 & K3)]];
    try discriminate.
  - apply lex_opp_Gt in K3. rewrite K3 in H. discriminate.
  - apply lex_Gt in K3. rewrite K3 in H. discriminate.
Qed.

Lemma ltb_false_iff (x y : float) :
  (x <? y)%float = false <-> ~ sf_lt (Prim2SF x) (Prim2SF y).
Proof.
  rewrite ltb_spec, <- SFltb_lt.
  destruct (SFltb (Prim2SF x) (Prim2SF y)); split; intros H;
    try discriminate; try reflexivity; try tauto;
    try (elim H; reflexivity).
Qed.

Lemma ltb_true_iff (x y : float) :
  (x <? y)%float = true <-> sf_lt (Prim2SF x) (Prim2SF y).
Proof. now rewrite ltb_spec, SFltb_lt. Qed.

(** *** Differences of equal numbers *)

Lemma null_of_spec (d : float) :
  Prim2SF d = S754_zero false \/ Prim2SF d = S754_zero true
  \/ Prim2SF d = S754_nan ->
  null d.
Proof.
  intros H. rewrite <- (SF2Prim_Prim2SF d).
  destruct H as [-> |[-> | ->]]; unfold null; simpl; auto.
Qed.

Lemma normalize_diag (x e : Z) :
  binary_normalize prec emax (IntDef.Z.sub x x) e false = S754_zero false.
Proof.
  replace (IntDef.Z.sub x x) with 0 by (symmetry; apply Z.sub_diag).
  reflexivity.
Qed.

Lemma SFsub_equal (a b : spec_float) :
  SFeqb a b = true ->
  SF64sub a b = S754_zero false \/ SF64sub a b = S754_zero true
  \/ SF64sub a b = S754_nan.
Proof.
  unfold SFeqb, SFcompare, SF64sub, SFsub.
  destruct a as [sa|sa| |sa ma ea], b as [sb|sb| |sb mb eb];
    try destruct sa; try destruct sb; cbv beta iota; intros H;
    try discriminate; auto.
  - assert (E : ea = eb /\ ma = mb).
    { apply lex_opp_Eq.
      destruct (match ea ?= eb with Lt => Gt | Gt => Lt
                | Eq => CompOpp (Pos.compare_cont Eq ma mb) end);
        [reflexivity | discriminate | discriminate]. }
    destruct E as [-> ->]. left. apply normalize_diag.
  - assert (E : ea = eb /\ ma = mb).
    { apply lex_Eq.
      destruct (match ea ?= eb with Lt => Lt | Gt => Gt
                | Eq => Pos.compare_cont Eq ma mb end);
        [reflexivity | discriminate | discriminate]. }
    destruct E as [-> ->]. left. apply normalize_diag.
Qed.

Lemma sub_equal (x y : float) :
  (x =? y)%float = true -> null (x - y)%float.
Proof.
  rewrite eqb_spec. intros H. apply null_of_spec. rewrite sub_spec.
  now apply SFsub_equal.
Qed.

Lemma SFsub_diag (a : spec_float) :
  SF64sub a a = S754_zero false \/ SF64sub a a = S754_zero true
  \/ SF64sub a a = S754_nan.
Proof.
  destruct a as [s|s| |s m e].
  - left. now destruct s.
  - right. right. now destruct s.
  - right. right. reflexivity.
  - apply SFsub_equal. unfold SFeqb, SFcompare.
    destruct s; rewrite Z.compare_refl;
      change (Pos.compare_cont Eq m m) with (Pos.compare m m);
      now rewrite Pos.compare_refl.
Qed.

Lemma sub_diag (x : float) : null (x - x)%float.
Proof. apply null_of_spec. rewrite sub_spec. apply SFsub_diag. Qed.

(** Two such differences span no positive distance. *)
Lemma hypot_null (d1 d2 : float) :
  null d1 -> null d2 -> (0 <? hypot (d1, d2))%float = false.
Proof.
  intros [-> |[-> | ->]] [-> |[-> | ->]]; vm_compute; reflexivity.
Qed.

#[export] Instance distance_laws : DistanceLaws num.
Proof.
  constructor; cbn [pyfloat pycomplex fltb fleb of_int cabs csub ceqb num].
  - intros x y z. rewrite !ltb_true_iff. apply sf_lt_trans.
  - intros x y H. apply ltb_true_iff in H. apply ltb_false_iff.
    intros K. exact (sf_lt_asym _ _ H K).
  - intros x y H. rewrite leb_spec in H. apply ltb_false_iff.
    intros K. exact (SFleb_not_gt _ _ H K).
  - vm_compute. reflexivity.
  - vm_compute. reflexivity.
  - intros z w H. apply andb_true_iff in H as [H1 H2].
    apply hypot_null; now apply sub_equal.
  - intros z. apply hypot_null; apply sub_diag.
Qed.

End Binary64Laws.

(** ** The connector *)

Section Connector.

Context {N : PyNum}.

Lemma index_eqb_eq (a b : nat * nat) : index_eqb a b = true <-> a = b.
Proof.
  destruct a as [a1 a2], b as [b1 b2]. unfold index_eqb. simpl.
  rewrite andb_true_iff, !Nat.eqb_eq. split.
  - now intros [-> ->].
  - intros E. now inversion E.
Qed.

Lemma index_eqb_neq (a b : nat * nat) : index_eqb a b = false <-> a <> b.
Proof.
  rewrite <- index_eqb_eq. destruct (index_eqb a b); split; congruence.
Qed.

(** C6: for cusps [a] and [b] at different vertices, [connect a b] is the
    forward directional test when the two lie on the same sub-path, and the
    forward test or the test with the tangents of [b] exchanged when they lie
    on different sub-paths; the exchanged test is the forward test against
    [b] with its two tangents swapped, the tangents of [a] staying as they
    are. *)
Theorem connect_orientations (a b : Cusp) (D : index a <> index b) :
  (fst (index a) = fst (index b) -> connect a b = _try_connect a b false)
  /\ (fst (index a) <> fst (index b) ->
      connect a b = _try_connect a b false || _try_connect a b true)
  /\ _try_connect a b true = _try_connect a (swap_tangents b) false.
Proof.
  assert (E : index_eqb (index b) (index a) = false)
    by (apply index_eqb_neq; congruence).
  unfold connect. rewrite E. repeat split.
  - intros S. now rewrite S, Nat.eqb_refl.
  - intros S. assert (X : (fst (index b) =? fst (index a)) = false)
      by (apply Nat.eqb_neq; congruence).
    now rewrite X.
Qed.

Lemma try_connect_close {L : DistanceLaws N} (a b : Cusp) (reverse : bool) :
  _try_connect a b reverse = true ->
  fgtb (cabs (csub (point b) (point a))) MAX_CROSSING_DISTANCE = false.
Proof.
  unfold _try_connect, fgtb.
  destruct (ceqb (point b) (point a)) eqn:E.
  - intros _. apply ceqb_cabs in E.
    destruct (fltb MAX_CROSSING_DISTANCE (cabs (csub (point b) (point a))))
      eqn:F; [|reflexivity].
    rewrite <- E. symmetry.
    apply fltb_trans with (y := MAX_CROSSING_DISTANCE); [|exact F].
    exact crossing_distance_pos.
  - destruct (fltb MAX_CROSSING_DISTANCE (cabs (csub (point b) (point a))));
      [discriminate | reflexivity].
Qed.

Lemma connect_close {L : DistanceLaws N} (a b : Cusp) :
  connect a b = true ->
  index a <> index b
  /\ fgtb (cabs (csub (point b) (point a))) MAX_CROSSING_DISTANCE = false.
Proof.
  unfold connect. destruct (index_eqb (index b) (index a)) eqn:E;
    [discriminate|]. apply index_eqb_neq in E.
  intros H. split; [congruence|].
  destruct (fst (index b) =? fst (index a)).
  - now apply try_connect_close with (reverse := false).
  - apply orb_true_iff in H as [H|H];
      [now apply try_connect_close with (reverse := false)
      |now apply try_connect_close with (reverse := true)].
Qed.

(** The two loops of the connector visit every ordered pair of cusps once. *)
Lemma connector_flat_map (cusps : list Cusp) :
  connector cusps
  = flat_map (fun a => map (pair a) (filter (connect a) cusps)) cusps.
Proof.
  unfold connector.
  assert (I : forall (c : Cusp) (l : list Cusp) (r : list (Cusp * Cusp)),
    fold_left (fun result other =>
                 if connect c other then result ++ [(c, other)] else result)
      l r = r ++ map (pair c) (filter (connect c) l)).
  { intros c l. induction l as [|o l IH]; intros r; simpl.
    - now rewrite app_nil_r.
    - rewrite IH. destruct (connect c o); [|reflexivity].
      simpl. now rewrite <- app_assoc. }
  assert (O : forall (l : list Cusp) (r : list (Cusp * Cusp)),
    fold_left (fun result cusp =>
                 fold_left (fun result other =>
                              if connect cusp other
                              then result ++ [(cusp, other)] else result)
                   cusps result)
      l r = r ++ flat_map (fun a => map (pair a) (filter (connect a) cusps)) l).
  { induction l as [|c l IH]; intros r; simpl.
    - now rewrite app_nil_r.
    - rewrite IH, I. now rewrite <- app_assoc. }
  apply (O cusps []).
Qed.

Lemma connector_In (cusps : list Cusp) (a b : Cusp) :
  In (a, b) (connector cusps)
  <-> In a cusps /\ In b cusps /\ connect a b = true.
Proof.
  rewrite connector_flat_map, in_flat_map. split.
  - intros (c & C & H). apply in_map_iff in H as (o & E & H).
    inversion E; subst. apply filter_In in H. tauto.
  - intros (A & B & C). exists a. split; [assumption|].
    apply in_map_iff. exists b. split; [reflexivity|].
    apply filter_In. tauto.
Qed.

Lemma filter_index_NoDup (f : Cusp -> bool) (l : list Cusp) :
  NoDup (map (@index N) l) -> NoDup (map (@index N) (filter f l)).
Proof.
  induction l as [|c l IH]; simpl; intros H; [constructor|].
  inversion H as [|? ? X Y]; subst.
  destruct (f c); simpl; auto. constructor; auto.
  intros K. apply X. apply in_map_iff in K as (c' & E & K).
  apply filter_In in K as [K _]. apply in_map_iff. eauto.
Qed.

Lemma pairs_NoDup (f : Cusp -> Cusp -> bool) (others l : list Cusp) :
  NoDup (map (@index N) others) -> NoDup (map (@index N) l) ->
  NoDup (map edge_indices
           (flat_map (fun a => map (pair a) (filter (f a) others)) l)).
Proof.
  intros NO. induction l as [|a l IH]; simpl; intros ND; [constructor|].
  inversion ND as [|? ? X Y]; subst.
  rewrite map_app, map_map. apply NoDup_app.
  - apply NoDup_map_inv with (f := snd). rewrite map_map. simpl.
    now apply filter_index_NoDup.
  - now apply IH.
  - intros e H K. apply in_map_iff in H as (b & <- & _).
    apply in_map_iff in K as ([a' b'] & E & K).
    apply in_flat_map in K as (c & C & K).
    apply in_map_iff in K as (o & E' & _). inversion E'; subst.
    unfold edge_indices in E. simpl in E. inversion E as [[E1 E2]].
    apply X. rewrite <- E1. now apply in_map.
Qed.

Lemma connector_NoDup (cusps : list Cusp) :
  NoDup (map (@index N) cusps) ->
  NoDup (map edge_indices (connector cusps)).
Proof.
  intros ND. rewrite connector_flat_map. now apply pairs_NoDup.
Qed.

(** C9: an edge the connector returns never joins a cusp to itself (the two
    vertex indices differ) and never joins two cusps whose points are more
    than [MAX_CROSSING_DISTANCE] apart, whatever their tangents and whichever
    orientation passed. *)
Theorem connector_excludes {L : DistanceLaws N} (cusps : list Cusp)
  (a b : Cusp) (E : In (a, b) (connector cusps)) :
  index a <> index b
  /\ fgtb (cabs (csub (point b) (point a))) MAX_CROSSING_DISTANCE = false.
Proof.
  apply connector_In in E as (_ & _ & C). now apply connect_close.
Qed.


End Connector.

(** ** Popping after an update in place *)

Section Popping.

Context {A : Type}.

Lemma setitem_app (l1 l : list A) (m : nat) (x : A) :
  setitem (length l1 + m) x (l1 ++ l) = l1 ++ setitem m x l.
Proof. induction l1 as [|y l1 IH]; simpl; [reflexivity | now rewrite IH]. Qed.

Lemma firstn_skipn_middle (l1 l2 : list A) (a : A) :
  firstn (length l1) (l1 ++ a :: l2) ++ skipn (S (length l1)) (l1 ++ a :: l2)
  = l1 ++ l2.
Proof.
  induction l1 as [|y l1 IH]; simpl; [reflexivity|]. f_equal. exact IH.
Qed.

(** The list left when the element after position [j] (cyclically) is
    replaced by [x] and the element at position [j] is then popped. *)
Lemma popped_shape (l : list A) (j : nat) (a x : A) :
  nth_error l j = Some a ->
  let k := (j + 1) mod length l in
  let r := firstn j (setitem k x l) ++ skipn (S j) (setitem k x l) in
  (exists l1 b l3, l = l1 ++ a :: b :: l3 /\ length l1 = j
                   /\ nth_error l k = Some b /\ r = l1 ++ x :: l3)
  \/ (exists b l1, l = b :: l1 ++ [a] /\ j = S (length l1)
                   /\ nth_error l k = Some b /\ r = x :: l1)
  \/ (l = [a] /\ j = 0 /\ nth_error l k = Some a /\ r = []).
Proof.
  intros H k r. destruct (nth_error_split l j H) as (l1 & l2 & E & J).
  destruct l2 as [|b l3].
  - assert (K : k = 0).
    { unfold k. rewrite E, length_app. simpl. rewrite J.
      apply Nat.Div0.mod_same. }
    destruct l1 as [|b l1].
    + right. right. simpl in J. subst j. subst l. simpl in *.
      repeat split; reflexivity.
    + right. left. exists b, l1. simpl in J.
      repeat split; try assumption; try lia.
      * rewrite K, E. reflexivity.
      * unfold r. rewrite K, E. simpl setitem.
        rewrite <- J.
        change (x :: l1 ++ [a]) with ((x :: l1) ++ [a]).
        change (S (length l1)) with (length (x :: l1)).
        rewrite (firstn_skipn_middle (x :: l1) [] a).
        now rewrite app_nil_r.
  - assert (K : k = length l1 + 1).
    { unfold k. rewrite E, length_app. simpl. rewrite J.
      apply Nat.mod_small. lia. }
    left. exists l1, b, l3. repeat split; try assumption.
    + rewrite K, E. rewrite nth_error_app2 by lia.
      replace (length l1 + 1 - length l1) with 1 by lia. reflexivity.
    + unfold r. rewrite K, E, setitem_app. simpl setitem. rewrite <- J.
      apply (firstn_skipn_middle l1 (x :: l3) a).
Qed.

End Popping.

(** ** The merger *)

Section Merger.

Context {N : PyNum}.

(** *** The arc walked by [merge] *)

Lemma mod_wrap (a n : nat) : n <= a -> a < 2 * n -> a mod n = a - n.
Proof.
  intros H1 H2. symmetry. apply Nat.mod_unique with (q := 1); lia.
Qed.

Lemma steps_zero (n j target : nat) :
  j < n -> target < n -> (target + n - j) mod n = 0 -> target = j.
Proof.
  intros J T H. destruct (Nat.le_gt_cases j target) as [C|C].
  - rewrite mod_wrap in H by lia. lia.
  - rewrite Nat.mod_small in H by lia. lia.
Qed.

Lemma steps_succ (n j target k : nat) :
  j < n -> target < n -> (target + n - j) mod n = S k ->
  (target + n - (j + 1) mod n) mod n = k.
Proof.
  intros J T H. destruct (Nat.eq_dec (j + 1) n) as [E|E].
  - rewrite E, Nat.Div0.mod_same, Nat.sub_0_r.
    destruct (Nat.le_gt_cases j target) as [C|C].
    + assert (target = j) by lia. subst target.
      replace (j + n - j) with n in H by lia.
      rewrite Nat.Div0.mod_same in H. discriminate.
    + rewrite Nat.mod_small in H by lia.
      rewrite mod_wrap by lia. lia.
  - rewrite (Nat.mod_small (j + 1)) by lia.
    destruct (Nat.le_gt_cases j target) as [C|C].
    + rewrite mod_wrap in H by lia. rewrite mod_wrap by lia. lia.
    + rewrite Nat.mod_small in H by lia. rewrite Nat.mod_small by lia. lia.
Qed.

Lemma walk_fold (path : Path) (target k : nat) :
  forall (fuel j : nat) (d : pyfloat),
    j < length path -> target < length path ->
    (target + length path - j) mod length path = k -> k <= fuel ->
    walk fuel path target j d
    = Ret (fold_left (fun d k => fadd d (nth k (map chord path) (of_int 0)))
             (map (fun s => (j + s) mod length path) (seq 1 k)) d).
Proof.
  induction k as [|k IH]; intros fuel j d J T K F.
  - apply steps_zero in K; try assumption. subst.
    destruct fuel; simpl; now rewrite Nat.eqb_refl.
  - destruct fuel as [|fuel]; [lia|].
    assert (D : (j =? target) = false).
    { apply Nat.eqb_neq. intros ->.
      replace (target + length path - target) with (length path) in K by lia.
      rewrite Nat.Div0.mod_same in K. discriminate. }
    cbn [walk]. rewrite D. rewrite pymod_Ret by lia. cbn [bind].
    assert (J' : (j + 1) mod length path < length path)
      by (apply Nat.mod_upper_bound; lia).
    destruct (getitem_lt path _ J') as (segment & -> & S). cbn [bind].
    rewrite (IH fuel ((j + 1) mod length path)); try assumption; try lia.
    2: now apply steps_succ.
    f_equal. cbn [seq map fold_left].
    rewrite (nth_error_nth (map chord path) _ (of_int 0)
               (x := chord segment))
      by (rewrite nth_error_map, S; reflexivity).
    replace (map (fun s => (j + s) mod length path) (seq 2 k))
      with (map (fun s => ((j + 1) mod length path + s) mod length path)
              (seq 1 k)); [reflexivity|].
    rewrite <- (seq_shift k 1), map_map. apply map_ext. intros s.
    rewrite Nat.Div0.add_mod_idemp_l. f_equal. lia.
Qed.

(** On a cyclic path the loop of [merge] returns the forward arc length. *)
Lemma walk_arc (path : Path) (j target : nat) (d : pyfloat) :
  j < length path -> target < length path ->
  walk (S (length path)) path target j d = Ret (arc_from d path j target).
Proof.
  intros J T. unfold arc_from, between.
  apply walk_fold; try assumption; try reflexivity.
  apply Nat.lt_le_incl, Nat.lt_lt_succ_r, Nat.mod_upper_bound. lia.
Qed.

(** *** One call of [merge] *)

Lemma merge_false (self other other' : Cusp) :
  merge self other = Ret (false, other') -> other' = other.
Proof.
  unfold merge.
  destruct (negb (fst (index other) =? fst (index self))); [discriminate|].
  destruct (fgtb (cabs (csub (point other) (point self)))
              MAX_CUSP_MERGE_DISTANCE); [intros H; now inversion H|].
  destruct (getitem (paths self) (fst (index self))) as [path| |];
    try discriminate. cbn [bind].
  destruct (walk _ _ _ _ _) as [d| |]; try discriminate. cbn [bind].
  destruct (fgtb d MAX_CUSP_MERGE_DISTANCE); intros H; now inversion H.
Qed.

(** What a successful merge tested, and what it leaves in [other]. *)
Lemma merge_true (self other other' : Cusp) :
  merge self other = Ret (true, other') ->
  fst (index other) = fst (index self)
  /\ fgtb (cabs (csub (point other) (point self))) MAX_CUSP_MERGE_DISTANCE
     = false
  /\ (exists path d,
        getitem (paths self) (fst (index self)) = Ret path
        /\ walk (S (length path)) path (snd (index other)) (snd (index self))
             (of_int 0) = Ret d
        /\ fgtb d MAX_CUSP_MERGE_DISTANCE = false)
  /\ paths other' = paths other
  /\ (index other' = index self \/ index other' = index other).
Proof.
  unfold merge.
  destruct (fst (index other) =? fst (index self)) eqn:I; [|discriminate].
  apply Nat.eqb_eq in I. cbn [negb].
  destruct (fgtb (cabs (csub (point other) (point self)))
              MAX_CUSP_MERGE_DISTANCE); [discriminate|].
  destruct (getitem (paths self) (fst (index self))) as [path| |];
    try discriminate. cbn [bind].
  destruct (walk _ _ _ _ _) as [d| |] eqn:W; try discriminate. cbn [bind].
  destruct (fgtb d MAX_CUSP_MERGE_DISTANCE) eqn:F; [discriminate|].
  intros H. inversion H; subst. clear H. repeat split; try assumption.
  - exists path, d. auto.
  - destruct (fgtb (fabs (angle self)) (fabs (angle other))); reflexivity.
  - destruct (fgtb (fabs (angle self)) (fabs (angle other))); simpl; auto.
Qed.

(** On cusps of one sub-path [merge] returns, and [other] stays a cusp of
    that sub-path. *)
Lemma merge_Ret (paths0 : list Path) (i : nat) (path : Path)
  (self other : Cusp) :
  nth_error paths0 i = Some path ->
  cusp_of paths0 i path self -> cusp_of paths0 i path other ->
  exists merged other',
    merge self other = Ret (merged, other')
    /\ cusp_of paths0 i path other'.
Proof.
  intros P (Ps & Is & Js) (Po & Io & Jo). unfold merge.
  rewrite Io, Is, Nat.eqb_refl. cbn [negb].
  destruct (fgtb (cabs (csub (point other) (point self)))
              MAX_CUSP_MERGE_DISTANCE).
  { exists false, other. split; [reflexivity|]. now repeat split. }
  rewrite Ps. unfold getitem. rewrite P. cbn [bind].
  rewrite walk_arc by assumption. cbn [bind].
  destruct (fgtb _ MAX_CUSP_MERGE_DISTANCE).
  { exists false, other. split; [reflexivity|]. now repeat split. }
  eexists true, _. split; [reflexivity|].
  destruct (fgtb (fabs (angle self)) (fabs (angle other)));
    repeat split; simpl; assumption.
Qed.

(** *** One iteration of the merger *)

Lemma merger_step_cases (cusps cusps' : list Cusp) (j j' : nat) :
  merger_step cusps j = Ret (cusps', j') ->
  exists self other merged other',
    nth_error cusps j = Some self
    /\ nth_error cusps ((j + 1) mod length cusps) = Some other
    /\ merge self other = Ret (merged, other')
    /\ if merged : bool
       then j' = j
            /\ cusps'
               = firstn j (setitem ((j + 1) mod length cusps) other' cusps)
                 ++ skipn (S j)
                      (setitem ((j + 1) mod length cusps) other' cusps)
       else j' = j + 1 /\ cusps' = cusps.
Proof.
  unfold merger_step, getitem at 1.
  destruct (nth_error cusps j) as [self|] eqn:S; [|discriminate]. cbn [bind].
  assert (L : 0 < length cusps).
  { assert (j < length cusps) by (apply nth_error_Some; congruence). lia. }
  rewrite pymod_Ret by assumption. cbn [bind]. unfold getitem at 1.
  destruct (nth_error cusps ((j + 1) mod length cusps)) as [other|] eqn:O;
    [|discriminate]. cbn [bind].
  destruct (merge self other) as [[merged other']| |] eqn:M; try discriminate.
  cbn [bind]. intros H. exists self, other, merged, other'.
  repeat split; try reflexivity; try assumption. destruct merged.
  - unfold pop in H. destruct (j <? _); [|discriminate]. cbn [bind] in H.
    inversion H; subst. split; reflexivity.
  - apply merge_false in M. subst other'.
    rewrite setitem_same in H by assumption. inversion H; subst.
    split; reflexivity.
Qed.

(** After a merge the scan stays at the same index on a list one shorter;
    otherwise the list is unchanged and the index advances by one. *)
Lemma merger_step_progress (cusps cusps' : list Cusp) (j j' : nat) :
  merger_step cusps j = Ret (cusps', j') ->
  (length cusps = S (length cusps') /\ j' = j)
  \/ (cusps' = cusps /\ j' = S j).
Proof.
  intros H. destruct (merger_step_cases _ _ _ _ H)
    as (self & other & merged & other' & S & O & M & C).
  destruct merged; destruct C as [-> ->].
  - left. split; [|reflexivity].
    destruct (popped_shape cusps j self other' S)
      as [(l1 & b & l3 & E & _ & _ & ->)
         |[(b & l1 & E & _ & _ & ->)|(E & _ & _ & ->)]];
      rewrite E; rewrite ?length_app; simpl; rewrite ?length_app; simpl; lia.
  - right. split; [reflexivity | lia].
Qed.

Lemma merger_step_merged (cusps cusps' : list Cusp) (j j' : nat) :
  merger_step cusps j = Ret (cusps', j') ->
  length cusps' < length cusps ->
  exists self other other',
    nth_error cusps j = Some self
    /\ nth_error cusps ((j + 1) mod length cusps) = Some other
    /\ merge self other = Ret (true, other').
Proof.
  intros H Lt. destruct (merger_step_cases _ _ _ _ H)
    as (self & other & merged & other' & S & O & M & C).
  destruct merged; [now exists self, other, other'|].
  destruct C as [_ ->]. lia.
Qed.

(** A property of cusps that [merge] passes on to [other] holds of the whole
    list after an iteration. *)
Lemma merger_step_Forall (Q : Cusp -> Prop) (cusps cusps' : list Cusp)
  (j j' : nat) :
  (forall self other other',
      Q self -> Q other -> merge self other = Ret (true, other') -> Q other') ->
  Forall Q cusps ->
  merger_step cusps j = Ret (cusps', j') ->
  Forall Q cusps'.
Proof.
  intros K F H. destruct (merger_step_cases _ _ _ _ H)
    as (self & other & merged & other' & S & O & M & C).
  destruct merged; [|now destruct C as [_ ->]].
  destruct C as [_ ->].
  assert (Qs : Q self) by (eapply Forall_forall; eauto using nth_error_In).
  assert (Qo : Q other) by (eapply Forall_forall; eauto using nth_error_In).
  pose proof (K _ _ _ Qs Qo M) as Q'.
  destruct (popped_shape cusps j self other' S)
    as [(l1 & b & l3 & E & _ & _ & ->)
       |[(b & l1 & E & _ & _ & ->)|(E & _ & _ & ->)]];
    rewrite E in F.
  - apply Forall_app in F as [F1 F2]. inversion F2 as [|? ? _ F3]; subst.
    inversion F3; subst. apply Forall_app. split; auto.
  - inversion F as [|? ? _ F1]; subst. apply Forall_app in F1 as [F1 _].
    constructor; assumption.
  - constructor.
Qed.

Lemma merger_step_cusp_of (paths0 : list Path) (i : nat) (path : Path)
  (cusps cusps' : list Cusp) (j j' : nat) :
  nth_error paths0 i = Some path ->
  Forall (cusp_of paths0 i path) cusps ->
  merger_step cusps j = Ret (cusps', j') ->
  Forall (cusp_of paths0 i path) cusps'.
Proof.
  intros P. apply merger_step_Forall. intros self other other' Ws Wo M.
  destruct (merge_Ret paths0 i path self other P Ws Wo)
    as (merged & o & M' & W). rewrite M in M'. now inversion M'; subst.
Qed.

(** Distinct vertices stay distinct: the cusp that survives a merge is at
    the vertex of one of the two cusps merged. *)
Lemma merger_step_NoDup (cusps cusps' : list Cusp) (j j' : nat) :
  NoDup (map (@index N) cusps) ->
  merger_step cusps j = Ret (cusps', j') ->
  NoDup (map (@index N) cusps').
Proof.
  intros ND H. destruct (merger_step_cases _ _ _ _ H)
    as (self & other & merged & other' & S & O & M & C).
  destruct merged; [|now destruct C as [_ ->]].
  destruct C as [_ ->].
  apply merge_true in M as (_ & _ & _ & _ & I).
  destruct (popped_shape cusps j self other' S)
    as [(l1 & b & l3 & E & _ & Ob & ->)
       |[(b & l1 & E & _ & Ob & ->)|(E & _ & _ & ->)]];
    try (rewrite Ob in O; inversion O; subst b); rewrite E in ND.
  - rewrite map_app in *. simpl in *. destruct I as [-> | ->].
    + replace (map index l1 ++ index self :: index other :: map index l3)
        with ((map index l1 ++ [index self]) ++ index other :: map index l3)
        in ND by (now rewrite <- app_assoc).
      apply NoDup_remove_1 in ND. now rewrite <- app_assoc in ND.
    + now apply NoDup_remove_1 in ND.
  - simpl in ND. rewrite map_app in ND. simpl in ND. simpl.
    inversion ND as [|? ? X Y]; subst.
    apply NoDup_remove in Y as [Y1 Y2]. rewrite app_nil_r in *.
    destruct I as [-> | ->]; constructor; try assumption.
    intros K. apply X. apply in_or_app. now left.
  - constructor.
Qed.

(** *** The loop *)

Lemma merger_step_Ret (paths0 : list Path) (i : nat) (path : Path)
  (cusps : list Cusp) (j : nat) :
  nth_error paths0 i = Some path ->
  Forall (cusp_of paths0 i path) cusps ->
  j < length cusps ->
  exists cusps' j', merger_step cusps j = Ret (cusps', j').
Proof.
  intros P W J. unfold merger_step.
  destruct (getitem_lt cusps j J) as (self & -> & S). cbn [bind].
  rewrite pymod_Ret by lia. cbn [bind].
  assert (K : (j + 1) mod length cusps < length cusps)
    by (apply Nat.mod_upper_bound; lia).
  destruct (getitem_lt cusps _ K) as (other & -> & O). cbn [bind].
  assert (Ws : cusp_of paths0 i path self)
    by (eapply Forall_forall; eauto using nth_error_In).
  assert (Wo : cusp_of paths0 i path other)
    by (eapply Forall_forall; eauto using nth_error_In).
  destruct (merge_Ret paths0 i path self other P Ws Wo)
    as (merged & other' & -> & _). cbn [bind].
  destruct merged; [|eauto].
  unfold pop. rewrite setitem_length.
  apply Nat.ltb_lt in J. rewrite J. cbn [bind]. eauto.
Qed.

Lemma merger_loop_done (fuel : nat) (cusps : list Cusp) (j : nat) :
  length cusps <= j -> merger_loop fuel cusps j = Ret cusps.
Proof.
  intros H. apply Nat.ltb_ge in H. destruct fuel; simpl; now rewrite H.
Qed.

(** On cusps of one sub-path the loop ends after [length cusps - j]
    iterations, which is all the fuel it needs. *)
Lemma merger_loop_run (paths0 : list Path) (i : nat) (path : Path) :
  nth_error paths0 i = Some path ->
  forall (m : nat) (cusps : list Cusp) (j fuel : nat),
    Forall (cusp_of paths0 i path) cusps ->
    length cusps - j = m -> m <= fuel ->
    exists out, merger_loop fuel cusps j = Ret out
                /\ merger_run cusps j m out.
Proof.
  intros P. induction m as [|m IH]; intros cusps j fuel W M F.
  - exists cusps. split; [apply merger_loop_done; lia|].
    constructor. lia.
  - destruct fuel as [|fuel]; [lia|].
    assert (J : j < length cusps) by lia.
    destruct (merger_step_Ret paths0 i path cusps j P W J)
      as (cusps' & j' & S).
    pose proof (merger_step_cusp_of paths0 i path _ _ _ _ P W S) as W'.
    destruct (IH cusps' j' fuel W') as (out & R1 & R2).
    { destruct (merger_step_progress _ _ _ _ S) as [[E ->]|[-> ->]]; lia. }
    { lia. }
    exists out. split.
    + cbn [merger_loop]. apply Nat.ltb_lt in J. rewrite J, S. exact R1.
    + econstructor; eassumption.
Qed.

Lemma merger_run_count (cusps : list Cusp) (j n : nat) (out : list Cusp) :
  merger_run cusps j n out -> n = length cusps - j.
Proof.
  induction 1 as [cusps j H|cusps j cusps' j' n out J S _ IH]; [lia|].
  destruct (merger_step_progress _ _ _ _ S) as [[E ->]|[-> ->]]; lia.
Qed.

(** What every iteration preserves holds of the list the loop returns. *)
Lemma merger_loop_invariant (Inv : list Cusp -> Prop) :
  (forall cusps j cusps' j',
      Inv cusps -> merger_step cusps j = Ret (cusps', j') -> Inv cusps') ->
  forall (fuel : nat) (cusps : list Cusp) (j : nat) (out : list Cusp),
    Inv cusps -> merger_loop fuel cusps j = Ret out -> Inv out.
Proof.
  intros K. induction fuel as [|fuel IH]; intros cusps j out I H; simpl in H;
    destruct (j <? length cusps); try discriminate;
    try (inversion H; subst; assumption).
  destruct (merger_step cusps j) as [[cusps' j']| |] eqn:S; try discriminate.
  cbn [bind] in H. eapply IH; [|exact H]. eapply K; eassumption.
Qed.

Lemma merger_length (cusps out : list Cusp) :
  merger cusps = Ret out -> length out <= length cusps.
Proof.
  apply (merger_loop_invariant (fun l => length l <= length cusps)); [|lia].
  intros l j l' j' I S.
  destruct (merger_step_progress _ _ _ _ S) as [[E _]|[-> _]]; lia.
Qed.

Lemma merger_NoDup (cusps out : list Cusp) :
  NoDup (map (@index N) cusps) -> merger cusps = Ret out ->
  NoDup (map (@index N) out).
Proof.
  apply (merger_loop_invariant (fun l => NoDup (map (@index N) l))).
  intros l j l' j'. apply merger_step_NoDup.
Qed.

Lemma merger_cusp_of (paths0 : list Path) (i : nat) (path : Path)
  (cusps out : list Cusp) :
  nth_error paths0 i = Some path ->
  Forall (cusp_of paths0 i path) cusps -> merger cusps = Ret out ->
  Forall (cusp_of paths0 i path) out.
Proof.
  intros P. apply (merger_loop_invariant (Forall (cusp_of paths0 i path))).
  intros l j l' j'. now apply merger_step_cusp_of.
Qed.



(** A cusp of a sub-path merges with itself. *)
Lemma merge_self {L : DistanceLaws N} (paths0 : list Path) (i : nat)
  (path : Path) (c : Cusp) :
  nth_error paths0 i = Some path -> cusp_of paths0 i path c ->
  exists c', merge c c = Ret (true, c').
Proof.
  intros P (Pc & Ic & Jc). unfold merge. rewrite Nat.eqb_refl. cbn [negb].
  assert (Z : fltb (of_int 0) MAX_CUSP_MERGE_DISTANCE = true)
    by exact merge_distance_pos.
  assert (D : fgtb (cabs (csub (point c) (point c))) MAX_CUSP_MERGE_DISTANCE
              = false).
  { unfold fgtb. destruct (fltb MAX_CUSP_MERGE_DISTANCE _) eqn:F;
      [|reflexivity].
    rewrite <- (cabs_sub_diag (point c)). symmetry.
    now apply fltb_trans with (y := MAX_CUSP_MERGE_DISTANCE). }
  rewrite D, Pc, Ic. unfold getitem. rewrite P. cbn [bind].
  assert (Wk : walk (S (length path)) path (snd (index c)) (snd (index c))
                 (of_int 0) = Ret (of_int 0))
    by (simpl; now rewrite Nat.eqb_refl).
  rewrite Wk. cbn [bind]. unfold fgtb at 1. rewrite (fltb_asym _ _ Z).
  eauto.
Qed.

(** C4: when the detector returns a single cusp for a sub-path, the
    merger's scan pairs that cusp with itself (it is its own cyclic
    successor), finds no positive distance between its point and itself and
    an arc length of 0, merges, and returns the empty list. *)
Theorem lone_cusp_is_dropped {L : DistanceLaws N} (paths0 : list Path)
  (i : nat) (path : Path) (c : Cusp)
  (P : nth_error paths0 i = Some path)
  (D : detect paths0 i path = Ret [c]) :
  nth_error [c] ((0 + 1) mod length [c]) = Some c
  /\ fltb (of_int 0) (cabs (csub (point c) (point c))) = false
  /\ arc_length path (snd (index c)) (snd (index c)) = of_int 0
  /\ (exists c', merge c c = Ret (true, c'))
  /\ merger [c] = Ret [].
Proof.
  destruct (detect_cusp_of paths0 i path [c] P D) as [W _].
  inversion W as [|? ? Wc _]; subst.
  destruct (merge_self paths0 i path c P Wc) as (c' & M).
  repeat split.
  - apply cabs_sub_diag.
  - destruct Wc as (_ & _ & J). unfold arc_length, arc_from, between.
    replace (snd (index c) + length path - snd (index c)) with (length path)
      by lia.
    now rewrite Nat.Div0.mod_same.
  - now exists c'.
  - unfold merger, merger_loop, merger_step. simpl. rewrite M. reflexivity.
Qed.

End Merger.

(** ** The cusps of a glyph *)

Section Glyph.

Context {N : PyNum}.

Lemma combine_seq_In {A : Type} (l : list A) :
  forall (s i : nat) (a : A),
    In (i, a) (combine (seq s (length l)) l) ->
    s <= i /\ nth_error l (i - s) = Some a.
Proof.
  induction l as [|x l IH]; intros s i a H; simpl in H; [contradiction|].
  destruct H as [H|H].
  - inversion H; subst. rewrite Nat.sub_diag. auto.
  - apply IH in H as [H1 H2]. split; [lia|].
    replace (i - s) with (S (i - S s)) by lia. exact H2.
Qed.

Lemma enumerate_In {A : Type} (l : list A) (i : nat) (a : A) :
  In (i, a) (enumerate l) -> nth_error l i = Some a.
Proof.
  intros H. apply combine_seq_In in H as [_ H]. now rewrite Nat.sub_0_r in H.
Qed.

Lemma enumerate_fst {A : Type} (l : list A) :
  map fst (enumerate l) = seq 0 (length l).
Proof.
  unfold enumerate. generalize 0.
  induction l as [|x l IH]; intros s; simpl; [reflexivity|].
  now rewrite IH.
Qed.

Lemma get_cusps_loop_NoDup (paths0 : list Path) :
  forall (todo : list (nat * Path)) (result out : list Cusp),
    (forall i path, In (i, path) todo -> nth_error paths0 i = Some path) ->
    NoDup (map fst todo) ->
    NoDup (map (@index N) result) ->
    (forall c, In c result -> ~ In (fst (index c)) (map fst todo)) ->
    get_cusps_loop paths0 todo result = Ret out ->
    NoDup (map (@index N) out).
Proof.
  induction todo as [|[i path] todo IH]; intros result out T ND NR F H;
    simpl in H.
  - now inversion H; subst.
  - assert (P : nth_error paths0 i = Some path) by (apply T; now left).
    destruct (detect paths0 i path) as [cusps| |] eqn:D; try discriminate.
    cbn [bind] in H.
    destruct (merger cusps) as [merged| |] eqn:M; try discriminate.
    cbn [bind] in H.
    destruct (detect_cusp_of paths0 i path cusps P D) as [W NC].
    pose proof (merger_cusp_of paths0 i path cusps merged P W M) as W'.
    pose proof (merger_NoDup cusps merged NC M) as NM.
    inversion ND as [|? ? X Y]; subst.
    apply IH with (result := result ++ merged); try assumption.
    + intros i' path' K. apply T. now right.
    + rewrite map_app. apply NoDup_app; try assumption.
      intros x Hx Hm. apply in_map_iff in Hx as (c & <- & Hc).
      apply in_map_iff in Hm as (c' & E & Hc').
      apply (F c Hc). left. simpl.
      rewrite <- E. eapply Forall_forall in W'; [|exact Hc'].
      symmetry. apply W'.
    + intros c Hc K. apply in_app_or in Hc as [Hc|Hc].
      * apply (F c Hc). now right.
      * eapply Forall_forall in W'; [|exact Hc].
        destruct W' as (_ & I & _). rewrite I in K. contradiction.
Qed.

(** The cusps of a glyph are at distinct vertices. *)
Lemma get_cusps_NoDup (paths0 : list Path) (cusps : list Cusp) :
  get_cusps paths0 = Ret cusps -> NoDup (map (@index N) cusps).
Proof.
  apply get_cusps_loop_NoDup.
  - intros i path. apply enumerate_In.
  - rewrite enumerate_fst. apply seq_NoDup.
  - constructor.
  - intros c [].
Qed.

(** C1, as the code has it: for the cusps of a glyph the connector returns
    every ordered pair of cusps at most once, whichever of the allowed
    orientations passes the test, and it returns the pair [(a, b)] exactly
    when [connect a b] holds.  The two orders of a pair are decided apart,
    each by its own call of [connect]. *)
Theorem connector_ordered_pairs (paths0 : list Path) (cusps : list Cusp)
  (G : get_cusps paths0 = Ret cusps) :
  NoDup (map edge_indices (connector cusps))
  /\ forall a b : Cusp,
       In (a, b) (connector cusps)
       <-> In a cusps /\ In b cusps /\ connect a b = true.
Proof.
  split; [|apply connector_In].
  apply connector_NoDup. now apply get_cusps_NoDup with (paths0 := paths0).
Qed.

End Glyph.

(** ** The properties on the example outlines *)

Section OnExamples.

Import Exact ExactLaws Examples.

Local Open Scope R_scope.

(** [cusp_b] is one unit from [cusp_a]. *)
Lemma cusp_a_b_distance :
  @cabs num (csub (point cusp_b) (point cusp_a)) = 1.
Proof.
  cbn [cabs csub num point cusp_a cusp_b fst snd]. unfold modulus.
  cbn [fst snd].
  replace ((1 - 0) * (1 - 0) + (0 - 0) * (0 - 0)) with 1 by ring.
  apply sqrt_1.
Qed.

(** C1 on the cusps of [facing_spikes]. *)
Lemma connector_ordered_pairs_witness :
  NoDup (map edge_indices (connector (N := Binary64.num) spike_cusps))
  /\ forall a b : Cusp,
       In (a, b) (connector spike_cusps)
       <-> In a spike_cusps /\ In b spike_cusps /\ connect a b = true.
Proof.
  apply (connector_ordered_pairs (N := Binary64.num) spike_paths spike_cusps).
  vm_compute. reflexivity.
Defined.

(** C1 as stated fails on [facing_spikes]: the connector returns the edge
    between the two tips, [(0, 0)] and [(20, 0)], twice, once in each
    direction. *)
Lemma connector_emits_both_orders :
  exists extras,
    augment_glyph (N := Binary64.num) facing_spikes = Ret extras
    /\ strokes_between (N := Binary64.num) (0, 0)%float (20, 0)%float extras
       = 2%nat.
Proof.
  eexists. split; vm_compute; reflexivity.
Qed.

(** C2 fails on [pinched_loop]: of its two cusps the merger returns one, and
    run again on that one cusp it returns none. *)
Lemma merger_not_idempotent :
  detect (N := Binary64.num) [pinched_loop] 0 pinched_loop = Ret pinched_cusps
  /\ exists once,
       merger pinched_cusps = Ret once
       /\ length once = 1%nat
       /\ merger once = Ret [].
Proof.
  split; [vm_compute; reflexivity|].
  eexists. repeat split; vm_compute; reflexivity.
Qed.


(** C4 on [bend]. *)
Lemma lone_cusp_is_dropped_witness :
  nth_error [bend_cusp] ((0 + 1) mod length [bend_cusp]) = Some bend_cusp
  /\ @fltb Binary64.num (of_int 0)
       (cabs (csub (point bend_cusp) (point bend_cusp))) = false
  /\ arc_length (N := Binary64.num) bend (snd (index bend_cusp))
       (snd (index bend_cusp)) = of_int 0
  /\ (exists c', merge bend_cusp bend_cusp = Ret (true, c'))
  /\ merger [bend_cusp] = Ret [].
Proof.
  apply (lone_cusp_is_dropped (L := Binary64Laws.distance_laws) [bend] 0
           bend bend_cusp).
  - reflexivity.
  - vm_compute. reflexivity.
Defined.


(** C6 on [cusp_a] and [cusp_b]. *)
Lemma connect_orientations_witness :
  (fst (index cusp_a) = fst (index cusp_b) ->
   connect (N := num) cusp_a cusp_b = _try_connect cusp_a cusp_b false)
  /\ (fst (index cusp_a) <> fst (index cusp_b) ->
      connect cusp_a cusp_b
      = _try_connect cusp_a cusp_b false || _try_connect cusp_a cusp_b true)
  /\ _try_connect cusp_a cusp_b true
     = _try_connect cusp_a (swap_tangents cusp_b) false.
Proof.
  apply (connect_orientations (N := num) cusp_a cusp_b). discriminate.
Defined.


(** C9 on the two tips of [facing_spikes]. *)
Lemma connector_excludes_witness :
  index tip_a <> index tip_b
  /\ fgtb (N := Binary64.num) (cabs (csub (point tip_b) (point tip_a)))
       MAX_CROSSING_DISTANCE = false.
Proof.
  apply (connector_excludes (L := Binary64Laws.distance_laws) spike_cusps
           tip_a tip_b).
  vm_compute. left. reflexivity.
Defined.


End OnExamples.

(** ** Further properties of the analysis *)

Section Further.

Context {N : PyNum}.

Lemma detect_Ret (paths0 : list Path) (i : nat) (path : Path) :
  nth_error paths0 i = Some path ->
  exists cusps, detect paths0 i path = Ret cusps
                /\ Forall (cusp_of paths0 i path) cusps.
Proof.
  intros P. destruct (vertices_exist paths0 i path P) as (vs & V & _).
  exists (filter is_cusp vs). split; [now apply detect_filter|].
  apply (detect_cusp_of paths0 i path _ P). now apply detect_filter.
Qed.

Lemma get_cusps_loop_Ret (paths0 : list Path) :
  forall (todo : list (nat * Path)) (result : list Cusp),
    (forall i path, In (i, path) todo -> nth_error paths0 i = Some path) ->
    exists out, get_cusps_loop paths0 todo result = Ret out.
Proof.
  induction todo as [|[i path] todo IH]; intros result T; simpl.
  - now exists result.
  - assert (P : nth_error paths0 i = Some path) by (apply T; now left).
    destruct (detect_Ret paths0 i path P) as (cusps & -> & W). cbn [bind].
    destruct (merger_loop_run paths0 i path P (length cusps) cusps 0
                (length cusps) W) as (merged & M & _); try lia.
    unfold merger. rewrite M. cbn [bind].
    apply IH. intros i' path' K. apply T. now right.
Qed.





End Further.

Section FurtherOnExamples.

Import Exact ExactLaws Examples.



(** The square: one sub-path; the detector finds its four corners, each
    turning by a right angle; the merger leaves them as they are, the
    corners being 100 units apart; the connector finds no edge. *)
Lemma square_scenario :
  break_path (N := Binary64.num) square = Ret [square]
  /\ exists cusps,
       detect [square] 0 square = Ret cusps
       /\ map (@point Binary64.num) cusps
          = [(100, 0); (100, 100); (0, 100); (0, 0)]%float
       /\ map (fun c => fabs (angle c)) cusps
          = [Binary64.pi / 2; Binary64.pi / 2; Binary64.pi / 2;
             Binary64.pi / 2]%float
       /\ merger cusps = Ret cusps
       /\ get_cusps [square] = Ret cusps
       /\ connector cusps = [].
Proof.
  split; [vm_compute; reflexivity|].
  eexists. repeat split; vm_compute; reflexivity.
Qed.

End FurtherOnExamples.

(** ** Arcs on a cyclic path *)

Section Arcs.

Lemma steps_small (n j t : nat) : j <= t -> t < n -> steps n j t = t - j.
Proof.
  intros H1 H2. unfold steps. destruct (Nat.eq_dec j t) as [->|D].
  - replace (t + n - t) with n by lia. rewrite Nat.Div0.mod_same. lia.
  - rewrite mod_wrap by lia. lia.
Qed.

Lemma steps_wrap (n j t : nat) : t < j -> j < n -> steps n j t = t + n - j.
Proof. intros H1 H2. unfold steps. apply Nat.mod_small. lia. Qed.


Lemma steps_reach (n j t : nat) :
  j < n -> t < n -> (j + steps n j t) mod n = t.
Proof.
  intros J T. destruct (Nat.le_gt_cases j t) as [C|C].
  - rewrite steps_small by lia. replace (j + (t - j)) with t by lia.
    apply Nat.mod_small. lia.
  - rewrite steps_wrap by lia. replace (j + (t + n - j)) with (t + n) by lia.
    rewrite mod_wrap by lia. lia.
Qed.

(** A vertex [m] met on the way from [j] to [t] splits the way in two. *)
Lemma steps_split (n j m t : nat) :
  j < n -> m < n -> t < n ->
  steps n j m <= steps n j t ->
  steps n j m + steps n m t = steps n j t.
Proof.
  intros J M T.
  destruct (Nat.le_gt_cases j m), (Nat.le_gt_cases j t),
    (Nat.le_gt_cases m t);
    rewrite ?(steps_small n j m), ?(steps_small n j t), ?(steps_small n m t),
      ?(steps_wrap n j m), ?(steps_wrap n j t), ?(steps_wrap n m t) by lia;
    lia.
Qed.

Lemma seq_add_start (a s len : nat) :
  seq (a + s) len = map (Nat.add a) (seq s len).
Proof.
  revert s. induction len as [|len IH]; intros s; simpl; [reflexivity|].
  f_equal. rewrite <- IH. f_equal. lia.
Qed.

Lemma between_split (n j m t : nat) :
  j < n -> m < n -> t < n ->
  steps n j m <= steps n j t ->
  between n j t = between n j m ++ between n m t.
Proof.
  intros J M T H. unfold between. fold (steps n j t) (steps n j m)
    (steps n m t).
  rewrite <- (steps_split n j m t J M T H).
  rewrite seq_app, map_app. f_equal.
  rewrite (Nat.add_comm 1), seq_add_start, map_map. apply map_ext.
  intros s. rewrite Nat.add_assoc, <- Nat.Div0.add_mod_idemp_l.
  now rewrite steps_reach.
Qed.

End Arcs.

(** ** The merger over the real numbers: a second run *)

Module Stability.

Import Exact ExactLaws Closed.

Local Open Scope R_scope.

Lemma fold_add (f : nat -> R) (l : list nat) (d : R) :
  fold_left (fun d k => d + f k) l d = d + fold_left (fun d k => d + f k) l 0.
Proof.
  revert d. induction l as [|k l IH]; intros d; simpl; [ring|].
  rewrite IH, (IH (0 + f k)). ring.
Qed.

Lemma fold_nonneg (f : nat -> R) (l : list nat) :
  (forall k, 0 <= f k) -> 0 <= fold_left (fun d k => d + f k) l 0.
Proof.
  intros F. induction l as [|k l IH]; simpl; [lra|].
  rewrite fold_add. pose proof (F k). lra.
Qed.

Lemma chord_nonneg (path : @Path num) (k : nat) :
  0 <= nth k (map (chord (N := num)) path) 0.
Proof.
  destruct (nth_in_or_default k (map (chord (N := num)) path) 0) as [H| ->];
    [|lra].
  apply in_map_iff in H as (s & <- & _). apply modulus_nonneg.
Qed.

Lemma real_arc_nonneg (path : @Path num) (j t : nat) : 0 <= real_arc path j t.
Proof.
  unfold real_arc, arc_length, arc_from. cbn [fadd of_int num].
  apply (fold_nonneg (fun k => nth k (map (chord (N := num)) path) 0)).
  intros k. apply chord_nonneg.
Qed.

(** Arc lengths add up along the way. *)
Lemma real_arc_split (path : @Path num) (j m t : nat) :
  (j < length path)%nat -> (m < length path)%nat -> (t < length path)%nat ->
  (steps (length path) j m <= steps (length path) j t)%nat ->
  real_arc path j t = real_arc path j m + real_arc path m t.
Proof.
  intros J M T H. unfold real_arc, arc_length, arc_from.
  cbn [fadd of_int num].
  rewrite (between_split _ j m t J M T H), fold_left_app.
  apply (fold_add (fun k => nth k (map (chord (N := num)) path) 0)).
Qed.

Lemma real_arc_diag (path : @Path num) (j : nat) :
  (j < length path)%nat -> real_arc path j j = 0.
Proof.
  intros J. unfold real_arc, arc_length, arc_from, between.
  replace (j + length path - j)%nat with (length path) by lia.
  now rewrite Nat.Div0.mod_same.
Qed.

(** *** Closed paths *)

Lemma modulus_triangle (x1 y1 x2 y2 : R) :
  modulus (x1 + x2, y1 + y2) <= modulus (x1, y1) + modulus (x2, y2).
Proof.
  unfold modulus. cbn [fst snd].
  pose proof (sqrt_cauchy x1 y1 x2 y2) as C. unfold Rsqr in C.
  set (A := sqrt (x1 * x1 + y1 * y1)) in *.
  set (B := sqrt (x2 * x2 + y2 * y2)) in *.
  set (S := sqrt ((x1 + x2) * (x1 + x2) + (y1 + y2) * (y1 + y2))).
  assert (Q : forall u v : R, 0 <= u * u + v * v)
    by (intros u v; generalize (Rle_0_sqr u) (Rle_0_sqr v); unfold Rsqr; lra).
  assert (HA : A * A = x1 * x1 + y1 * y1) by (apply sqrt_sqrt, Q).
  assert (HB : B * B = x2 * x2 + y2 * y2) by (apply sqrt_sqrt, Q).
  assert (HS : S * S = (x1 + x2) * (x1 + x2) + (y1 + y2) * (y1 + y2))
    by (apply sqrt_sqrt, Q).
  assert (PA : 0 <= A) by apply sqrt_pos.
  assert (PB : 0 <= B) by apply sqrt_pos.
  assert (PS : 0 <= S) by apply sqrt_pos.
  nra.
Qed.

Lemma chord_vertex (path : @Path num) (k : nat) :
  (k < length path)%nat ->
  nth k (map (chord (N := num)) path) 0
  = modulus (fst (vertex path k) - fst (origin path k),
             snd (vertex path k) - snd (origin path k)).
Proof.
  intros K. unfold vertex, origin.
  destruct (nth_error path k) as [s|] eqn:E.
  - rewrite (nth_error_nth (map (chord (N := num)) path) k 0
               (x := chord s)) by (rewrite nth_error_map, E; reflexivity).
    reflexivity.
  - apply nth_error_None in E. lia.
Qed.

(** On a closed path the straight line between two vertices is not longer
    than the arc from the one to the other. *)
Lemma chord_le_arc_steps (path : @Path num) (j : nat) :
  closed path -> (j < length path)%nat ->
  forall c : nat,
    modulus (fst (vertex path ((j + c) mod length path)) - fst (vertex path j),
             snd (vertex path ((j + c) mod length path)) - snd (vertex path j))
    <= fold_left (fun d k => d + nth k (map (chord (N := num)) path) 0)
         (map (fun s => ((j + s) mod length path)%nat) (seq 1 c)) 0.
Proof.
  intros C J. induction c as [|c IH].
  - rewrite Nat.add_0_r, Nat.mod_small by lia. simpl.
    replace (fst (vertex path j) - fst (vertex path j)) with 0 by ring.
    replace (snd (vertex path j) - snd (vertex path j)) with 0 by ring.
    rewrite modulus_zero. lra.
  - rewrite seq_S, map_app, fold_left_app. cbn [map fold_left].
    set (k := ((j + c) mod length path)%nat) in *.
    set (k' := ((j + (1 + c)) mod length path)%nat).
    assert (K : (k < length path)%nat)
      by (apply Nat.mod_upper_bound; lia).
    assert (K' : (k' < length path)%nat)
      by (apply Nat.mod_upper_bound; lia).
    assert (E : k' = ((k + 1) mod length path)%nat).
    { unfold k, k'. rewrite Nat.Div0.add_mod_idemp_l. f_equal. lia. }
    replace (j + S c)%nat with (j + (1 + c))%nat by lia. fold k'.
    assert (O : origin path k' = vertex path k)
      by (rewrite E; exact (C k K)).
    rewrite (chord_vertex path k' K'), O.
    pose proof (modulus_triangle
                  (fst (vertex path k) - fst (vertex path j))
                  (snd (vertex path k) - snd (vertex path j))
                  (fst (vertex path k') - fst (vertex path k))
                  (snd (vertex path k') - snd (vertex path k))) as T.
    replace (fst (vertex path k) - fst (vertex path j)
             + (fst (vertex path k') - fst (vertex path k)))
      with (fst (vertex path k') - fst (vertex path j)) in T by ring.
    replace (snd (vertex path k) - snd (vertex path j)
             + (snd (vertex path k') - snd (vertex path k)))
      with (snd (vertex path k') - snd (vertex path j)) in T by ring.
    lra.
Qed.

Lemma chord_le_arc (path : @Path num) (j t : nat) :
  closed path -> (j < length path)%nat -> (t < length path)%nat ->
  modulus (fst (vertex path t) - fst (vertex path j),
           snd (vertex path t) - snd (vertex path j))
  <= real_arc path j t.
Proof.
  intros C J T.
  pose proof (chord_le_arc_steps path j C J (steps (length path) j t)) as H.
  rewrite steps_reach in H by assumption. exact H.
Qed.

(** *** Lists of cusps in path order *)

Lemma increasing_app (l1 l2 : list nat) :
  increasing (l1 ++ l2)
  <-> increasing l1 /\ increasing l2
      /\ forall x y, In x l1 -> In y l2 -> (x < y)%nat.
Proof.
  induction l1 as [|a l1 IH]; simpl.
  - split; [intros H; repeat split; auto; intros x y []|tauto].
  - rewrite IH, Forall_app. split.
    + intros ((F1 & F2) & I1 & I2 & X). repeat split; auto.
      intros x y [<-|Hx] Hy; [|now apply X].
      rewrite Forall_forall in F2. now apply F2.
    + intros ((F1 & I1) & I2 & X). repeat split; auto.
      apply Forall_forall. intros y Hy. apply X; auto.
Qed.

Lemma linked_app_pair (path : @Path num) (l : list (@Cusp num))
  (a b : @Cusp num) :
  linked path (l ++ [a]) -> far path a b -> linked path (l ++ [a; b]).
Proof.
  induction l as [|x [|y l] IH]; simpl in *; intros H F; tauto.
Qed.

Lemma linked_mid (path : @Path num) (l1 l3 : list (@Cusp num))
  (a b : @Cusp num) :
  linked path (l1 ++ a :: b :: l3) -> far path a b.
Proof.
  induction l1 as [|x [|y l1] IH]; simpl in *; intros H; tauto.
Qed.

Lemma linked_prefix (path : @Path num) (l1 l2 : list (@Cusp num)) :
  linked path (l1 ++ l2) -> linked path l1.
Proof.
  induction l1 as [|x [|y l1] IH]; simpl in *; intros H; tauto.
Qed.


(** Replacing the last cusp of a linked list by one that is as far from the
    cusp before it. *)
Lemma linked_replace_last (path : @Path num) (l : list (@Cusp num))
  (a b' : @Cusp num) :
  linked path (l ++ [a]) ->
  (forall l' x, l = l' ++ [x] -> far path x a -> far path x b') ->
  linked path (l ++ [b']).
Proof.
  induction l as [|x [|y l] IH]; simpl in *; intros H T; try tauto.
  - split; [|exact I]. apply (T [] x); tauto.
  - destruct H as [H1 H2]. split; [assumption|]. apply IH; [assumption|].
    intros l' z E. apply (T (x :: l') z). simpl. now rewrite E.
Qed.

(** *** One scan of the merger on a closed path *)

Section Scan.

Variables (paths0 : list (@Path num)) (i : nat) (path : @Path num).
Hypothesis P : nth_error paths0 i = Some path.
Hypothesis C : closed path.

Local Abbreviation scanning := (Closed.scanning paths0 i path).
Local Abbreviation scanned := (Closed.scanned paths0 i path).

Lemma max_merge_15 : @MAX_CUSP_MERGE_DISTANCE num = 15.
Proof. reflexivity. Qed.

Lemma far_self (c : @Cusp num) : located paths0 i path c -> ~ far path c c.
Proof.
  intros [(_ & _ & J) _]. unfold far. rewrite max_merge_15.
  unfold idx. rewrite real_arc_diag by assumption. lra.
Qed.

Lemma far_idx_l (a a' b : @Cusp num) :
  idx a' = idx a -> far path a b -> far path a' b.
Proof. unfold far. now intros ->. Qed.

Lemma far_idx_r (a b b' : @Cusp num) :
  idx b' = idx b -> far path a b -> far path a b'.
Proof. unfold far. now intros ->. Qed.

(** A vertex met on the way from [a] keeps what lies beyond it far. *)
Lemma far_beyond (a m t : nat) (x y : @Cusp num) :
  idx x = a -> idx y = t ->
  (a < length path)%nat -> (m < length path)%nat -> (t < length path)%nat ->
  (steps (length path) a m <= steps (length path) a t)%nat ->
  @MAX_CUSP_MERGE_DISTANCE num < real_arc path a m ->
  far path x y.
Proof.
  intros <- <- A M T S F. unfold far.
  rewrite (real_arc_split path (idx x) m (idx y) A M T S).
  pose proof (real_arc_nonneg path m (idx y)). lra.
Qed.

(** ... and a vertex met on the way to [t] too. *)
Lemma far_before (a m t : nat) (x y : @Cusp num) :
  idx x = a -> idx y = t ->
  (a < length path)%nat -> (m < length path)%nat -> (t < length path)%nat ->
  (steps (length path) a m <= steps (length path) a t)%nat ->
  @MAX_CUSP_MERGE_DISTANCE num < real_arc path m t ->
  far path x y.
Proof.
  intros <- <- A M T S F. unfold far.
  rewrite (real_arc_split path (idx x) m (idx y) A M T S).
  pose proof (real_arc_nonneg path (idx x) m). lra.
Qed.

(** On located cusps [merge] decides by the arc alone: on a closed path the
    points of two cusps are not further apart than the arc between them is
    long. *)
Lemma merge_located (a b : @Cusp num) :
  located paths0 i path a -> located paths0 i path b ->
  (far path a b /\ merge a b = Ret (false, b))
  \/ (~ far path a b
      /\ exists b', merge a b = Ret (true, b')
                    /\ located paths0 i path b'
                    /\ (idx b' = idx a \/ idx b' = idx b)).
Proof.
  intros [(Pa & Ia & Ja) La] [(Pb & Ib & Jb) Lb].
  assert (D : @cabs num (csub (point b) (point a))
              <= real_arc path (idx a) (idx b)).
  { rewrite La, Lb. apply (chord_le_arc path _ _ C); assumption. }
  unfold merge. rewrite Ib, Ia, Nat.eqb_refl. cbn [negb].
  rewrite Pa. unfold getitem. rewrite P. cbn [bind].
  rewrite walk_arc by assumption. cbn [bind].
  fold (arc_length path (snd (index a)) (snd (index b))).
  fold (real_arc path (snd (index a)) (snd (index b))).
  fold (idx a) (idx b). unfold fgtb, far. rewrite max_merge_15.
  cbn [fltb num].
  destruct (Rlt_dec 15 (real_arc path (idx a) (idx b))) as [F|F].
  - left. split; [assumption|].
    destruct (ltb 15 (cabs (csub (point b) (point a)))); [reflexivity|].
    now rewrite (proj2 (ltb_true _ _) F).
  - right. split; [assumption|].
    rewrite (proj2 (ltb_false 15 (cabs (csub (point b) (point a)))))
      by (cbn [pyfloat num] in *; lra).
    rewrite (proj2 (ltb_false 15 (real_arc path (idx a) (idx b)))) by lra.
    eexists. split; [reflexivity|].
    destruct (ltb (fabs (angle b)) (fabs (angle a))); cbn [fabs num];
      (split; [split; [now repeat split|assumption]|]); cbn; auto.
Qed.

Lemma merger_step_no_merge (l : list (@Cusp num)) (j : nat)
  (a b : @Cusp num) :
  nth_error l j = Some a ->
  nth_error l ((j + 1) mod length l) = Some b ->
  merge a b = Ret (false, b) ->
  merger_step l j = Ret (l, (j + 1)%nat).
Proof.
  intros A B M. unfold merger_step, getitem. rewrite A. cbn [bind].
  assert (L : (0 < length l)%nat).
  { assert (j < length l)%nat by (apply nth_error_Some; congruence). lia. }
  rewrite pymod_Ret by assumption. cbn [bind]. rewrite B. cbn [bind].
  rewrite M. cbn [bind]. now rewrite setitem_same.
Qed.

Lemma merger_step_merge (l : list (@Cusp num)) (j : nat)
  (a b b' : @Cusp num) :
  nth_error l j = Some a ->
  nth_error l ((j + 1) mod length l) = Some b ->
  merge a b = Ret (true, b') ->
  merger_step l j
  = Ret (firstn j (setitem ((j + 1) mod length l) b' l)
         ++ skipn (S j) (setitem ((j + 1) mod length l) b' l), j).
Proof.
  intros A B M. unfold merger_step, getitem. rewrite A. cbn [bind].
  assert (J : (j < length l)%nat) by (apply nth_error_Some; congruence).
  rewrite pymod_Ret by lia. cbn [bind]. rewrite B. cbn [bind].
  rewrite M. cbn [bind]. unfold pop. rewrite setitem_length.
  apply Nat.ltb_lt in J. now rewrite J.
Qed.

Lemma located_lt (c : @Cusp num) :
  located paths0 i path c -> (idx c < length path)%nat.
Proof. now intros [(_ & _ & J) _]. Qed.

Lemma firstn_succ_app (l1 l2 : list (@Cusp num)) (a : @Cusp num) :
  firstn (S (length l1)) (l1 ++ a :: l2) = l1 ++ [a].
Proof.
  rewrite firstn_app, firstn_all2 by lia.
  now replace (S (length l1) - length l1)%nat with 1%nat by lia.
Qed.

Lemma firstn_succ_succ_app (l1 l2 : list (@Cusp num)) (a b : @Cusp num) :
  firstn (S (S (length l1))) (l1 ++ a :: b :: l2) = l1 ++ [a; b].
Proof.
  rewrite firstn_app, firstn_all2 by lia.
  now replace (S (S (length l1)) - length l1)%nat with 2%nat by lia.
Qed.

(** An iteration in the middle of the list keeps the state of the scan. *)
Lemma scanning_middle (l1 l3 : list (@Cusp num)) (a b : @Cusp num) :
  scanning (l1 ++ a :: b :: l3) (length l1) ->
  (merger_step (l1 ++ a :: b :: l3) (length l1)
   = Ret (l1 ++ a :: b :: l3, S (length l1))
   /\ scanning (l1 ++ a :: b :: l3) (S (length l1)))
  \/ (exists b',
        merger_step (l1 ++ a :: b :: l3) (length l1)
        = Ret (l1 ++ b' :: l3, length l1)
        /\ scanning (l1 ++ b' :: l3) (length l1)).
Proof.
  intros (G & I & K).
  assert (Na : nth_error (l1 ++ a :: b :: l3) (length l1) = Some a).
  { rewrite nth_error_app2 by lia. now rewrite Nat.sub_diag. }
  assert (Nb : nth_error (l1 ++ a :: b :: l3)
                 ((length l1 + 1) mod length (l1 ++ a :: b :: l3)) = Some b).
  { rewrite Nat.mod_small by (rewrite length_app; simpl; lia).
    rewrite nth_error_app2 by lia.
    now replace (length l1 + 1 - length l1)%nat with 1%nat by lia. }
  assert (Ga : located paths0 i path a)
    by (eapply Forall_forall; eauto using nth_error_In).
  assert (Gb : located paths0 i path b)
    by (eapply Forall_forall; eauto using nth_error_In).
  rewrite firstn_succ_app in K.
  destruct (merge_located a b Ga Gb) as [[F M]|[F (b' & M & Gb' & E)]].
  - left. split.
    + rewrite (merger_step_no_merge _ _ a b Na Nb M). f_equal. f_equal. lia.
    + repeat split; try assumption.
      rewrite firstn_succ_succ_app. now apply linked_app_pair.
  - right. exists b'. split.
    + rewrite (merger_step_merge _ _ a b b' Na Nb M). f_equal. f_equal.
      rewrite Nat.mod_small by (rewrite length_app; simpl; lia).
      rewrite setitem_app. cbn [setitem].
      apply (firstn_skipn_middle l1 (b' :: l3) a).
    + rewrite map_app in I. simpl in I.
      apply increasing_app in I as (I1 & I2 & I3).
      destruct I2 as (Fa & Fb & I4).
      assert (Lab : (idx a < idx b)%nat) by (now inversion Fa).
      inversion Fa as [|? ? _ Fa']; subst.
      repeat split.
      * apply Forall_app in G as [G1 G2]. inversion G2 as [|? ? _ G3]; subst.
        inversion G3; subst. apply Forall_app. split; auto.
      * rewrite map_app. simpl. apply increasing_app. repeat split; auto.
        -- destruct E as [-> | ->]; assumption.
        -- intros x y Hx [<-|Hy].
           ++ destruct E as [-> | ->]; apply I3; simpl; auto.
           ++ apply I3; simpl; auto.
      * rewrite firstn_succ_app.
        apply (linked_replace_last path l1 a b' K).
        intros l' x -> Fx.
        assert (Gx : located paths0 i path x).
        { eapply Forall_forall; [exact G|]. apply in_or_app. left.
          apply in_or_app. right. now left. }
        assert (Lxa : (idx x < idx a)%nat).
        { apply I3; [|now left]. rewrite map_app. apply in_or_app.
          right. now left. }
        destruct E as [E|E]; [now apply (far_idx_r x a b')|].
        pose proof (located_lt _ Gx). pose proof (located_lt _ Ga).
        pose proof (located_lt _ Gb).
        apply (far_beyond (idx x) (idx a) (idx b)); auto.
        rewrite !steps_small by lia. lia.
Qed.

(** The iteration at the last index, which pairs the last cusp with the
    first, ends the scan. *)
Lemma scanning_end (l1 : list (@Cusp num)) (a b : @Cusp num) :
  scanning (b :: l1 ++ [a]) (S (length l1)) ->
  (merger_step (b :: l1 ++ [a]) (S (length l1))
   = Ret (b :: l1 ++ [a], S (S (length l1)))
   /\ scanned (b :: l1 ++ [a]))
  \/ (exists b',
        merger_step (b :: l1 ++ [a]) (S (length l1))
        = Ret (b' :: l1, S (length l1))
        /\ scanned (b' :: l1)).
Proof.
  intros (G & I & K).
  assert (Len : length (b :: l1 ++ [a]) = S (S (length l1)))
    by (simpl; rewrite length_app; simpl; lia).
  assert (Na : nth_error (b :: l1 ++ [a]) (S (length l1)) = Some a).
  { simpl. rewrite nth_error_app2 by lia. now rewrite Nat.sub_diag. }
  assert (Nb : nth_error (b :: l1 ++ [a])
                 ((S (length l1) + 1) mod length (b :: l1 ++ [a])) = Some b).
  { rewrite Len. replace (S (length l1) + 1)%nat with (S (S (length l1)))
      by lia. now rewrite Nat.Div0.mod_same. }
  assert (Ga : located paths0 i path a)
    by (eapply Forall_forall; eauto using nth_error_In).
  assert (Gb : located paths0 i path b)
    by (eapply Forall_forall; eauto using nth_error_In).
  rewrite <- Len, firstn_all in K.
  assert (G1 : Forall (located paths0 i path) l1).
  { inversion G as [|? ? _ G']; subst. now apply Forall_app in G' as [G1 _]. }
  destruct (merge_located a b Ga Gb) as [[F M]|[F (b' & M & Gb' & E)]].
  - left. split.
    + rewrite (merger_step_no_merge _ _ a b Na Nb M). f_equal. f_equal. lia.
    + split; [assumption|]. left. split; [assumption|].
      change (b :: l1 ++ [a]) with ((b :: l1) ++ [a]).
      now rewrite last_last.
  - right. exists b'. split.
    + rewrite (merger_step_merge _ _ a b b' Na Nb M). f_equal. f_equal.
      rewrite Len. replace (S (length l1) + 1)%nat with (S (S (length l1)))
        by lia. rewrite Nat.Div0.mod_same. cbn [setitem].
      change (b' :: l1 ++ [a]) with ((b' :: l1) ++ [a]).
      change (S (length l1)) with (length (b' :: l1)).
      rewrite (firstn_skipn_middle (b' :: l1) [] a). apply app_nil_r.
    + split; [now constructor|].
      simpl in I. destruct I as [Ib I]. rewrite map_app in Ib, I.
      apply increasing_app in I as (_ & _ & I). rewrite Forall_forall in Ib.
      assert (Below : forall x, In x l1 -> (idx b < idx x < idx a)%nat).
      { intros x Hx. split.
        - apply Ib. apply in_or_app. left. now apply in_map.
        - apply I; [now apply in_map | now left]. }
      destruct l1 as [|q l1t]; [right; simpl; lia|]. left.
      assert (Gq : located paths0 i path q) by (now inversion G1).
      pose proof (located_lt _ Ga) as Ba. pose proof (located_lt _ Gb) as Bb.
      pose proof (located_lt _ Gq) as Bq.
      pose proof (Below q (or_introl eq_refl)) as Lq.
      change (far path b q /\ linked path ((q :: l1t) ++ [a])) in K.
      destruct K as [Fbq K].
      split.
      * change (far path b' q /\ linked path (q :: l1t)). split.
        -- destruct E as [E|E]; [|now apply (far_idx_l b b' q)].
           apply (far_before (idx a) (idx b) (idx q)); auto.
           rewrite !steps_wrap by lia. lia.
        -- apply (linked_prefix path (q :: l1t) [a]). exact K.
      * destruct (exists_last (l := q :: l1t)) as (l1h & x & Ex);
          [discriminate|].
        change (b' :: q :: l1t) with ([b'] ++ q :: l1t).
        rewrite Ex, app_assoc, last_last.
        assert (Fxa : far path x a).
        { apply (linked_mid path l1h [] x a).
          rewrite Ex, <- app_assoc in K. exact K. }
        assert (Hx : In x (q :: l1t))
          by (rewrite Ex; apply in_or_app; right; now left).
        assert (Gx : located paths0 i path x)
          by (eapply Forall_forall; [exact G1 | exact Hx]).
        pose proof (Below x Hx) as Lx.
        pose proof (located_lt _ Gx) as Bx.
        destruct E as [E|E]; [now apply (far_idx_r x a b')|].
        apply (far_beyond (idx x) (idx a) (idx b)); auto.
        rewrite steps_small, steps_wrap by lia. lia.
Qed.

(** A lone cusp merges with itself. *)
Lemma scanning_alone (a : @Cusp num) :
  located paths0 i path a -> merger_step [a] 0 = Ret ([], 0%nat).
Proof.
  intros Ga.
  destruct (merge_located a a Ga Ga) as [[F _]|[_ (b' & M & _)]].
  - now apply far_self in F.
  - now rewrite (merger_step_merge [a] 0 a a b' eq_refl eq_refl M).
Qed.

Lemma merger_loop_step (fuel : nat) (l l' : list (@Cusp num)) (j j' : nat) :
  (j < length l)%nat -> merger_step l j = Ret (l', j') ->
  merger_loop (S fuel) l j = merger_loop fuel l' j'.
Proof.
  intros J S. cbn [merger_loop]. apply Nat.ltb_lt in J. now rewrite J, S.
Qed.

(** A scan leaves every cusp far from the next one round the path, or at
    most one cusp. *)
Lemma scan (fuel : nat) :
  forall (l : list (@Cusp num)) (j : nat) (out : list (@Cusp num)),
    (j < length l)%nat -> scanning l j ->
    merger_loop fuel l j = Ret out -> scanned out.
Proof.
  induction fuel as [|fuel IH]; intros l j out J Sc M.
  - simpl in M. apply Nat.ltb_lt in J. rewrite J in M. discriminate.
  - destruct (nth_error l j) as [a|] eqn:Na;
      [|apply nth_error_None in Na; lia].
    destruct (nth_error_split l j Na) as (l1 & l2 & -> & <-).
    destruct l2 as [|b l3].
    + destruct l1 as [|b l1].
      * assert (Ga : located paths0 i path a).
        { destruct Sc as (G & _). now inversion G. }
        rewrite (merger_loop_step fuel _ _ _ _ J (scanning_alone a Ga)) in M.
        rewrite merger_loop_done in M by (simpl; lia).
        inversion M; subst. split; [constructor | right; simpl; lia].
      * change ((b :: l1) ++ [a]) with (b :: l1 ++ [a]) in *.
        change (length (b :: l1)) with (S (length l1)) in *.
        destruct (scanning_end l1 a b Sc) as [[St Sd]|(b' & St & Sd)];
          rewrite (merger_loop_step fuel _ _ _ _ J St) in M;
          rewrite merger_loop_done in M
            by (simpl; rewrite ?length_app; simpl; lia);
          now inversion M; subst.
    + destruct (scanning_middle l1 l3 a b Sc) as [[St Sc']|(b' & St & Sc')];
        rewrite (merger_loop_step fuel _ _ _ _ J St) in M;
        (eapply IH; [|exact Sc'|exact M]);
        rewrite length_app in *; simpl in *; lia.
Qed.

Lemma cyclic_far_linked (l : list (@Cusp num)) :
  cyclic_far path l -> linked path l.
Proof. destruct l; [intros [] | now intros [H _]]. Qed.

Lemma cyclic_far_last (h : @Cusp num) (t : list (@Cusp num)) :
  cyclic_far path (h :: t) -> far path (last (h :: t) h) h.
Proof. now intros [_ H]. Qed.

(** On a list the scan left with more than one cusp, a second scan merges
    nothing. *)
Lemma rerun_step (l : list (@Cusp num)) (j : nat) :
  Forall (located paths0 i path) l -> cyclic_far path l ->
  (j < length l)%nat ->
  merger_step l j = Ret (l, (j + 1)%nat).
Proof.
  intros G Cy J.
  destruct (nth_error l j) as [a|] eqn:Na;
    [|apply nth_error_None in Na; lia].
  assert (Ga : located paths0 i path a)
    by (eapply Forall_forall; eauto using nth_error_In).
  assert (X : exists b, nth_error l ((j + 1) mod length l) = Some b
                        /\ far path a b).
  { destruct (popped_shape l j a a Na)
      as [(l1 & b & l3 & E & _ & Nb & _)
         |[(b & l1 & E & _ & Nb & _)|(E & _ & Nb & _)]].
    - exists b. split; [assumption|]. subst l.
      apply (linked_mid path l1 l3 a b). now apply cyclic_far_linked.
    - exists b. split; [assumption|]. subst l.
      apply cyclic_far_last in Cy.
      change (b :: l1 ++ [a]) with ((b :: l1) ++ [a]) in Cy.
      now rewrite last_last in Cy.
    - subst l. apply cyclic_far_last in Cy. now apply far_self in Cy. }
  destruct X as (b & Nb & F).
  assert (Gb : located paths0 i path b)
    by (eapply Forall_forall; eauto using nth_error_In).
  destruct (merge_located a b Ga Gb) as [[_ M]|[F' _]]; [|contradiction].
  exact (merger_step_no_merge l j a b Na Nb M).
Qed.

Lemma rerun (l : list (@Cusp num)) :
  Forall (located paths0 i path) l -> cyclic_far path l ->
  forall (m j fuel : nat),
    (length l - j = m)%nat -> (m <= fuel)%nat ->
    merger_loop fuel l j = Ret l.
Proof.
  intros G Cy. induction m as [|m IH]; intros j fuel M F.
  - apply merger_loop_done. lia.
  - destruct fuel as [|fuel]; [lia|].
    rewrite (merger_loop_step fuel l l j (j + 1)) by
      (try lia; apply rerun_step; auto; lia).
    apply IH; lia.
Qed.

(** *** The cusps the detector returns *)

Lemma increasing_seq (len s : nat) : increasing (seq s len).
Proof.
  revert s. induction len as [|len IH]; intros s; simpl; [exact I|].
  split; [|apply IH]. apply Forall_forall. intros x H. apply in_seq in H.
  lia.
Qed.

Lemma increasing_filter (f : @Cusp num -> bool) (l : list (@Cusp num)) :
  increasing (map idx l) -> increasing (map idx (filter f l)).
Proof.
  induction l as [|c l IH]; simpl; [trivial|]. intros [F I].
  destruct (f c); simpl; [|now apply IH]. split; [|now apply IH].
  apply Forall_forall. intros x H. apply in_map_iff in H as (c' & <- & H).
  apply filter_In in H as [H _]. rewrite Forall_forall in F. apply F.
  now apply in_map.
Qed.

Lemma new_Cusp_located (j : nat) (c : @Cusp num) :
  new_Cusp paths0 (i, j) = Ret c -> located paths0 i path c /\ idx c = j.
Proof.
  unfold new_Cusp, getitem at 1. rewrite P. cbn [bind]. unfold getitem at 1.
  destruct (nth_error path j) as [s|] eqn:E; [|discriminate]. cbn [bind].
  destruct (_get_tangents path j) as [[t1 t2]| |]; try discriminate.
  cbn [bind]. intros H. inversion H; subst. clear H.
  assert (J : (j < length path)%nat) by (apply nth_error_Some; congruence).
  unfold located, cusp_of, idx, vertex. simpl. rewrite E. auto.
Qed.

Lemma detect_scanning (cusps : list (@Cusp num)) :
  detect paths0 i path = Ret cusps -> scanning cusps 0.
Proof.
  intros D. destruct (vertices_exist paths0 i path P) as (vs & V & _).
  rewrite (detect_filter paths0 i path vs V) in D. inversion D; subst.
  clear D.
  assert (K : Forall (located paths0 i path) vs
              /\ map idx vs = seq 0 (length path)).
  { unfold vertices in V. revert V. generalize (seq 0 (length path)).
    intros js V. induction V as [|j c js vs H _ [IH1 IH2]].
    - split; [constructor | reflexivity].
    - apply new_Cusp_located in H as [H1 H2]. split.
      + now constructor.
      + simpl. now rewrite H2, IH2. }
  destruct K as [K1 K2]. repeat split.
  - apply Forall_forall. intros c H. apply filter_In in H as [H _].
    revert c H. now apply Forall_forall.
  - apply increasing_filter. rewrite K2. apply increasing_seq.
  - destruct (filter is_cusp vs) as [|c [|d l]]; exact I.
Qed.


End Scan.

End Stability.

Section StabilityOnExamples.

Import Exact Closed Examples.

Lemma real_square_closed : closed real_square.
Proof.
  intros k K. destruct k as [|[|[|[|k]]]]; try reflexivity.
  simpl in K. lia.
Qed.


End StabilityOnExamples.

(** ** Strings *)

Section Strings.

Lemma startswith_iff (sub : pystr) :
  forall s : pystr, startswith s sub = true <-> exists post, s = sub ++ post.
Proof.
  induction sub as [|c sub IH]; intros s; simpl.
  - split; [intros _; now exists s | reflexivity].
  - destruct s as [|d s].
    + split; [discriminate | intros [post E]; discriminate].
    + rewrite andb_true_iff, Ascii.eqb_eq, IH. split.
      * intros [-> [post ->]]. now exists post.
      * intros [post E]. injection E as -> ->. split; [reflexivity|].
        now exists post.
Qed.

Lemma occurs_at_skipn (sub s : pystr) (k : nat) :
  occurs_at sub s k <-> k <= length s /\ startswith (skipn k s) sub = true.
Proof.
  split.
  - intros (pre & post & -> & <-). split.
    + rewrite length_app. lia.
    + rewrite skipn_app, skipn_all, Nat.sub_diag. simpl.
      apply startswith_iff. now exists post.
  - intros [L H]. apply startswith_iff in H as [post E].
    exists (firstn k s), post. split.
    + rewrite <- E. symmetry. apply firstn_skipn.
    + rewrite length_firstn. lia.
Qed.

Lemma occurs_at_cons (sub s : pystr) (c : ascii) (k : nat) :
  occurs_at sub (c :: s) (S k) <-> occurs_at sub s k.
Proof. rewrite !occurs_at_skipn. simpl. split; intros [H1 H2]; split; auto; lia. Qed.

Lemma occurs_at_app (sub pre s : pystr) (k : nat) :
  occurs_at sub (pre ++ s) (length pre + k) <-> occurs_at sub s k.
Proof.
  induction pre as [|c pre IH]; simpl; [reflexivity|].
  now rewrite occurs_at_cons.
Qed.

Lemma occurs_at_bound (sub s : pystr) (k : nat) :
  occurs_at sub s k -> k + length sub <= length s.
Proof.
  intros (pre & post & -> & <-). rewrite !length_app. lia.
Qed.

(** An occurrence in [s[0:stop]] is an occurrence in [s] that ends by
    [stop]. *)
Lemma occurs_at_firstn (sub s : pystr) (stop k : nat) :
  stop <= length s ->
  occurs_at sub (firstn stop s) k
  <-> occurs_at sub s k /\ k + length sub <= stop.
Proof.
  intros L. split.
  - intros H. pose proof (occurs_at_bound _ _ _ H) as B.
    rewrite length_firstn in B. split; [|lia].
    destruct H as (pre & post & E & <-).
    exists pre, (post ++ skipn stop s). split; [|reflexivity].
    rewrite <- (firstn_skipn stop s) at 1. rewrite E.
    now rewrite <- !app_assoc.
  - intros [(pre & post & -> & <-) B].
    exists pre, (firstn (stop - length pre - length sub) post).
    split; [|reflexivity].
    rewrite firstn_app. rewrite firstn_all2 by lia.
    rewrite firstn_app. rewrite firstn_all2 by lia.
    reflexivity.
Qed.

Lemma occurs_at_char (c : ascii) (s : pystr) (k : nat) :
  occurs_at [c] s k <-> nth_error s k = Some c.
Proof.
  split.
  - intros (pre & post & -> & <-). rewrite nth_error_app2 by lia.
    now rewrite Nat.sub_diag.
  - intros H. apply nth_error_split in H as (pre & post & -> & <-).
    now exists pre, post.
Qed.

Lemma find_from_spec (sub : pystr) :
  forall (s : pystr) (pos : nat),
    (find_from s sub pos = (-1)%Z /\ absent sub s)
    \/ (exists k, find_from s sub pos = Z.of_nat (pos + k)
                  /\ first_at sub s k).
Proof.
  induction s as [|c s IH]; intros pos; simpl.
  - destruct (startswith [] sub) eqn:E.
    + right. exists 0. rewrite Nat.add_0_r. split; [reflexivity|].
      split; [|intros k' K; lia].
      apply occurs_at_skipn. simpl. split; [lia | exact E].
    + left. split; [reflexivity|]. intros k H.
      apply occurs_at_skipn in H as [L H]. simpl in L.
      replace k with 0 in H by lia. simpl in H. congruence.
  - destruct (startswith (c :: s) sub) eqn:E.
    + right. exists 0. rewrite Nat.add_0_r. split; [reflexivity|].
      split; [|intros k' K; lia].
      apply occurs_at_skipn. simpl. split; [lia | exact E].
    + destruct (IH (S pos)) as [[F A]|(k & F & O & M)].
      * left. split; [exact F|]. intros [|k] H.
        -- apply occurs_at_skipn in H as [_ H]. simpl in H. congruence.
        -- apply occurs_at_cons in H. exact (A k H).
      * right. exists (S k). split; [rewrite F; f_equal; lia|].
        split; [now apply occurs_at_cons|].
        intros [|k'] K H.
        -- apply occurs_at_skipn in H as [_ H]. simpl in H. congruence.
        -- apply occurs_at_cons in H. apply (M k'); [lia | exact H].
Qed.

(** [find]: the first occurrence at or after [start], or [-1] when there is
    none. *)
Lemma find_spec (s sub : pystr) (start : nat) :
  (find s sub start = (-1)%Z
   /\ forall k, start <= k -> ~ occurs_at sub s k)
  \/ (exists k, find s sub start = Z.of_nat k
                /\ start <= k /\ occurs_at sub s k
                /\ forall k', start <= k' -> k' < k -> ~ occurs_at sub s k').
Proof.
  unfold find. destruct (length s <? start) eqn:L.
  - apply Nat.ltb_lt in L. left. split; [reflexivity|]. intros k K H.
    apply occurs_at_bound in H. lia.
  - apply Nat.ltb_ge in L.
    assert (E : forall k, occurs_at sub s (start + k)
                          <-> occurs_at sub (skipn start s) k).
    { intros k.
      assert (F : length (firstn start s) = start)
        by (rewrite length_firstn; lia).
      rewrite <- (occurs_at_app sub (firstn start s) (skipn start s) k).
      now rewrite firstn_skipn, F. }
    destruct (find_from_spec sub (skipn start s) start)
      as [[F A]|(k & F & O & M)].
    + left. split; [exact F|]. intros k K H.
      replace k with (start + (k - start)) in H by lia.
      apply E in H. exact (A _ H).
    + right. exists (start + k). split; [exact F|]. split; [lia|].
      split; [now apply E|]. intros k' K1 K2 H.
      replace k' with (start + (k' - start)) in H by lia.
      apply E in H. apply (M (k' - start)); [lia | exact H].
Qed.

Lemma rfind_from_spec (sub : pystr) :
  forall (s : pystr) (pos : nat) (best : Z),
    (rfind_from s sub pos best = best /\ absent sub s)
    \/ (exists k, rfind_from s sub pos best = Z.of_nat (pos + k)
                  /\ occurs_at sub s k
                  /\ forall k', k < k' -> ~ occurs_at sub s k').
Proof.
  induction s as [|c s IH]; intros pos best; simpl.
  - destruct (startswith [] sub) eqn:E.
    + right. exists 0. rewrite Nat.add_0_r. split; [reflexivity|]. split.
      * apply occurs_at_skipn. simpl. split; [lia | exact E].
      * intros k' K H. apply occurs_at_bound in H. simpl in H. lia.
    + left. split; [reflexivity|]. intros k H.
      apply occurs_at_skipn in H as [L H]. simpl in L.
      replace k with 0 in H by lia. simpl in H. congruence.
  - destruct (IH (S pos)
                (if startswith (c :: s) sub then Z.of_nat pos else best))
      as [[F A]|(k & F & O & M)].
    + destruct (startswith (c :: s) sub) eqn:E.
      * right. exists 0. rewrite Nat.add_0_r. split; [exact F|]. split.
        -- apply occurs_at_skipn. simpl. split; [lia | exact E].
        -- intros [|k'] K H; [lia|]. apply occurs_at_cons in H.
           exact (A _ H).
      * left. split; [exact F|]. intros [|k] H.
        -- apply occurs_at_skipn in H as [_ H]. simpl in H. congruence.
        -- apply occurs_at_cons in H. exact (A _ H).
    + right. exists (S k). split; [rewrite F; f_equal; lia|].
      split; [now apply occurs_at_cons|].
      intros [|k'] K H; [lia|]. apply occurs_at_cons in H.
      apply (M k'); [lia | exact H].
Qed.

(** [rfind]: the last occurrence that ends by [stop], or [-1] when there is
    none. *)
Lemma rfind_spec (s sub : pystr) (stop : nat) :
  stop <= length s ->
  (rfind s sub stop = (-1)%Z
   /\ forall k, k + length sub <= stop -> ~ occurs_at sub s k)
  \/ (exists k, rfind s sub stop = Z.of_nat k
                /\ k + length sub <= stop /\ occurs_at sub s k
                /\ forall k', k < k' -> k' + length sub <= stop ->
                              ~ occurs_at sub s k').
Proof.
  intros L. unfold rfind.
  destruct (rfind_from_spec sub (firstn stop s) 0 (-1)%Z)
    as [[F A]|(k & F & O & M)].
  - left. split; [exact F|]. intros k K H.
    apply (A k). apply occurs_at_firstn; auto.
  - right. exists k. split; [exact F|].
    apply occurs_at_firstn in O as [O B]; [|exact L].
    repeat split; auto. intros k' K1 K2 H.
    apply (M k' K1). apply occurs_at_firstn; auto.
Qed.

Lemma slice_middle (pre s post : pystr) :
  slice (pre ++ s ++ post) (length pre) (length pre + length s) = s.
Proof.
  unfold slice. rewrite skipn_app, skipn_all, Nat.sub_diag. simpl.
  replace (length pre + length s - length pre) with (length s) by lia.
  rewrite firstn_app, firstn_all, Nat.sub_diag. simpl. apply app_nil_r.
Qed.

(** Replacing one character by another. *)
Lemma replace_char (a b : ascii) (s : pystr) :
  replace s [a] [b] = map (fun c => if Ascii.eqb c a then b else c) s.
Proof.
  unfold replace. induction s as [|c s IH]; simpl; [reflexivity|].
  rewrite andb_true_r, (Ascii.eqb_sym a c).
  destruct (Ascii.eqb c a); simpl; now rewrite IH.
Qed.

Lemma replace_from_skip (old new : pystr) :
  forall (passed s : pystr),
    replace_from (length passed) (passed ++ s) old new
    = replace_from 0 s old new.
Proof.
  induction passed as [|c passed IH]; intros s; simpl; [reflexivity|].
  apply IH.
Qed.

(** A string that starts with [old] is rewritten into one that starts with
    [new]. *)
Lemma replace_head (c : ascii) (old new s : pystr) :
  replace ((c :: old) ++ s) (c :: old) new
  = new ++ replace s (c :: old) new.
Proof.
  unfold replace. cbn [replace_from app].
  replace (startswith (c :: old ++ s) (c :: old)) with true.
  - f_equal. replace (length (c :: old) - 1) with (length old)
      by (simpl; lia).
    apply replace_from_skip.
  - symmetry. apply (startswith_iff (c :: old)). now exists s.
Qed.

End Strings.

(** ** The path data of a glyph *)

Section PathData.

Lemma find_absent (s sub : pystr) :
  find s sub 0 = (-1)%Z <-> absent sub s.
Proof.
  destruct (find_spec s sub 0) as [[F A]|(k & F & _ & O & _)].
  - split; [|intros _; exact F]. intros _ k. apply A. lia.
  - split; [lia|]. intros A. now destruct (A k).
Qed.

Lemma find_first (s sub : pystr) (k : nat) :
  find s sub 0 = Z.of_nat k <-> first_at sub s k.
Proof.
  destruct (find_spec s sub 0) as [[F A]|(k0 & F & _ & O & M)].
  - split; [lia|]. intros [H _]. destruct (A k); [lia | exact H].
  - split.
    + intros E. replace k with k0 by lia. split; [exact O|].
      intros k' K. apply M; lia.
    + intros [H1 H2]. rewrite F. f_equal.
      destruct (Nat.lt_trichotomy k0 k) as [L|[L|L]]; [|exact L|].
      * now destruct (H2 k0 L).
      * destruct (M k); [lia | exact L | exact H1].
Qed.

Lemma find_cases (s sub : pystr) :
  (find s sub 0 = (-1)%Z /\ absent sub s)
  \/ (exists k, find s sub 0 = Z.of_nat k /\ first_at sub s k).
Proof.
  destruct (find_spec s sub 0) as [[F A]|(k & F & _ & O & M)].
  - left. split; [exact F|]. now apply find_absent.
  - right. exists k. split; [exact F|]. now apply find_first.
Qed.

(** The first [c] after a stretch without [c]. *)
Lemma find_char_after (pre body post : pystr) (c : ascii) :
  ~ In c body ->
  find (pre ++ body ++ c :: post) [c] (length pre)
  = Z.of_nat (length pre + length body).
Proof.
  intros B.
  assert (H : occurs_at [c] (pre ++ body ++ c :: post)
                (length pre + length body)).
  { exists (pre ++ body), post. split.
    - now rewrite <- app_assoc.
    - apply length_app. }
  destruct (find_spec (pre ++ body ++ c :: post) [c] (length pre))
    as [[F A]|(k & F & K & O & M)].
  - destruct (A (length pre + length body)); [lia | exact H].
  - rewrite F. f_equal.
    destruct (Nat.lt_trichotomy k (length pre + length body)) as [L|[L|L]];
      [|exact L|].
    + apply occurs_at_char in O. rewrite nth_error_app2 in O by lia.
      rewrite nth_error_app1 in O by lia. apply nth_error_In in O.
      contradiction.
    + destruct (M (length pre + length body)); [lia | exact L | exact H].
Qed.

(** No [c] from [start] on. *)
Lemma find_char_none (pre rest : pystr) (c : ascii) :
  find (pre ++ rest) [c] (length pre) = (-1)%Z <-> ~ In c rest.
Proof.
  destruct (find_spec (pre ++ rest) [c] (length pre))
    as [[F A]|(k & F & K & O & M)].
  - split; [|intros _; exact F]. intros _ H.
    apply In_nth_error in H as [p H].
    apply (A (length pre + p)); [lia|].
    apply occurs_at_char. rewrite nth_error_app2 by lia.
    now replace (length pre + p - length pre) with p by lia.
  - split; [lia|]. intros B. exfalso. apply B.
    apply occurs_at_char in O. rewrite nth_error_app2 in O by lia.
    now apply nth_error_In in O.
Qed.

Lemma get_svg_path_data_eq (glyph : pystr) :
  get_svg_path_data glyph
  = let start := Z.max (find glyph (marker space) 0)
                   (find glyph (marker newline) 0) in
    if (start <? 0)%Z then Raise AssertionError
    else
      let end_ := find glyph [quote] (Z.to_nat start + 4) in
      if (end_ <? 0)%Z then Raise AssertionError
      else Ret (unfold_lines (slice glyph (Z.to_nat start + 4)
                                (Z.to_nat end_))).
Proof. unfold get_svg_path_data. rewrite !replace_char. reflexivity. Qed.

(** Where the reading starts: at the first [d=] after a space or the first
    after a newline, if there is one. *)
Lemma start_cases (glyph : pystr) :
  let start := Z.max (find glyph (marker space) 0)
                 (find glyph (marker newline) 0) in
  (start = (-1)%Z
   /\ absent (marker space) glyph /\ absent (marker newline) glyph)
  \/ (exists c k, (c = space \/ c = newline)
                  /\ start = Z.of_nat k
                  /\ first_at (marker c) glyph k).
Proof.
  cbv zeta.
  destruct (find_cases glyph (marker space)) as [[F1 A1]|(k1 & F1 & H1)];
    destruct (find_cases glyph (marker newline)) as [[F2 A2]|(k2 & F2 & H2)];
    rewrite F1, F2.
  - left. auto.
  - right. exists newline, k2. split; [auto|]. split; [lia | exact H2].
  - right. exists space, k1. split; [auto|]. split; [lia | exact H1].
  - right.
    destruct (Z.max_spec (Z.of_nat k1) (Z.of_nat k2)) as [[_ E]|[_ E]].
    + exists newline, k2. split; [auto|]. split; [lia | exact H2].
    + exists space, k1. split; [auto|]. split; [lia | exact H1].
Qed.

Lemma unfold_lines_clean (s : pystr) :
  ~ In quote s ->
  ~ In quote (unfold_lines s) /\ ~ In newline (unfold_lines s).
Proof.
  intros B. unfold unfold_lines. split; intros H;
    apply in_map_iff in H as (x & E & I);
    destruct (Ascii.eqb x newline) eqn:X; try discriminate.
  - subst x. contradiction.
  - subst x. discriminate.
Qed.

(** The attribute that is read: with [c] the character before the first
    [d=] of the glyph that follows a space, or a newline, whichever of the
    two comes later, the text up to the next double quote is returned,
    its newlines turned into spaces. *)
Theorem get_svg_path_data_reads (pre body post : pystr) (c c' : ascii)
  (K : (c = space /\ c' = newline) \/ (c = newline /\ c' = space))
  (F : first_at (marker c) (pre ++ marker c ++ body ++ quote :: post)
         (length pre))
  (O : forall k,
         first_at (marker c') (pre ++ marker c ++ body ++ quote :: post) k ->
         k < length pre)
  (B : ~ In quote body) :
  get_svg_path_data (pre ++ marker c ++ body ++ quote :: post)
  = Ret (unfold_lines body).
Proof.
  rewrite get_svg_path_data_eq.
  set (glyph := pre ++ marker c ++ body ++ quote :: post) in *.
  assert (S : Z.max (find glyph (marker space) 0)
                (find glyph (marker newline) 0)
              = Z.of_nat (length pre)).
  { apply find_first in F.
    destruct (find_cases glyph (marker c')) as [[F' _]|(k & F' & H)].
    - destruct K as [[-> ->]|[-> ->]]; rewrite F, F'; lia.
    - apply O in H.
      destruct K as [[-> ->]|[-> ->]]; rewrite F, F'; lia. }
  cbv zeta. rewrite S, Nat2Z.id.
  destruct (Z.ltb_spec (Z.of_nat (length pre)) 0) as [L|_]; [lia|].
  assert (G : glyph = (pre ++ marker c) ++ body ++ quote :: post).
  { unfold glyph. now rewrite <- app_assoc. }
  assert (L4 : length (pre ++ marker c) = length pre + 4).
  { rewrite length_app. reflexivity. }
  rewrite G, <- L4, (find_char_after _ _ _ _ B), Nat2Z.id.
  destruct (Z.ltb_spec (Z.of_nat (length (pre ++ marker c) + length body)) 0)
    as [L|_]; [lia|].
  now rewrite (slice_middle (pre ++ marker c) body (quote :: post)).
Qed.

(** What is returned is the text of a [d=] attribute of the glyph that
    follows a space or a newline: the text between its double quotes, with
    spaces for newlines.  It holds no double quote and no newline. *)
Theorem get_svg_path_data_sound (glyph d : pystr)
  (G : get_svg_path_data glyph = Ret d) :
  exists pre c body post,
    glyph = pre ++ marker c ++ body ++ quote :: post
    /\ (c = space \/ c = newline)
    /\ ~ In quote body
    /\ d = unfold_lines body
    /\ ~ In quote d
    /\ ~ In newline d.
Proof.
  rewrite get_svg_path_data_eq in G. cbv zeta in G.
  set (start := Z.max _ _) in G.
  destruct (Z.ltb_spec start 0) as [|S]; [discriminate|].
  destruct (start_cases glyph) as [[E _]|C]; [fold start in E; lia|].
  fold start in C.
  destruct C as (c & k & Kc & E & [(pre & rest & -> & <-) _]).
  rewrite E, Nat2Z.id in G. clear E S start.
  replace (pre ++ marker c ++ rest) with ((pre ++ marker c) ++ rest) in G
    by now rewrite <- app_assoc.
  replace (length pre + 4) with (length (pre ++ marker c)) in G
    by apply length_app.
  destruct (find_spec ((pre ++ marker c) ++ rest) [quote]
              (length (pre ++ marker c)))
    as [[F A]|(e & F & Ke & O & M)]; rewrite F in G; [discriminate|].
  destruct (Z.ltb_spec (Z.of_nat e) 0) as [|_]; [lia|].
  rewrite Nat2Z.id in G.
  apply occurs_at_char in O. rewrite nth_error_app2 in O by lia.
  apply nth_error_split in O as (body & post & -> & Lb).
  assert (B : ~ In quote body).
  { intros H. apply In_nth_error in H as [p H].
    assert (P : p < length body) by (apply nth_error_Some; congruence).
    apply (M (length (pre ++ marker c) + p)); [lia | lia |].
    apply occurs_at_char. rewrite nth_error_app2 by lia.
    replace (length (pre ++ marker c) + p - length (pre ++ marker c))
      with p by lia.
    now rewrite nth_error_app1. }
  replace e with (length (pre ++ marker c) + length body) in G by lia.
  rewrite (slice_middle (pre ++ marker c) body (quote :: post)) in G.
  injection G as <-.
  exists pre, c, body, post. split; [reflexivity|].
  split; [exact Kc|]. split; [exact B|]. split; [reflexivity|].
  now apply unfold_lines_clean.
Qed.

(** The assertions fail in two cases: the glyph has no [d=] after a space
    or a newline; or the one that is read (it is the first after its
    character, and the last of all) has no double quote after it. *)
Theorem get_svg_path_data_raises (glyph : pystr) :
  get_svg_path_data glyph = Raise AssertionError
  <-> (absent (marker space) glyph /\ absent (marker newline) glyph)
      \/ exists pre c rest,
           glyph = pre ++ marker c ++ rest
           /\ (c = space \/ c = newline)
           /\ first_at (marker c) glyph (length pre)
           /\ ~ In quote rest.
Proof.
  rewrite get_svg_path_data_eq. cbv zeta. split.
  - set (start := Z.max _ _).
    destruct (Z.ltb_spec start 0) as [S|S]; intros G.
    + left. destruct (start_cases glyph) as [[_ A]|(c & k & _ & E & _)];
        [exact A | fold start in E; lia].
    + right.
      destruct (start_cases glyph) as [[E _]|C]; [fold start in E; lia|].
      fold start in C.
      destruct C as (c & k & Kc & E & H).
      pose proof H as [(pre & rest & -> & <-) _].
      exists pre, c, rest. repeat split; auto; try apply H.
      rewrite E, Nat2Z.id in G.
      replace (pre ++ marker c ++ rest) with ((pre ++ marker c) ++ rest) in G
        by now rewrite <- app_assoc.
      replace (length pre + 4) with (length (pre ++ marker c)) in G
        by apply length_app.
      apply (find_char_none (pre ++ marker c) rest quote).
      destruct (find_spec ((pre ++ marker c) ++ rest) [quote]
                  (length (pre ++ marker c)))
        as [[F A]|(e & F & _)]; [exact F|].
      rewrite F in G.
      destruct (Z.ltb_spec (Z.of_nat e) 0) as [|_]; [lia | discriminate].
  - intros [[A1 A2]|(pre & c & rest & -> & Kc & F & B)].
    + apply find_absent in A1, A2. now rewrite A1, A2.
    + set (glyph := pre ++ marker c ++ rest) in *.
      assert (S : Z.max (find glyph (marker space) 0)
                    (find glyph (marker newline) 0)
                  = Z.of_nat (length pre)).
      { assert (O : forall c' k, occurs_at (marker c') glyph k ->
                                 k <= length pre).
        { intros c' k H.
          destruct (Nat.le_gt_cases k (length pre)) as [L|L]; [exact L|].
          exfalso. apply B.
          destruct H as (p & q & H & <-).
          assert (Q : nth_error glyph (length p + 3) = Some quote).
          { rewrite H, nth_error_app2 by lia.
            now replace (length p + 3 - length p) with 3 by lia. }
          unfold glyph in Q. rewrite nth_error_app2 in Q by lia.
          rewrite nth_error_app2 in Q by (simpl; lia).
          now apply nth_error_In in Q. }
        apply find_first in F.
        destruct Kc as [-> | ->].
        - destruct (find_cases glyph (marker newline))
            as [[F' _]|(k & F' & [H _])]; rewrite F, F'; [lia|].
          apply O in H. lia.
        - destruct (find_cases glyph (marker space))
            as [[F' _]|(k & F' & [H _])]; rewrite F, F'; [lia|].
          apply O in H. lia. }
      rewrite S, Nat2Z.id.
      destruct (Z.ltb_spec (Z.of_nat (length pre)) 0) as [|_]; [lia|].
      unfold glyph.
      replace (pre ++ marker c ++ rest) with ((pre ++ marker c) ++ rest)
        by now rewrite <- app_assoc.
      replace (length pre + 4) with (length (pre ++ marker c))
        by apply length_app.
      now rewrite (proj2 (find_char_none (pre ++ marker c) rest quote) B).
Qed.

End PathData.

(** ** The glyph lookup *)

Section GlyphLookup.

(** A glyph that is found is a piece of the file: it opens with [<glyph],
    the last one that ends before the attribute searched for, and closes
    with the first [/>] from the start of the attribute on; the attribute is
    at the place of its first occurrence in the file.  What is written out
    for it begins with [<path]. *)
Theorem find_glyph_sound (data codepoint glyph : pystr)
  (G : find_glyph data codepoint = Found glyph) :
  exists pre mid tail post,
    data = pre ++ str "<glyph" ++ mid ++ tail ++ str "/>" ++ post
    /\ glyph = str "<glyph" ++ mid ++ tail ++ str "/>"
    /\ first_at (unicode_attribute codepoint) data
         (length pre + 6 + length mid)
    /\ (forall k, length pre < k -> k <= length pre + length mid ->
                  ~ occurs_at (str "<glyph") data k)
    /\ (forall k, length pre + 6 + length mid <= k ->
                  k < length pre + 6 + length mid + length tail ->
                  ~ occurs_at (str "/>") data k)
    /\ replace glyph (str "<glyph") (str "<path")
       = str "<path"
         ++ replace (mid ++ tail ++ str "/>") (str "<glyph") (str "<path").
Proof.
  unfold find_glyph in G. cbv zeta in G.
  destruct (find_cases data (unicode_attribute codepoint))
    as [[F _]|(i & F & H)]; rewrite F in G; [discriminate|].
  destruct (Z.ltb_spec (Z.of_nat i) 0) as [|_]; [lia|].
  rewrite Nat2Z.id in G.
  assert (Li : i <= length data).
  { destruct H as [H _]. apply occurs_at_bound in H. lia. }
  destruct (rfind_spec data (str "<glyph") i Li)
    as [[R _]|(a & R & Ka & Oa & Ma)]; rewrite R in G; [discriminate|].
  destruct (find_spec data (str "/>") i)
    as [[E _]|(e & E & Ke & Oe & Me)]; rewrite E in G;
    [destruct (Z.of_nat a <? 0)%Z; discriminate|].
  destruct (Z.ltb_spec (Z.of_nat a) 0) as [|_]; [lia|].
  destruct (Z.ltb_spec (Z.of_nat e) 0) as [|_]; [lia|].
  simpl orb in G. rewrite !Nat2Z.id in G. injection G as <-.
  change (length (str "<glyph")) with 6 in *.
  change (length (str "/>")) with 2 in *.
  destruct Oa as (pre & r1 & D & La). subst a.
  set (mid := firstn (i - length pre - 6) r1).
  set (r2 := skipn (i - length pre - 6) r1).
  assert (L1 : i - length pre - 6 <= length r1).
  { rewrite D, !length_app in Li. simpl in Li. lia. }
  assert (Lm : length mid = i - length pre - 6).
  { unfold mid. rewrite length_firstn. lia. }
  assert (D2 : data = (pre ++ str "<glyph" ++ mid) ++ r2).
  { rewrite D, <- app_assoc. f_equal. rewrite <- app_assoc. f_equal.
    symmetry. apply firstn_skipn. }
  assert (L2 : length (pre ++ str "<glyph" ++ mid) = i).
  { rewrite !length_app, Lm. simpl. lia. }
  assert (Oe' : occurs_at (str "/>") r2 (e - i)).
  { apply (occurs_at_app (str "/>") (pre ++ str "<glyph" ++ mid) r2).
    rewrite <- D2, L2. now replace (i + (e - i)) with e by lia. }
  destruct Oe' as (tail & post & D3 & Lt).
  exists pre, mid, tail, post.
  assert (D4 : data = pre ++ str "<glyph" ++ mid ++ tail ++ str "/>" ++ post).
  { rewrite D2, D3, <- !app_assoc. reflexivity. }
  split; [exact D4|].
  assert (Lg : length pre + length (str "<glyph" ++ mid ++ tail ++ str "/>")
               = e + 2).
  { rewrite !length_app, Lm, Lt. simpl. lia. }
  assert (Eg : slice data (length pre) (e + 2)
               = str "<glyph" ++ mid ++ tail ++ str "/>").
  { rewrite <- Lg, D4.
    replace (pre ++ str "<glyph" ++ mid ++ tail ++ str "/>" ++ post)
      with (pre ++ (str "<glyph" ++ mid ++ tail ++ str "/>") ++ post)
      by (now rewrite <- !app_assoc).
    now rewrite slice_middle. }
  rewrite Eg. split; [reflexivity|].
  replace (length pre + 6 + length mid) with i by lia.
  split; [exact H|].
  split; [intros k K1 K2; apply Ma; lia|].
  split; [intros k K1 K2; apply Me; lia|].
  apply (replace_head "<"%char (str "glyph")).
Qed.

(** A code point is reported as missing when its attribute is nowhere in
    the file, and the file as malformed when no [<glyph] ends before the
    first occurrence of the attribute or no [/>] follows its start. *)
Theorem find_glyph_fails (data codepoint : pystr) :
  (find_glyph data codepoint = Missing
   <-> absent (unicode_attribute codepoint) data)
  /\ (find_glyph data codepoint = Malformed
      <-> exists i,
            first_at (unicode_attribute codepoint) data i
            /\ ((forall k, k + 6 <= i -> ~ occurs_at (str "<glyph") data k)
                \/ (forall k, i <= k -> ~ occurs_at (str "/>") data k))).
Proof.
  unfold find_glyph. cbv zeta.
  destruct (find_cases data (unicode_attribute codepoint))
    as [[F A]|(i & F & H)]; rewrite F.
  - simpl. split; [tauto|]. split; [discriminate|].
    intros (i & [O _] & _). now destruct (A i).
  - destruct (Z.ltb_spec (Z.of_nat i) 0) as [|_]; [lia|].
    rewrite Nat2Z.id.
    assert (Li : i <= length data).
    { destruct H as [O _]. apply occurs_at_bound in O. lia. }
    split.
    { split.
      - destruct (_ || _); discriminate.
      - intros A. destruct H as [O _]. now destruct (A i). }
    destruct (rfind_spec data (str "<glyph") i Li)
      as [[R Na]|(a & R & Ka & Oa & _)]; rewrite R;
      destruct (find_spec data (str "/>") i)
        as [[E Ne]|(e & E & Ke & Oe & _)]; rewrite E.
    + split; [|reflexivity]. intros _. exists i. split; [exact H|].
      right. exact Ne.
    + split; [|reflexivity]. intros _. exists i. split; [exact H|].
      left. exact Na.
    + destruct (Z.ltb_spec (Z.of_nat a) 0) as [|_]; [lia|].
      split; [|reflexivity]. intros _. exists i. split; [exact H|].
      right. exact Ne.
    + destruct (Z.ltb_spec (Z.of_nat a) 0) as [|_]; [lia|].
      destruct (Z.ltb_spec (Z.of_nat e) 0) as [|_]; [lia|].
      split; [discriminate|]. intros (i' & H' & [N|N]).
      * apply find_first in H, H'.
        assert (i' = i) by lia. subst i'.
        destruct (N a); [exact Ka | exact Oa].
      * apply find_first in H, H'.
        assert (i' = i) by lia. subst i'.
        destruct (N e); [exact Ke | exact Oe].
Qed.

End GlyphLookup.

Section TextOnExamples.

Import Examples.

(** [get_svg_path_data_reads] on [glyph_text]: the second attribute is the
    one read. *)
Lemma get_svg_path_data_reads_witness :
  get_svg_path_data glyph_text = Ret (str "M 1 1 L 2 2").
Proof.
  apply (get_svg_path_data_reads glyph_head glyph_body (str "/>")
           newline space).
  - right. split; reflexivity.
  - apply find_first. vm_compute. reflexivity.
  - intros k H. apply find_first in H.
    change (find _ (marker space) 0) with 6%Z in H.
    change (length glyph_head) with 16. lia.
  - intros H. vm_compute in H.
    repeat (destruct H as [H|H]; [discriminate|]). exact H.
Defined.

(** [get_svg_path_data_sound] on [glyph_text]. *)
Lemma get_svg_path_data_sound_witness :
  exists pre c body post,
    glyph_text = pre ++ marker c ++ body ++ quote :: post
    /\ (c = space \/ c = newline)
    /\ ~ In quote body
    /\ str "M 1 1 L 2 2" = unfold_lines body
    /\ ~ In quote (str "M 1 1 L 2 2")
    /\ ~ In newline (str "M 1 1 L 2 2").
Proof.
  apply (get_svg_path_data_sound glyph_text (str "M 1 1 L 2 2")).
  vm_compute. reflexivity.
Defined.

(** [find_glyph_sound] on [font_file] and the code point [4e00]. *)
Lemma find_glyph_sound_witness :
  exists pre mid tail post,
    font_file = pre ++ str "<glyph" ++ mid ++ tail ++ str "/>" ++ post
    /\ second_glyph = str "<glyph" ++ mid ++ tail ++ str "/>"
    /\ first_at (unicode_attribute (str "4e00")) font_file
         (length pre + 6 + length mid)
    /\ (forall k, length pre < k -> k <= length pre + length mid ->
                  ~ occurs_at (str "<glyph") font_file k)
    /\ (forall k, length pre + 6 + length mid <= k ->
                  k < length pre + 6 + length mid + length tail ->
                  ~ occurs_at (str "/>") font_file k)
    /\ replace (second_glyph) (str "<glyph") (str "<path")
       = str "<path"
         ++ replace (mid ++ tail ++ str "/>") (str "<glyph") (str "<path").
Proof.
  apply (find_glyph_sound font_file (str "4e00") (second_glyph)).
  vm_compute. reflexivity.
Defined.

End TextOnExamples.

(** ** More on the cusps of a glyph *)

Section Provenance.

Context {N : PyNum}.

(** What a merge leaves in [other]. *)
Lemma merge_parts (self other other' : Cusp) :
  merge self other = Ret (true, other') ->
  paths other' = paths other
  /\ ((index other' = index self /\ point other' = point self)
      \/ (index other' = index other /\ point other' = point other))
  /\ tangent1 other' = tangent1 self
  /\ tangent2 other' = tangent2 other
  /\ angle other' = _get_angle (tangent1 other') (tangent2 other').
Proof.
  unfold merge.
  destruct (negb (fst (index other) =? fst (index self))); [discriminate|].
  destruct (fgtb (cabs (csub (point other) (point self)))
              MAX_CUSP_MERGE_DISTANCE); [discriminate|].
  destruct (getitem (paths self) (fst (index self))) as [path| |];
    try discriminate. cbn [bind].
  destruct (walk _ _ _ _ _) as [d| |]; try discriminate. cbn [bind].
  destruct (fgtb d MAX_CUSP_MERGE_DISTANCE); [discriminate|].
  intros H. inversion H; subst. clear H.
  destruct (fgtb (fabs (angle self)) (fabs (angle other))); simpl; auto 10.
Qed.

Lemma merger_Forall (Q : Cusp -> Prop) (cusps out : list Cusp) :
  (forall self other other',
      Q self -> Q other -> merge self other = Ret (true, other') ->
      Q other') ->
  Forall Q cusps -> merger cusps = Ret out -> Forall Q out.
Proof.
  intros K. apply (merger_loop_invariant (Forall Q)).
  intros l j l' j'. now apply merger_step_Forall.
Qed.

(** The merger invents nothing: the vertex (index and point) of every cusp
    it returns is the vertex of a cusp it was given, and so are its incoming
    and its outgoing tangent, each possibly of another cusp. *)
Theorem merger_invents_nothing (cusps out : list Cusp)
  (M : merger cusps = Ret out) :
  Forall (assembled cusps) out.
Proof.
  apply (merger_Forall (assembled cusps) cusps out); [| |exact M].
  - intros self other other'
      (sa & sb & sd & Hsa & Hsb & Hsd & Is & Ps & T1s & T2s)
      (oa & ob & od & Hoa & Hob & Hod & Io & Po & T1o & T2o) H.
    apply merge_parts in H as (_ & V & T1 & T2 & _). unfold assembled.
    rewrite T1, T2. destruct V as [[I P]|[I P]]; rewrite I, P.
    + exists sa, sb, od. auto 10.
    + exists oa, sb, od. auto 10.
  - apply Forall_forall. intros c H. exists c, c, c. auto 10.
Qed.

Lemma new_Cusp_at (paths0 : list Path) (i j : nat) (path : Path) (c : Cusp) :
  nth_error paths0 i = Some path ->
  new_Cusp paths0 (i, j) = Ret c ->
  cusp_at paths0 i path c /\ index c = (i, j).
Proof.
  intros P. unfold new_Cusp, getitem at 1. rewrite P. cbn [bind].
  unfold getitem at 1.
  destruct (nth_error path j) as [segment|] eqn:S; [|discriminate].
  cbn [bind].
  destruct (_get_tangents path j) as [[t1 t2]| |]; try discriminate.
  cbn [bind]. intros H. inversion H; subst. clear H.
  unfold cusp_at. simpl. repeat split; eauto.
Qed.

Lemma detect_at (paths0 : list Path) (i : nat) (path : Path)
  (cusps : list Cusp) :
  nth_error paths0 i = Some path ->
  detect paths0 i path = Ret cusps ->
  Forall (cusp_at paths0 i path) cusps /\ length cusps <= length path.
Proof.
  intros P D. destruct (vertices_exist paths0 i path P) as (vs & V & _).
  rewrite (detect_filter paths0 i path vs V) in D. inversion D; subst.
  unfold vertices in V. split.
  - apply Forall_forall. intros c H. apply filter_In in H as [H _].
    revert c H. apply Forall_forall.
    clear D. induction V as [|j c js vs C _ IH]; [constructor|].
    constructor; [|exact IH].
    now apply (new_Cusp_at paths0 i j path c P).
  - apply Forall2_length in V. rewrite length_seq in V. rewrite V.
    apply filter_length_le.
Qed.

Lemma merger_at (paths0 : list Path) (i : nat) (path : Path)
  (cusps out : list Cusp) :
  Forall (cusp_at paths0 i path) cusps -> merger cusps = Ret out ->
  Forall (cusp_at paths0 i path) out.
Proof.
  apply merger_Forall.
  intros self other other' (Ps & Is & Vs & As) (Po & Io & Vo & Ao) H.
  apply merge_parts in H as (P & V & _ & _ & A). unfold cusp_at.
  rewrite P. repeat split; auto.
  - destruct V as [[-> _]|[-> _]]; assumption.
  - destruct V as [[-> ->]|[-> ->]]; assumption.
Qed.

(** What holds of the cusps of every sub-path holds group by group of the
    list [get_cusps] builds. *)
Lemma get_cusps_loop_groups (paths0 : list Path)
  (Q : nat -> Path -> list Cusp -> Prop) :
  (forall i path ds ms,
      nth_error paths0 i = Some path ->
      detect paths0 i path = Ret ds -> merger ds = Ret ms -> Q i path ms) ->
  forall (todo : list (nat * Path)) (result out : list Cusp),
    (forall i path, In (i, path) todo -> nth_error paths0 i = Some path) ->
    get_cusps_loop paths0 todo result = Ret out ->
    exists groups,
      out = result ++ concat groups
      /\ Forall2 (fun ip group => Q (fst ip) (snd ip) group) todo groups.
Proof.
  intros K. induction todo as [|[i path] todo IH]; intros result out T H;
    simpl in H.
  - inversion H; subst. exists []. simpl. rewrite app_nil_r. auto.
  - assert (P : nth_error paths0 i = Some path) by (apply T; now left).
    destruct (detect paths0 i path) as [ds| |] eqn:D; try discriminate.
    cbn [bind] in H.
    destruct (merger ds) as [ms| |] eqn:M; try discriminate.
    cbn [bind] in H.
    destruct (IH (result ++ ms) out) as (groups & E & F); [|exact H|].
    { intros i' path' I. apply T. now right. }
    exists (ms :: groups). split.
    + rewrite E. simpl. now rewrite <- app_assoc.
    + constructor; [|exact F]. simpl. now apply (K i path ds ms).
Qed.

Lemma Forall2_combine_seq {A B : Type} (R : nat * A -> B -> Prop)
  (l : list A) :
  forall (s : nat) (gs : list B),
    Forall2 R (combine (seq s (length l)) l) gs ->
    length gs = length l
    /\ forall i a g, nth_error l i = Some a -> nth_error gs i = Some g ->
                     R (s + i, a) g.
Proof.
  induction l as [|x l IH]; intros s gs F; simpl in F.
  - inversion F; subst. split; [reflexivity|]. intros [|i]; discriminate.
  - inversion F as [|? g0 ? gs' R0 F']; subst.
    destruct (IH (S s) gs' F') as [L K]. split; [simpl; now rewrite L|].
    intros [|i] a g Ha Hg; simpl in Ha, Hg.
    + inversion Ha; inversion Hg; subst. now rewrite Nat.add_0_r.
    + replace (s + S i) with (S s + i) by lia. now apply K.
Qed.

(** The list [get_cusps] returns is made of one group of cusps per sub-path,
    in the order of the sub-paths.  The cusps of a group sit on vertices of
    its sub-path, each with the angle between its two tangents, and are no
    more than the sub-path has segments; no two cusps of the list have the
    same index. *)
Theorem get_cusps_by_sub_path (paths0 : list Path) (cusps : list Cusp)
  (G : get_cusps paths0 = Ret cusps) :
  exists groups : list (list Cusp),
    cusps = concat groups
    /\ length groups = length paths0
    /\ (forall i path group,
          nth_error paths0 i = Some path -> nth_error groups i = Some group ->
          Forall (cusp_at paths0 i path) group
          /\ length group <= length path)
    /\ NoDup (map (@index N) cusps).
Proof.
  destruct (get_cusps_loop_groups paths0
              (fun i path ms => Forall (cusp_at paths0 i path) ms
                                /\ length ms <= length path)
              (fun i path ds ms P D M =>
                 conj (merger_at paths0 i path ds ms
                         (proj1 (detect_at paths0 i path ds P D)) M)
                      (Nat.le_trans _ _ _ (merger_length ds ms M)
                         (proj2 (detect_at paths0 i path ds P D))))
              (enumerate paths0) [] cusps)
    as (groups & E & F); [|exact G|].
  { intros i path. apply enumerate_In. }
  exists groups. split; [exact E|].
  apply Forall2_combine_seq in F as [L K].
  split; [exact L|]. split; [|exact (get_cusps_NoDup paths0 cusps G)].
  intros i path group P H. exact (K i path group P H).
Qed.

End Provenance.

(** ** The elements added to a glyph *)

Section Elements.

Context {N : PyNum}.

Lemma filter_length_lt {A : Type} (f : A -> bool) (l : list A) (a : A) :
  In a l -> f a = false -> length (filter f l) < length l.
Proof.
  intros H F. induction l as [|x l IH]; simpl in *; [contradiction|].
  destruct H as [->|H].
  - rewrite F. pose proof (filter_length_le f l). lia.
  - specialize (IH H). destruct (f x); simpl; lia.
Qed.

Lemma flat_map_length_le {A B : Type} (g : A -> list B) (m : nat)
  (l : list A) :
  (forall a, In a l -> length (g a) <= m) ->
  length (flat_map g l) <= length l * m.
Proof.
  induction l as [|x l IH]; intros H; simpl; [lia|].
  rewrite length_app.
  assert (length (g x) <= m) by (apply H; now left).
  assert (length (flat_map g l) <= length l * m)
    by (apply IH; intros a I; apply H; now right).
  lia.
Qed.

Lemma connect_self (a : Cusp) : connect a a = false.
Proof.
  unfold connect, index_eqb. now rewrite !Nat.eqb_refl.
Qed.

(** No cusp is joined to itself, so [n] cusps give no more than [n (n - 1)]
    edges. *)
Lemma connector_length (cusps : list Cusp) :
  length (connector cusps) <= length cusps * (length cusps - 1).
Proof.
  rewrite connector_flat_map. apply flat_map_length_le.
  intros a H. rewrite length_map.
  pose proof (filter_length_lt (connect a) cusps a H (connect_self a)). lia.
Qed.

(** What [augment_glyph] returns: first the circles, one per cusp, then the
    lines; with [n] circles there are no more than [n (n - 1)] lines, and
    each line runs from the centre of a circle to the centre of a circle. *)
Theorem augment_glyph_shape (parsed : Path) (extras : list Extra)
  (G : augment_glyph parsed = Ret extras) :
  exists circles strokes : list Extra,
    extras = circles ++ strokes
    /\ forallb is_circle circles = true
    /\ forallb (fun e => negb (is_circle e)) strokes = true
    /\ length strokes <= length circles * (length circles - 1)
    /\ forall p q,
         In (Stroke p q) strokes ->
         (exists a, In (Circle p a) circles)
         /\ (exists a, In (Circle q a) circles).
Proof.
  unfold augment_glyph in G.
  destruct (filter _ parsed) as [|first rest]; [discriminate|].
  destruct (break_path (first :: rest)) as [subpaths| |]; try discriminate.
  cbn [bind] in G.
  destruct (get_cusps subpaths) as [cusps| |]; try discriminate.
  cbn [bind] in G. inversion G; subst. clear G.
  eexists. eexists. split; [reflexivity|].
  split; [apply forallb_forall; intros e H;
          apply in_map_iff in H as (c & <- & _); reflexivity|].
  split; [apply forallb_forall; intros e H;
          apply in_map_iff in H as (c & <- & _); reflexivity|].
  split; [rewrite !length_map; apply connector_length|].
  intros p q H. apply in_map_iff in H as ([a b] & E & H).
  inversion E; subst. apply connector_In in H as (Ha & Hb & _). split.
  - exists (angle a). apply in_map_iff. now exists a.
  - exists (angle b). apply in_map_iff. now exists b.
Qed.

Lemma NoDup_map_neq {A B : Type} (f : A -> B) (l : list A) (a b : A) :
  NoDup (map f l) -> In a l -> In b l -> a <> b -> f a <> f b.
Proof.
  induction l as [|x l IH]; simpl; intros ND Ha Hb D E; [contradiction|].
  inversion ND as [|? ? X Y]; subst.
  destruct Ha as [->|Ha], Hb as [->|Hb].
  - now apply D.
  - apply X. rewrite E. now apply in_map.
  - apply X. rewrite <- E. now apply in_map.
  - exact (IH Y Ha Hb D E).
Qed.

(** Two cusps of a glyph that sit on the same point are joined, whatever
    their tangents: the directional test is not made. *)
Theorem coincident_cusps_are_joined (paths0 : list Path)
  (cusps : list Cusp) (a b : Cusp)
  (G : get_cusps paths0 = Ret cusps)
  (Ha : In a cusps) (Hb : In b cusps) (D : a <> b)
  (E : ceqb (point b) (point a) = true) :
  In (a, b) (connector cusps)
  /\ In (Stroke (point a) (point b))
       (map (fun e => Stroke (point (fst e)) (point (snd e)))
          (connector cusps)).
Proof.
  assert (C : In (a, b) (connector cusps)).
  { apply connector_In. repeat split; try assumption.
    pose proof (NoDup_map_neq (@index N) cusps b a
                  (get_cusps_NoDup paths0 cusps G) Hb Ha) as I.
    unfold connect.
    destruct (index_eqb (index b) (index a)) eqn:X.
    - apply index_eqb_eq in X. destruct I; congruence.
    - unfold _try_connect. rewrite E.
      now destruct (fst (index b) =? fst (index a)). }
  split; [exact C|]. apply in_map_iff. now exists (a, b).
Qed.


End Elements.

(** ** Sub-paths again, and a curve that hides a corner *)

Section Corners.

Context {N : PyNum}.

Lemma runs_chained (rest : list Segment) :
  forall (cur : Path) (prev : Segment),
    chained prev rest = true -> runs cur prev rest = [cur ++ rest].
Proof.
  induction rest as [|element rest IH]; intros cur prev C; simpl in *.
  - now rewrite app_nil_r.
  - apply andb_true_iff in C as [C1 C2].
    destruct (cneb (seg_start element) (seg_end prev)); [discriminate|].
    rewrite IH by exact C2. now rewrite <- app_assoc.
Qed.

Lemma break_path_unbroken (s : Path) :
  unbroken s = true -> break_path s = Ret [s].
Proof.
  destruct s as [|first rest]; [discriminate|]. simpl. intros C.
  pose proof (break_loop_runs rest [] [] first) as B. cbn [app] in B.
  rewrite B. now rewrite (runs_chained rest [first] first C).
Qed.

(** Breaking a path is done once and for all: each sub-path [break_path]
    returns is returned whole, as the only sub-path, when it is broken
    again. *)
Theorem break_path_stable (first : Segment) (rest : list Segment) :
  exists subpaths : list Path,
    break_path (first :: rest) = Ret subpaths
    /\ Forall (fun s => break_path s = Ret [s]) subpaths.
Proof.
  exists (runs [first] first rest). split.
  - apply (break_loop_runs rest [] [] first).
  - apply Forall_forall. intros s H. apply break_path_unbroken.
    pose proof (runs_unbroken rest [] first eq_refl) as U.
    cbn [app] in U. rewrite forallb_forall in U. now apply U.
Qed.

Lemma merger_indices (cusps out : list Cusp) :
  merger cusps = Ret out ->
  incl (map (@index N) out) (map (@index N) cusps).
Proof.
  intros M x H. apply in_map_iff in H as (c & <- & H).
  assert (F : Forall (fun c => In (index c) (map (@index N) cusps)) out).
  { apply (merger_Forall _ cusps out); [| |exact M].
    - intros self other other' Qs Qo K.
      apply merge_parts in K as (_ & [[-> _]|[-> _]] & _); assumption.
    - apply Forall_forall. intros c' I. now apply in_map. }
  rewrite Forall_forall in F. now apply F.
Qed.

(** The cusp candidate at the vertex before a quadratic curve whose control
    point is its start point: its outgoing tangent is the difference of that
    point with itself. *)
Lemma new_Cusp_degenerate (paths0 : list Path) (i j : nat) (path : Path)
  (s e : pycomplex) (c : Cusp) :
  nth_error paths0 i = Some path ->
  nth_error path ((j + 1) mod length path) = Some (QuadraticBezier s s e) ->
  cneb s e = true ->
  new_Cusp paths0 (i, j) = Ret c ->
  angle c = _get_angle (tangent1 c) (csub s s).
Proof.
  intros P S D. unfold new_Cusp, getitem at 1. rewrite P. cbn [bind].
  unfold getitem at 1.
  destruct (nth_error path j) as [segment|] eqn:J; [|discriminate].
  cbn [bind]. unfold _get_tangents, getitem at 1. rewrite J. cbn [bind].
  assert (L : 0 < length path).
  { assert (j < length path) by (apply nth_error_Some; congruence). lia. }
  rewrite pymod_Ret by exact L. cbn [bind]. unfold getitem. rewrite S.
  cbn [bind]. rewrite D. cbn [bind].
  intros H. inversion H; subst. reflexivity.
Qed.

Lemma Forall2_In_r {A B : Type} (R : A -> B -> Prop) (l : list A)
  (l' : list B) (b : B) :
  Forall2 R l l' -> In b l' -> exists a, In a l /\ R a b.
Proof.
  induction 1 as [|x y l l' Rxy _ IH]; intros H; [contradiction|].
  destruct H as [->|H].
  - exists x. split; [now left | exact Rxy].
  - destruct (IH H) as (a & I & Rab). exists a. split; [now right | exact Rab].
Qed.

(** A corner hidden by a curve.  When the segment after vertex [j] is a
    quadratic curve whose control point is its start point (and not its end
    point), the outgoing tangent at [j] is taken to be [control - start],
    which is zero; the angle is then 0 and [get_cusps] returns no cusp at
    [j], however sharp the outline turns there. *)
Theorem degenerate_control_hides_corner (paths0 : list Path) (i j : nat)
  (path : Path) (s e : pycomplex) (cusps : list Cusp)
  (P : nth_error paths0 i = Some path)
  (S : nth_error path ((j + 1) mod length path)
       = Some (QuadraticBezier s s e))
  (D : cneb s e = true)
  (Z : cbool (csub s s) = false)
  (T : fgtb (fabs (of_int 0)) MIN_CUSP_ANGLE = false)
  (G : get_cusps paths0 = Ret cusps) :
  ~ In (i, j) (map (@index N) cusps).
Proof.
  destruct (get_cusps_loop_groups paths0
              (fun i' path' ms => ~ In (i, j) (map (@index N) ms)))
    with (todo := enumerate paths0) (result := @nil Cusp) (out := cusps)
    as (groups & E & F); [| |exact G|].
  - intros i' path' ds ms P' Dt M H.
    apply (merger_indices ds ms M) in H.
    apply in_map_iff in H as (c & Ic & H).
    destruct (vertices_exist paths0 i' path' P') as (vs & V & _).
    rewrite (detect_filter paths0 i' path' vs V) in Dt.
    inversion Dt; subst ds. apply filter_In in H as [H K].
    destruct (Forall2_In_r _ _ _ c V H) as (j' & _ & C).
    destruct (new_Cusp_at paths0 i' j' path' c P' C) as [_ X].
    rewrite X in Ic. inversion Ic; subst i' j'.
    assert (path' = path) by congruence. subst path'.
    pose proof (new_Cusp_degenerate paths0 i j path s e c P S D C) as A.
    unfold is_cusp in K. rewrite A in K. unfold _get_angle in K.
    rewrite Z in K. cbn [negb] in K. rewrite orb_true_r in K. congruence.
  - intros i' path'. apply enumerate_In.
  - simpl in E. subst cusps. rewrite concat_map, in_concat.
    intros (l & Hl & H). apply in_map_iff in Hl as (group & <- & Hg).
    destruct (Forall2_In_r _ _ _ group F Hg) as (ip & _ & Q).
    now apply Q.
Qed.

End Corners.

Section CuspsOnExamples.

Import Examples.

(** [merger_invents_nothing] on the cusps of [pinched_loop]. *)
Lemma merger_invents_nothing_witness :
  Forall (assembled pinched_cusps) pinched_merged.
Proof.
  apply (merger_invents_nothing (N := Binary64.num) pinched_cusps
           pinched_merged).
  vm_compute. reflexivity.
Defined.

(** [get_cusps_by_sub_path] on [touching_spikes]. *)
Lemma get_cusps_by_sub_path_witness :
  exists groups : list (list Cusp),
    touching_cusps = concat groups
    /\ length groups = length touching_spikes
    /\ (forall i path group,
          nth_error touching_spikes i = Some path ->
          nth_error groups i = Some group ->
          Forall (cusp_at touching_spikes i path) group
          /\ length group <= length path)
    /\ NoDup (map (@index Binary64.num) touching_cusps).
Proof.
  apply (get_cusps_by_sub_path (N := Binary64.num) touching_spikes
           touching_cusps).
  vm_compute. reflexivity.
Defined.

(** [augment_glyph_shape] on [facing_spikes]. *)
Lemma augment_glyph_shape_witness :
  exists circles strokes : list Extra,
    spike_extras = circles ++ strokes
    /\ forallb is_circle circles = true
    /\ forallb (fun e => negb (is_circle e)) strokes = true
    /\ length strokes <= length circles * (length circles - 1)
    /\ forall p q,
         In (Stroke p q) strokes ->
         (exists a, In (Circle p a) circles)
         /\ (exists a, In (Circle q a) circles).
Proof.
  apply (augment_glyph_shape (N := Binary64.num) facing_spikes spike_extras).
  vm_compute. reflexivity.
Defined.

(** [coincident_cusps_are_joined] on the two tips of [touching_spikes]. *)
Lemma coincident_cusps_are_joined_witness :
  In (touching_a, touching_b) (connector touching_cusps)
  /\ In (Stroke (point touching_a) (point touching_b))
       (map (fun e => Stroke (point (fst e)) (point (snd e)))
          (connector touching_cusps)).
Proof.
  apply (coincident_cusps_are_joined (N := Binary64.num) touching_spikes
           touching_cusps touching_a touching_b).
  - vm_compute. reflexivity.
  - vm_compute. repeat (first [left; reflexivity | right]).
  - vm_compute. repeat (first [left; reflexivity | right]).
  - intros H. apply (f_equal (@index Binary64.num)) in H. discriminate H.
  - vm_compute. reflexivity.
Defined.


(** [degenerate_control_hides_corner] on [hooked]: no cusp at the corner
    [(100, 0)], the end of segment 0. *)
Lemma degenerate_control_hides_corner_witness :
  ~ In (0, 0) (map (@index Binary64.num) hooked_cusps).
Proof.
  apply (degenerate_control_hides_corner (N := Binary64.num) [hooked] 0 0
           hooked (100, 0)%float (100, 100)%float hooked_cusps).
  - reflexivity.
  - reflexivity.
  - vm_compute. reflexivity.
  - vm_compute. reflexivity.
  - vm_compute. reflexivity.
  - vm_compute. reflexivity.
Defined.

End CuspsOnExamples.

(** ** Changes of an outline that the analysis does not see *)

Section Simulation.

Context {N : PyNum}.

(** A change of the segments that moves their end points by [move], where
    [move] keeps differences and comparisons, and that keeps the tangents
    [_get_tangents] reads off them. *)
Variable change : Segment -> Segment.
Variable move : pycomplex -> pycomplex.

Hypothesis move_sub : forall z w, csub (move z) (move w) = csub z w.
Hypothesis move_eqb : forall z w, ceqb (move z) (move w) = ceqb z w.
Hypothesis move_seg_start :
  forall s, seg_start (change s) = move (seg_start s).
Hypothesis move_seg_end : forall s, seg_end (change s) = move (seg_end s).
Hypothesis change_in : forall s, tangent_in (change s) = tangent_in s.
Hypothesis change_out : forall s, tangent_out (change s) = tangent_out s.

Local Abbreviation M := change.
Local Abbreviation MP := (change_path change).
Local Abbreviation MC := (change_cusp change move).

Lemma move_neb (z w : pycomplex) : cneb (move z) (move w) = cneb z w.
Proof. unfold cneb. now rewrite move_eqb. Qed.

Lemma getitem_map {A B : Type} (f : A -> B) (l : list A) (i : nat) :
  getitem (map f l) i = res_map f (getitem l i).
Proof.
  unfold getitem. rewrite nth_error_map. now destruct (nth_error l i).
Qed.

Lemma get_tangents_eq (path : Path) (j : nat) :
  _get_tangents path j
  = (segment1 <- getitem path j ;;
     next <- pymod (j + 1) (length path) ;;
     segment2 <- getitem path next ;;
     Ret (tangent_in segment1, tangent_out segment2)).
Proof. reflexivity. Qed.

Lemma move_tangents (path : Path) (j : nat) :
  _get_tangents (MP path) j = _get_tangents path j.
Proof.
  rewrite !get_tangents_eq. unfold change_path.
  rewrite getitem_map, length_map.
  destruct (getitem path j) as [segment1| |]; try reflexivity.
  cbn [res_map bind].
  destruct (pymod (j + 1) (length path)) as [next| |]; try reflexivity.
  cbn [bind]. rewrite getitem_map.
  destruct (getitem path next) as [segment2| |]; try reflexivity.
  cbn [res_map bind]. now rewrite change_in, change_out.
Qed.

Lemma move_new_Cusp (paths0 : list Path) (idx : nat * nat) :
  new_Cusp (map MP paths0) idx = res_map MC (new_Cusp paths0 idx).
Proof.
  unfold new_Cusp. destruct idx as [i j]. rewrite getitem_map.
  destruct (getitem paths0 i) as [path| |]; try reflexivity.
  cbn [res_map bind]. unfold change_path at 1. rewrite getitem_map.
  destruct (getitem path j) as [segment| |]; try reflexivity.
  cbn [res_map bind]. rewrite move_tangents.
  destruct (_get_tangents path j) as [[t1 t2]| |]; try reflexivity.
  cbn [res_map bind]. unfold change_cusp. cbn. now rewrite move_seg_end.
Qed.

Lemma move_detect_loop (paths0 : list Path) (i : nat) (js : list nat) :
  forall acc,
    detect_loop (map MP paths0) i js (map MC acc)
    = res_map (map MC) (detect_loop paths0 i js acc).
Proof.
  induction js as [|j js IH]; intros acc; cbn [detect_loop]; [reflexivity|].
  rewrite move_new_Cusp.
  destruct (new_Cusp paths0 (i, j)) as [cusp| |]; try reflexivity.
  cbn [res_map bind]. rewrite <- IH. f_equal.
  cbn [change_cusp angle].
  destruct (fgtb (fabs (angle cusp)) MIN_CUSP_ANGLE); [|reflexivity].
  now rewrite map_app.
Qed.

Lemma move_detect (paths0 : list Path) (i : nat) (path : Path) :
  detect (map MP paths0) i (MP path)
  = res_map (map MC) (detect paths0 i path).
Proof.
  unfold detect, change_path at 2. rewrite length_map.
  apply (move_detect_loop paths0 i _ []).
Qed.

Lemma move_walk (path : Path) (target : nat) :
  forall fuel j d,
    walk fuel (MP path) target j d = walk fuel path target j d.
Proof.
  induction fuel as [|fuel IH]; intros j d; cbn [walk]; [reflexivity|].
  destruct (j =? target); [reflexivity|].
  unfold change_path at 1 2. rewrite length_map.
  destruct (pymod (j + 1) (length path)) as [j'| |]; try reflexivity.
  cbn [bind]. rewrite getitem_map.
  destruct (getitem path j') as [segment| |]; try reflexivity.
  cbn [res_map bind].
  rewrite move_seg_end, move_seg_start, move_sub. apply IH.
Qed.

Lemma move_merge (self other : Cusp) :
  merge (MC self) (MC other)
  = res_map (fun r => (fst r, MC (snd r))) (merge self other).
Proof.
  unfold merge. cbn [change_cusp index point paths angle tangent1 tangent2].
  destruct (negb (fst (index other) =? fst (index self))); [reflexivity|].
  rewrite move_sub.
  destruct (fgtb (cabs (csub (point other) (point self)))
              MAX_CUSP_MERGE_DISTANCE); [reflexivity|].
  rewrite getitem_map.
  destruct (getitem (paths self) (fst (index self))) as [path| |];
    try reflexivity.
  cbn [res_map bind]. unfold change_path at 1. rewrite length_map.
  rewrite move_walk.
  destruct (walk _ _ _ _ _) as [d| |]; try reflexivity. cbn [bind].
  destruct (fgtb d MAX_CUSP_MERGE_DISTANCE); [reflexivity|].
  cbn [res_map fst snd].
  destruct (fgtb (fabs (angle self)) (fabs (angle other))); reflexivity.
Qed.

Lemma setitem_map {A B : Type} (f : A -> B) (l : list A) :
  forall (i : nat) (a : A),
    setitem i (f a) (map f l) = map f (setitem i a l).
Proof.
  induction l as [|x l IH]; intros [|i] a; simpl; try reflexivity.
  now rewrite IH.
Qed.

Lemma pop_map {A B : Type} (f : A -> B) (l : list A) (i : nat) :
  pop i (map f l) = res_map (map f) (pop i l).
Proof.
  unfold pop. rewrite length_map. destruct (i <? length l); [|reflexivity].
  cbn [res_map]. now rewrite map_app, firstn_map, skipn_map.
Qed.

Lemma move_merger_step (cusps : list Cusp) (j : nat) :
  merger_step (map MC cusps) j
  = res_map (fun r => (map MC (fst r), snd r)) (merger_step cusps j).
Proof.
  unfold merger_step. rewrite getitem_map, length_map.
  destruct (getitem cusps j) as [self| |]; try reflexivity.
  cbn [res_map bind].
  destruct (pymod (j + 1) (length cusps)) as [k| |]; try reflexivity.
  cbn [bind]. rewrite getitem_map.
  destruct (getitem cusps k) as [other| |]; try reflexivity.
  cbn [res_map bind]. rewrite move_merge.
  destruct (merge self other) as [[merged other']| |]; try reflexivity.
  cbn [res_map bind fst snd]. rewrite setitem_map.
  destruct merged; [|reflexivity].
  rewrite pop_map. now destruct (pop j (setitem k other' cusps)).
Qed.

Lemma move_merger_loop :
  forall (fuel : nat) (cusps : list Cusp) (j : nat),
    merger_loop fuel (map MC cusps) j
    = res_map (map MC) (merger_loop fuel cusps j).
Proof.
  induction fuel as [|fuel IH]; intros cusps j; cbn [merger_loop];
    rewrite length_map; destruct (j <? length cusps); try reflexivity.
  rewrite move_merger_step.
  destruct (merger_step cusps j) as [[cusps' j']| |]; try reflexivity.
  cbn [res_map bind fst snd]. apply IH.
Qed.

Lemma move_merger (cusps : list Cusp) :
  merger (map MC cusps) = res_map (map MC) (merger cusps).
Proof. unfold merger. rewrite length_map. apply move_merger_loop. Qed.

Lemma move_get_cusps_loop (paths0 : list Path) :
  forall (todo : list (nat * Path)) (result : list Cusp),
    get_cusps_loop (map MP paths0)
      (map (fun ip => (fst ip, MP (snd ip))) todo) (map MC result)
    = res_map (map MC) (get_cusps_loop paths0 todo result).
Proof.
  induction todo as [|[i path] todo IH]; intros result;
    cbn [get_cusps_loop map fst snd]; [reflexivity|].
  rewrite move_detect.
  destruct (detect paths0 i path) as [ds| |]; try reflexivity.
  cbn [res_map bind]. rewrite move_merger.
  destruct (merger ds) as [ms| |]; try reflexivity.
  cbn [res_map bind]. rewrite <- map_app. apply IH.
Qed.

Lemma enumerate_map {A B : Type} (f : A -> B) (l : list A) :
  enumerate (map f l) = map (fun ip => (fst ip, f (snd ip))) (enumerate l).
Proof.
  unfold enumerate. rewrite length_map. generalize 0.
  induction l as [|x l IH]; intros s; simpl; [reflexivity|].
  now rewrite IH.
Qed.

Lemma move_get_cusps (paths0 : list Path) :
  get_cusps (map MP paths0) = res_map (map MC) (get_cusps paths0).
Proof.
  unfold get_cusps. rewrite enumerate_map.
  apply (move_get_cusps_loop paths0 (enumerate paths0) []).
Qed.

Lemma move_try_connect (a b : Cusp) (reverse : bool) :
  _try_connect (MC a) (MC b) reverse = _try_connect a b reverse.
Proof.
  unfold _try_connect, features.
  cbn [change_cusp point tangent1 tangent2].
  now rewrite move_eqb, move_sub.
Qed.

Lemma move_connect (a b : Cusp) : connect (MC a) (MC b) = connect a b.
Proof.
  unfold connect. cbn [change_cusp index]. now rewrite !move_try_connect.
Qed.

Lemma move_connector (cusps : list Cusp) :
  connector (map MC cusps)
  = map (fun e => (MC (fst e), MC (snd e))) (connector cusps).
Proof.
  rewrite !connector_flat_map.
  generalize cusps at 1 3 as others.
  induction cusps as [|a cusps IH]; intros others; cbn [map flat_map];
    [reflexivity|].
  rewrite map_app, IH. f_equal.
  rewrite map_map. clear IH.
  induction others as [|b others IH]; cbn [map filter]; [reflexivity|].
  rewrite move_connect. destruct (connect a b); cbn [map]; now rewrite IH.
Qed.

Lemma move_runs (rest : list Segment) :
  forall (cur : Path) (prev : Segment),
    runs (MP cur) (M prev) (MP rest) = map MP (runs cur prev rest).
Proof.
  induction rest as [|element rest IH]; intros cur prev;
    cbn [runs change_path map]; [reflexivity|].
  rewrite move_seg_start, move_seg_end, move_neb.
  destruct (cneb (seg_start element) (seg_end prev)).
  - cbn [map]. f_equal. apply (IH [element] element).
  - rewrite <- (IH (cur ++ [element]) element). unfold change_path.
    now rewrite map_app.
Qed.

Lemma move_break_path (path : Path) :
  break_path (MP path) = res_map (map MP) (break_path path).
Proof.
  destruct path as [|first rest]; [reflexivity|].
  cbn [change_path map break_path].
  pose proof (break_loop_runs rest [] [] first) as B. cbn [app] in B.
  pose proof (break_loop_runs (MP rest) [] [] (M first)) as B'.
  cbn [app] in B'. unfold change_path in B'. rewrite B, B'. cbn [res_map].
  f_equal. apply (move_runs rest [first] first).
Qed.

Lemma augment_glyph_changed (parsed : Path) :
  augment_glyph (MP parsed)
  = res_map (map (move_extra move)) (augment_glyph parsed).
Proof.
  unfold augment_glyph.
  assert (F : filter (fun element => cneb (seg_start element)
                                       (seg_end element)) (MP parsed)
              = MP (filter (fun element => cneb (seg_start element)
                                             (seg_end element)) parsed)).
  { unfold change_path. induction parsed as [|s parsed IH]; [reflexivity|].
    cbn [map filter]. rewrite move_seg_start, move_seg_end, move_neb, IH.
    now destruct (cneb (seg_start s) (seg_end s)). }
  rewrite F. clear F.
  destruct (filter _ parsed) as [|first rest]; [reflexivity|].
  change (MP (first :: rest)) with (M first :: MP rest) at 1.
  cbv iota. change (M first :: MP rest) with (MP (first :: rest)).
  rewrite move_break_path.
  destruct (break_path (first :: rest)) as [subpaths| |]; try reflexivity.
  cbn [res_map bind]. rewrite move_get_cusps.
  destruct (get_cusps subpaths) as [cusps| |]; try reflexivity.
  cbn [res_map bind]. f_equal.
  rewrite move_connector, !map_app, !map_map. reflexivity.
Qed.

End Simulation.

Section Unseen.

Context {N : PyNum}.


(** Cubic curves and arcs are analysed as the straight lines between their
    end points: [augment_glyph] returns for an outline what it returns for
    the outline in which each of them is replaced by that line. *)
Theorem augment_glyph_sees_chords (parsed : Path) :
  augment_glyph (map chord_of parsed) = augment_glyph parsed.
Proof.
  change (map chord_of parsed) with (change_path chord_of parsed).
  rewrite (augment_glyph_changed chord_of (fun z => z)); try reflexivity;
    try (now intros []).
  destruct (augment_glyph parsed) as [extras| |]; try reflexivity.
  cbn [res_map]. f_equal. rewrite <- (map_id extras) at 2.
  apply map_ext. now intros [].
Qed.

End Unseen.

Section TranslationOnExamples.

Import Exact ExactLaws Examples.

Local Open Scope R_scope.


End TranslationOnExamples.

(** ** Two close cusps *)

Section ClosePair.

Context {N : PyNum}.

(** Two cusps are all a sub-path has, and the first merges into the second:
    the merged cusp is then alone at index 0, merges with itself and is
    removed, so that the sub-path is left without any cusp. *)
Theorem close_pair_vanishes {L : DistanceLaws N} (paths0 : list Path)
  (i : nat) (path : Path) (a b b' : Cusp)
  (P : nth_error paths0 i = Some path)
  (Wa : cusp_of paths0 i path a)
  (Wb : cusp_of paths0 i path b)
  (M : merge a b = Ret (true, b')) :
  merger_step [a; b] 0 = Ret ([b'], 0)
  /\ merger [a; b] = Ret [].
Proof.
  assert (Wb' : cusp_of paths0 i path b').
  { apply merge_true in M as (_ & _ & _ & Pb & I).
    destruct Wa as (Pa & Ia & Ja), Wb as (Pb0 & Ib & Jb).
    unfold cusp_of. rewrite Pb. destruct I as [-> | ->]; auto. }
  destruct (merge_self paths0 i path b' P Wb') as (c & S).
  assert (S1 : merger_step [a; b] 0 = Ret ([b'], 0)).
  { unfold merger_step. cbn [getitem nth_error bind length Nat.add].
    change (pymod 1 2) with (@Ret nat 1). cbn [bind getitem nth_error].
    rewrite M. reflexivity. }
  assert (S2 : merger_step [b'] 0 = Ret ([], 0)).
  { unfold merger_step. cbn [getitem nth_error bind length Nat.add].
    change (pymod 1 1) with (@Ret nat 0). cbn [bind getitem nth_error].
    rewrite S. reflexivity. }
  split; [exact S1|].
  unfold merger. cbn [length merger_loop].
  change (0 <? 2) with true. cbv iota. rewrite S1. cbn [bind].
  change (0 <? length [b']) with true. cbv iota. rewrite S2. reflexivity.
Qed.

End ClosePair.

Section ClosePairOnExamples.

Import Examples.

(** The detector finds the two corners of [teardrop]. *)
Lemma teardrop_detect :
  detect (N := Binary64.num) [teardrop] 0 teardrop
  = Ret [teardrop_a; teardrop_b].
Proof. vm_compute. reflexivity. Qed.

(** [close_pair_vanishes] on the two corners of [teardrop]: the merger
    leaves none. *)
Lemma close_pair_vanishes_witness :
  merger_step [teardrop_a; teardrop_b] 0 = Ret ([teardrop_merged], 0)
  /\ merger (N := Binary64.num) [teardrop_a; teardrop_b] = Ret [].
Proof.
  apply (close_pair_vanishes (N := Binary64.num)
           (L := Binary64Laws.distance_laws) [teardrop] 0 teardrop
           teardrop_a teardrop_b teardrop_merged).
  - reflexivity.
  - repeat split. simpl. lia.
  - repeat split. simpl. lia.
  - vm_compute. reflexivity.
Defined.

End ClosePairOnExamples.
